(** * GraphVisualizer: a shallow embedding of [script.js]

    The development follows the source file: the JavaScript values the
    program manipulates (numbers with [Infinity], insertion-ordered [Map]s,
    plain objects keyed by integers, node objects held by reference), the
    global [state] object, the graph store operations, the edit history, the
    step-trace generators and the playback controller.  Rendering, hit
    testing and layout are not modelled: an operation takes the node or edge
    the pointer hit as an argument.

    Part I holds the embedding, Part II the properties. *)

From Stdlib Require Import List ZArith Lia Bool Arith PeanoNat String Ascii.
From Stdlib Require Import DecimalString.
Import ListNotations.
Open Scope list_scope.

Set Implicit Arguments.

(** * Part I: the embedding *)

(** ** Numbers used as distances

    Weights, distances and scores are JavaScript numbers, that is doubles.
    The ones the graph store and the shortest-path generator hold are
    integers or infinite.  A double holds an integer below [2^53] in
    magnitude exactly; a sum beyond that is rounded to the nearest double,
    and to an infinity past the largest one. *)

Module Num.

Inductive num : Type :=
| Fin (z : Z)
| Infinity
| NegInfinity.

(** [a < b] *)
Definition ltb (a b : num) : bool :=
  match a, b with
  | Fin x, Fin y => Z.ltb x y
  | Fin _, Infinity => true
  | Fin _, NegInfinity => false
  | Infinity, _ => false
  | NegInfinity, NegInfinity => false
  | NegInfinity, _ => true
  end.

(** The double nearest to an integer.  Below [2^53] it is the integer.
    Beyond, 53 significant bits are kept: the integer is rounded to the
    nearest multiple of [2^e], where [e] is the number of bits dropped, a
    tie going to the even significand.  A result of [2^1024] or more is
    past the largest double and reads as an infinity. *)
Definition round (z : Z) : num :=
  let a := Z.abs z in
  if (a <? 2 ^ 53)%Z then Fin z
  else
    let e := (Z.log2 a - 52)%Z in
    let q := Z.shiftr a e in
    let r := (a - Z.shiftl q e)%Z in
    let half := Z.shiftl 1 (e - 1) in
    let q1 :=
      if (r <? half)%Z then q
      else if (half <? r)%Z then (q + 1)%Z
      else if Z.even q then q else (q + 1)%Z in
    let m := Z.shiftl q1 e in
    if (2 ^ 1024 <=? m)%Z
    then (if (z <? 0)%Z then NegInfinity else Infinity)
    else Fin (if (z <? 0)%Z then - m else m).

(** [a + w] for an integer [w]: the exact sum, rounded. *)
Definition add (a : num) (w : Z) : num :=
  match a with
  | Fin x => round (x + w)
  | Infinity => Infinity
  | NegInfinity => NegInfinity
  end.

(** A comparison with [undefined] (a missing key) is false; [None] stands
    for [undefined]. *)
Definition ltb_undef (a b : option num) : bool :=
  match a, b with
  | Some x, Some y => ltb x y
  | _, _ => false
  end.

End Num.

(** ** [Map]: keys in insertion order *)

Module JsMap.
Section Ops.
Variable V : Type.

Definition t := list (nat * V).

Fixpoint get (m : t) (k : nat) : option V :=
  match m with
  | [] => None
  | (k', v) :: m' => if Nat.eqb k' k then Some v else get m' k
  end.

Definition has (m : t) (k : nat) : bool :=
  match get m k with Some _ => true | None => false end.

(** [m.set(k, v)]: an existing key keeps its position, a new one goes last. *)
Fixpoint set (m : t) (k : nat) (v : V) : t :=
  match m with
  | [] => [(k, v)]
  | (k', v') :: m' =>
      if Nat.eqb k' k then (k, v) :: m' else (k', v') :: set m' k v
  end.

Fixpoint delete (m : t) (k : nat) : t :=
  match m with
  | [] => []
  | (k', v') :: m' =>
      if Nat.eqb k' k then delete m' k else (k', v') :: delete m' k
  end.

Definition keys (m : t) : list nat := map fst m.

End Ops.
End JsMap.

(** ** Plain objects keyed by integers

    [Object.keys] of an object whose keys are array indices lists them in
    ascending order, whatever the order of assignment: [set] keeps the
    association list sorted. *)

Module JsObj.
Section Ops.
Variable V : Type.

Definition t := list (nat * V).

Fixpoint get (o : t) (k : nat) : option V :=
  match o with
  | [] => None
  | (k', v) :: o' => if Nat.eqb k' k then Some v else get o' k
  end.

Fixpoint set (o : t) (k : nat) (v : V) : t :=
  match o with
  | [] => [(k, v)]
  | (k', v') :: o' =>
      if Nat.ltb k k' then (k, v) :: o
      else if Nat.eqb k' k then (k, v) :: o'
      else (k', v') :: set o' k v
  end.

Definition keys (o : t) : list nat := map fst o.

End Ops.
End JsObj.

(** ** Arrays *)

(** [a.includes(k)] *)
Definition includes (a : list nat) (k : nat) : bool :=
  existsb (Nat.eqb k) a.

(** [a.splice(a.indexOf(k), 1)]: the first occurrence of [k] goes.  When [k]
    is absent [indexOf] is -1 and [splice(-1, 1)] removes the last element. *)
Fixpoint remove_first (a : list nat) (k : nat) : option (list nat) :=
  match a with
  | [] => None
  | x :: a' =>
      if Nat.eqb x k then Some a'
      else match remove_first a' k with
           | Some r => Some (x :: r)
           | None => None
           end
  end.

Definition splice_indexOf (a : list nat) (k : nat) : list nat :=
  match remove_first a k with
  | Some r => r
  | None => removelast a
  end.

(** Removal of the element at a position: [filter(e => e !== edge)] for an
    object that sits once in the array. *)
Fixpoint remove_at (A : Type) (i : nat) (a : list A) : list A :=
  match a, i with
  | [], _ => []
  | _ :: a', O => a'
  | x :: a', S j => x :: remove_at j a'
  end.

(** In-place update of the element at a position. *)
Fixpoint update_at (A : Type) (i : nat) (f : A -> A) (a : list A) : list A :=
  match a, i with
  | [], _ => []
  | x :: a', O => f x :: a'
  | x :: a', S j => x :: update_at j f a'
  end.

(** [set.delete(k)] on a [Set] of node ids kept in insertion order. *)
Definition set_delete (a : list nat) (k : nat) : list nat :=
  filter (fun x => negb (Nat.eqb x k)) a.

(** ** [parseInt]

    Leading white space is skipped, a sign is read, a [0x] prefix selects
    radix 16, then the longest run of digits is read and the rest of the
    string is ignored.  [None] is [NaN] (no digit was read). *)

Definition is_space (c : ascii) : bool :=
  let n := nat_of_ascii c in
  (n =? 32) || (n =? 9) || (n =? 10) || (n =? 11) || (n =? 12) || (n =? 13).

Fixpoint skip_spaces (s : string) : string :=
  match s with
  | String c r => if is_space c then skip_spaces r else s
  | EmptyString => s
  end.

Definition digit_of (radix : nat) (c : ascii) : option nat :=
  let n := nat_of_ascii c in
  let v := if (48 <=? n) && (n <=? 57) then Some (n - 48)
           else if (97 <=? n) && (n <=? 122) then Some (n - 87)
           else if (65 <=? n) && (n <=? 90) then Some (n - 55)
           else None in
  match v with
  | Some d => if d <? radix then Some d else None
  | None => None
  end.

Fixpoint read_digits (radix : nat) (s : string) (acc : option Z) : option Z :=
  match s with
  | String c r =>
      match digit_of radix c with
      | Some d =>
          let a := match acc with Some a => a | None => 0%Z end in
          read_digits radix r (Some (a * Z.of_nat radix + Z.of_nat d)%Z)
      | None => acc
      end
  | EmptyString => acc
  end.

Definition parseInt (input : string) : option Z :=
  let s1 := skip_spaces input in
  let '(neg, s2) :=
    match s1 with
    | String "-"%char r => (true, r)
    | String "+"%char r => (false, r)
    | _ => (false, s1)
    end in
  let '(radix, s3) :=
    match s2 with
    | String "0"%char (String "x"%char r) => (16, r)
    | String "0"%char (String "X"%char r) => (16, r)
    | _ => (10, s2)
    end in
  match read_digits radix s3 None with
  | Some v => Some (if neg then (- v)%Z else v)
  | None => None
  end.

(** [String(n)] for a non-negative integer. *)
Definition String_of_nat (n : nat) : string :=
  NilEmpty.string_of_uint (Nat.to_uint n).

(** ** Node and edge objects *)

(** The entries of [COLORS] written onto nodes and edges. *)
Inductive Color : Type :=
| START | GOAL | VISITING | VISITED | PATH | ACTIVE_EDGE.

(** A node object [{ id, x, y, label, color }]; [color] is absent ([None])
    until something assigns it, and [delete n.color] makes it absent again.
    Positions are kept as integers: nothing here computes with them but the
    heuristic of the A-star search, which is a parameter. *)
Record NodeObj : Type := mkNode {
  n_id : nat;
  n_x : Z;
  n_y : Z;
  n_label : string;
  n_color : option Color
}.

(** An edge object [{ from, to, weight, color }]. *)
Record Edge : Type := mkEdge {
  e_from : nat;
  e_to : nat;
  e_weight : Z;
  e_color : option Color
}.

(** An adjacency entry [{ node, weight }]. *)
Record AdjEntry : Type := mkAdj {
  a_node : nat;
  a_weight : Z
}.

Definition set_n_color (c : option Color) (n : NodeObj) : NodeObj :=
  mkNode (n_id n) (n_x n) (n_y n) (n_label n) c.

Definition set_n_label (l : string) (n : NodeObj) : NodeObj :=
  mkNode (n_id n) (n_x n) (n_y n) l (n_color n).

Definition set_e_color (c : option Color) (e : Edge) : Edge :=
  mkEdge (e_from e) (e_to e) (e_weight e) c.

Definition set_e_weight (w : Z) (e : Edge) : Edge :=
  mkEdge (e_from e) (e_to e) w (e_color e).

(** ** References to node objects

    Node objects are shared: [state.nodes], [state.startNode] and
    [state.goalNode] hold references to the same objects, and the code
    compares them with [===].  The heap lists every node object allocated so
    far; a reference is a position in it and nothing is ever freed. *)

Definition ref := nat.
Definition Heap := list NodeObj.

Definition null_node : NodeObj := mkNode 0 0 0 EmptyString None.

Definition deref (h : Heap) (r : ref) : NodeObj := nth r h null_node.

Definition alloc (h : Heap) (o : NodeObj) : Heap * ref := (h ++ [o], List.length h).

Definition mutate (h : Heap) (r : ref) (f : NodeObj -> NodeObj) : Heap :=
  update_at r f h.

(** Allocation of a list of objects, as [JSON.parse] does for an array. *)
Fixpoint alloc_all (h : Heap) (os : list NodeObj) : Heap * list ref :=
  match os with
  | [] => (h, [])
  | o :: os' =>
      let '(h1, r) := alloc h o in
      let '(h2, rs) := alloc_all h1 os' in
      (h2, r :: rs)
  end.

(** [n === m] on optional references ([null] is [None]). *)
Definition same_ref (a : option ref) (r : ref) : bool :=
  match a with Some x => Nat.eqb x r | None => false end.

(** ** Steps of a trace *)

(** What [node.label || node.id] shows: the label unless it is empty. *)
Inductive Shown : Type :=
| ShownLabel (l : string)
| ShownId (k : nat).

Definition label_or_id (n : NodeObj) : Shown :=
  match n_label n with
  | EmptyString => ShownId (n_id n)
  | l => ShownLabel l
  end.

(** Scores of the heuristic search are floating-point numbers; every finite
    one is a rational. *)
Inductive fnum : Type :=
| FFin (q : Z * positive)
| FInf
| FNegInf
| FNaN.

(** The algorithms offered by the algorithm selector. *)
Inductive Algo : Type :=
| bfs | dfs | dijkstra | astar | prim | kruskal
| bellman_ford | floyd_warshall | topological | connected_components.

(** The [desc] template of a step, with the values filled in. *)
Inductive Desc : Type :=
| StartingBFS (n : Shown)
| StartingDFS (n : Shown)
| StartingDijkstra (n : Shown)
| StartingAStar (n : Shown)
| Visiting (n : Shown)
| NeighborsOf (n : Shown) (ids : list nat)
| Discovered (k : nat)
| Skipping (k : nat)
| AddingUnvisited (ids : list nat)
| VisitingWithDistance (n : Shown) (d : option Num.num)
| FoundShortestPath (d : option Num.num)
| UpdatedDistance (k : nat) (d : Num.num)
| VisitingWithFScore (k : nat) (f : fnum)
| FoundPath (g : option Num.num)
| UpdatedScores (k : nat) (g : Num.num) (f : fnum)
| Completed (a : Algo)
| NotImplemented (a : Algo).

(** The algorithm-specific fields of a step. *)
Inductive Aux : Type :=
| NoAux
| DistAux (dist : JsObj.t Num.num)
| ScoreAux (gScore : JsObj.t Num.num) (fScore : JsObj.t fnum).

Record Step : Type := mkStep {
  desc : Desc;
  ds : list nat;
  visited : list nat;
  path : list nat;
  aux : Aux
}.

(** ** The global [state] *)

(** An entry of [state.history]: deep copies of the node and edge arrays,
    and references to the live start and goal node objects. *)
Record Snapshot : Type := mkSnapshot {
  h_nodes : list NodeObj;
  h_edges : list Edge;
  h_startNode : option ref;
  h_goalNode : option ref
}.

(** The fields of [state] the graph store, the history, the generators and
    the playback controller use, with the DOM and browser state they read:
    the [directed-toggle] checkbox and the last handle [setInterval] gave.
    View state (mode, zoom, pan, theme, hover, force layout) is left out. *)
Record State : Type := mkState {
  heap : Heap;
  nodes : list ref;
  edges : list Edge;
  adj : JsMap.t (list AdjEntry);
  startNode : option ref;
  goalNode : option ref;
  steps : list Step;
  stepIndex : nat;
  intervalId : option nat;
  currentAlgo : Algo;
  history : list Snapshot;
  historyIndex : Z;
  selectedNodes : list nat;
  searchResults : list nat;
  directed : bool;
  lastTimer : nat
}.

(** The state at page load: [state] as declared, the directed toggle
    unchecked, no timer handed out yet.  [init] records no snapshot. *)
Definition initial_state : State :=
  mkState [] [] [] [] None None [] 0 None bfs [] (-1) [] [] false 0.

Definition with_heap (v : Heap) (s : State) : State :=
  mkState v (nodes s) (edges s) (adj s) (startNode s) (goalNode s) (steps s)
    (stepIndex s) (intervalId s) (currentAlgo s) (history s) (historyIndex s)
    (selectedNodes s) (searchResults s) (directed s) (lastTimer s).

Definition with_nodes (v : list ref) (s : State) : State :=
  mkState (heap s) v (edges s) (adj s) (startNode s) (goalNode s) (steps s)
    (stepIndex s) (intervalId s) (currentAlgo s) (history s) (historyIndex s)
    (selectedNodes s) (searchResults s) (directed s) (lastTimer s).

Definition with_edges (v : list Edge) (s : State) : State :=
  mkState (heap s) (nodes s) v (adj s) (startNode s) (goalNode s) (steps s)
    (stepIndex s) (intervalId s) (currentAlgo s) (history s) (historyIndex s)
    (selectedNodes s) (searchResults s) (directed s) (lastTimer s).

Definition with_adj (v : JsMap.t (list AdjEntry)) (s : State) : State :=
  mkState (heap s) (nodes s) (edges s) v (startNode s) (goalNode s) (steps s)
    (stepIndex s) (intervalId s) (currentAlgo s) (history s) (historyIndex s)
    (selectedNodes s) (searchResults s) (directed s) (lastTimer s).

Definition with_startNode (v : option ref) (s : State) : State :=
  mkState (heap s) (nodes s) (edges s) (adj s) v (goalNode s) (steps s)
    (stepIndex s) (intervalId s) (currentAlgo s) (history s) (historyIndex s)
    (selectedNodes s) (searchResults s) (directed s) (lastTimer s).

Definition with_goalNode (v : option ref) (s : State) : State :=
  mkState (heap s) (nodes s) (edges s) (adj s) (startNode s) v (steps s)
    (stepIndex s) (intervalId s) (currentAlgo s) (history s) (historyIndex s)
    (selectedNodes s) (searchResults s) (directed s) (lastTimer s).

Definition with_steps (v : list Step) (s : State) : State :=
  mkState (heap s) (nodes s) (edges s) (adj s) (startNode s) (goalNode s) v
    (stepIndex s) (intervalId s) (currentAlgo s) (history s) (historyIndex s)
    (selectedNodes s) (searchResults s) (directed s) (lastTimer s).

Definition with_stepIndex (v : nat) (s : State) : State :=
  mkState (heap s) (nodes s) (edges s) (adj s) (startNode s) (goalNode s)
    (steps s) v (intervalId s) (currentAlgo s) (history s) (historyIndex s)
    (selectedNodes s) (searchResults s) (directed s) (lastTimer s).

Definition with_intervalId (v : option nat) (s : State) : State :=
  mkState (heap s) (nodes s) (edges s) (adj s) (startNode s) (goalNode s)
    (steps s) (stepIndex s) v (currentAlgo s) (history s) (historyIndex s)
    (selectedNodes s) (searchResults s) (directed s) (lastTimer s).

Definition with_currentAlgo (v : Algo) (s : State) : State :=
  mkState (heap s) (nodes s) (edges s) (adj s) (startNode s) (goalNode s)
    (steps s) (stepIndex s) (intervalId s) v (history s) (historyIndex s)
    (selectedNodes s) (searchResults s) (directed s) (lastTimer s).

Definition with_history (v : list Snapshot) (s : State) : State :=
  mkState (heap s) (nodes s) (edges s) (adj s) (startNode s) (goalNode s)
    (steps s) (stepIndex s) (intervalId s) (currentAlgo s) v (historyIndex s)
    (selectedNodes s) (searchResults s) (directed s) (lastTimer s).

Definition with_historyIndex (v : Z) (s : State) : State :=
  mkState (heap s) (nodes s) (edges s) (adj s) (startNode s) (goalNode s)
    (steps s) (stepIndex s) (intervalId s) (currentAlgo s) (history s) v
    (selectedNodes s) (searchResults s) (directed s) (lastTimer s).

Definition with_selectedNodes (v : list nat) (s : State) : State :=
  mkState (heap s) (nodes s) (edges s) (adj s) (startNode s) (goalNode s)
    (steps s) (stepIndex s) (intervalId s) (currentAlgo s) (history s)
    (historyIndex s) v (searchResults s) (directed s) (lastTimer s).

Definition with_searchResults (v : list nat) (s : State) : State :=
  mkState (heap s) (nodes s) (edges s) (adj s) (startNode s) (goalNode s)
    (steps s) (stepIndex s) (intervalId s) (currentAlgo s) (history s)
    (historyIndex s) (selectedNodes s) v (directed s) (lastTimer s).

Definition with_directed (v : bool) (s : State) : State :=
  mkState (heap s) (nodes s) (edges s) (adj s) (startNode s) (goalNode s)
    (steps s) (stepIndex s) (intervalId s) (currentAlgo s) (history s)
    (historyIndex s) (selectedNodes s) (searchResults s) v (lastTimer s).

Definition with_lastTimer (v : nat) (s : State) : State :=
  mkState (heap s) (nodes s) (edges s) (adj s) (startNode s) (goalNode s)
    (steps s) (stepIndex s) (intervalId s) (currentAlgo s) (history s)
    (historyIndex s) (selectedNodes s) (searchResults s) (directed s) v.

(** ** Results of code that can throw or loop *)

Inductive Outcome (A : Type) : Type :=
| Done (a : A)
| Threw          (* a [TypeError]: a property of [undefined] or [null] was read *)
| OutOfFuel.     (* the loop was still running when the fuel ran out *)

Arguments Done {A} a.
Arguments Threw {A}.
Arguments OutOfFuel {A}.

Definition bind (A B : Type) (m : Outcome A) (k : A -> Outcome B) : Outcome B :=
  match m with
  | Done a => k a
  | Threw => Threw
  | OutOfFuel => OutOfFuel
  end.

Notation "x <- m ;; k" := (bind m (fun x => k))
  (at level 61, m at next level, right associativity).

(** A property read off a possibly missing object. *)
Definition must (A : Type) (o : option A) : Outcome A :=
  match o with Some a => Done a | None => Threw end.

(** ** Graph store *)

Definition node_of (s : State) (r : ref) : NodeObj := deref (heap s) r.

Definition node_ids (s : State) : list nat :=
  map (fun r => n_id (node_of s r)) (nodes s).

(** [state.nodes.find(n => n.id === k)] *)
Definition find_node (s : State) (k : nat) : option ref :=
  find (fun r => Nat.eqb (n_id (node_of s r)) k) (nodes s).

(** [a.slice(0, e)] *)
Definition slice0 (A : Type) (e : Z) (a : list A) : list A :=
  if (e <? 0)%Z
  then firstn (Z.to_nat (Z.of_nat (List.length a) + e)) a
  else firstn (Z.to_nat e) a.

(** The [stateCopy] object of [saveState]: [JSON.parse(JSON.stringify(...))]
    copies every field of every node and edge object. *)
Definition stateCopy (s : State) : Snapshot :=
  mkSnapshot
    (map (node_of s) (nodes s))
    (edges s)
    (match startNode s with
     | Some r => find_node s (n_id (node_of s r))
     | None => None
     end)
    (match goalNode s with
     | Some r => find_node s (n_id (node_of s r))
     | None => None
     end).

(** [saveState]: the redo tail is dropped, a snapshot is pushed and the
    history is capped at 50 entries. *)
Definition saveState (s : State) : State :=
  let hist :=
    if (historyIndex s <? Z.of_nat (List.length (history s)) - 1)%Z
    then slice0 (historyIndex s + 1) (history s)
    else history s in
  let hist1 := hist ++ [stateCopy s] in
  let idx1 := (Z.of_nat (List.length hist1) - 1)%Z in
  if (50 <? Z.of_nat (List.length hist1))%Z
  then with_historyIndex (idx1 - 1) (with_history (tl hist1) s)
  else with_historyIndex idx1 (with_history hist1 s).

(** [state.adj.get(k).push(entry)], after the [has] test that creates the
    array when the key is missing. *)
Definition adj_push (m : JsMap.t (list AdjEntry)) (k : nat) (entry : AdjEntry)
  : JsMap.t (list AdjEntry) :=
  match JsMap.get m k with
  | Some l => JsMap.set m k (l ++ [entry])
  | None => JsMap.set m k [entry]
  end.

(** The body of the edge loops of [updateAdjacencyList], [addEdge] and
    [importGraph]. *)
Definition adj_add_edge (isDirected : bool) (m : JsMap.t (list AdjEntry))
  (from to : nat) (w : Z) : JsMap.t (list AdjEntry) :=
  let m1 := adj_push m from (mkAdj to w) in
  if isDirected then m1 else adj_push m1 to (mkAdj from w).

(** [updateAdjacencyList] *)
Definition rebuild_adj (isDirected : bool) (ids : list nat) (es : list Edge)
  : JsMap.t (list AdjEntry) :=
  let m0 := fold_left (fun m k => JsMap.set m k []) ids [] in
  fold_left
    (fun m e => adj_add_edge isDirected m (e_from e) (e_to e) (e_weight e))
    es m0.

Definition updateAdjacencyList (s : State) : State :=
  with_adj (rebuild_adj (directed s) (node_ids s) (edges s)) s.

(** [addNode], from the adjusted position on. *)
Definition addNode (px py : Z) (s : State) : State :=
  let id := List.length (nodes s) in
  let newNode := mkNode id px py (String_of_nat id) None in
  let '(h1, r) := alloc (heap s) newNode in
  let s1 := with_nodes (nodes s ++ [r]) (with_heap h1 s) in
  let s2 := with_adj (JsMap.set (adj s1) id []) s1 in
  saveState s2.

(** Where the weight of a new edge comes from: the random draw when
    [random-weight] is checked, the answer to the prompt otherwise ([None]
    when the prompt was dismissed). *)
Inductive WeightSource : Type :=
| RandomWeight (draw : Z)
| Prompted (input : option string).

(** The branch an edge operation ended in. *)
Inductive EdgeResult : Type :=
| EdgeOk
| Cancelled
| InvalidWeight
| DuplicateEdge.

(** [state.edges.some(...)] of [addEdge] *)
Definition edgeExists (s : State) (fromId toId : nat) : bool :=
  existsb
    (fun e =>
       (Nat.eqb (e_from e) fromId && Nat.eqb (e_to e) toId)
       || (negb (directed s) && Nat.eqb (e_from e) toId && Nat.eqb (e_to e) fromId))
    (edges s).

(** The weight [addEdge] settles on, or the branch it leaves through. *)
Definition read_weight (src : WeightSource) : Z + EdgeResult :=
  match src with
  | RandomWeight draw => inl draw
  | Prompted None => inr Cancelled
  | Prompted (Some input) =>
      match parseInt input with
      | None => inr InvalidWeight
      | Some w => if (w <=? 0)%Z then inr InvalidWeight else inl w
      end
  end.

(** [addEdge(fromNode, toNode)] *)
Definition addEdge (fromNode toNode : ref) (src : WeightSource) (s : State)
  : State * EdgeResult :=
  match read_weight src with
  | inr r => (s, r)
  | inl weight =>
      let fromId := n_id (node_of s fromNode) in
      let toId := n_id (node_of s toNode) in
      if edgeExists s fromId toId then (s, DuplicateEdge)
      else
        let s1 := with_edges (edges s ++ [mkEdge fromId toId weight None]) s in
        let s2 := with_adj (adj_add_edge (directed s) (adj s1) fromId toId weight) s1 in
        (saveState s2, EdgeOk)
  end.

(** [deleteNode(node)] *)
Definition deleteNode (node : ref) (s : State) : State :=
  let id := n_id (node_of s node) in
  let s1 :=
    with_nodes (filter (fun r => negb (Nat.eqb (n_id (node_of s r)) id)) (nodes s)) s in
  let s2 :=
    with_edges
      (filter (fun e => negb (Nat.eqb (e_from e) id) && negb (Nat.eqb (e_to e) id))
         (edges s1)) s1 in
  let adj1 := JsMap.delete (adj s2) id in
  let adj2 :=
    map (fun kv =>
           (fst kv, filter (fun n => negb (Nat.eqb (a_node n) id)) (snd kv)))
      adj1 in
  let s3 := with_adj adj2 s2 in
  let s4 := if same_ref (startNode s3) node then with_startNode None s3 else s3 in
  let s5 := if same_ref (goalNode s4) node then with_goalNode None s4 else s4 in
  let s6 := with_selectedNodes (set_delete (selectedNodes s5) id) s5 in
  let s7 := with_searchResults (set_delete (searchResults s6) id) s6 in
  saveState s7.

(** [deleteEdge(edge)], for the edge object at position [i] of
    [state.edges]. *)
Definition deleteEdge (i : nat) (s : State) : State :=
  let s1 := with_edges (remove_at i (edges s)) s in
  saveState (updateAdjacencyList s1).

(** The weight edit of [handleClick], for the edge object at position [i] of
    [state.edges] and the answer to the prompt. *)
Definition editWeight (i : nat) (newW : option string) (s : State)
  : State * EdgeResult :=
  match newW with
  | None => (s, Cancelled)
  | Some input =>
      match parseInt input with
      | None => (s, InvalidWeight)
      | Some num =>
          if (0 <? num)%Z
          then
            let s1 := with_edges (update_at i (set_e_weight num) (edges s)) s in
            (saveState (updateAdjacencyList s1), EdgeOk)
          else (s, InvalidWeight)
      end
  end.

(** The rename of [handleDoubleClick]. *)
Definition renameNode (clicked : ref) (newLabel : string) (s : State) : State :=
  saveState (with_heap (mutate (heap s) clicked (set_n_label newLabel)) s).

(** [setStartNode(node)] for a node object. *)
Definition setStartNode (node : ref) (s : State) : State :=
  let s1 :=
    match startNode s with
    | Some old => with_heap (mutate (heap s) old (set_n_color None)) s
    | None => s
    end in
  let s2 := with_startNode (Some node) s1 in
  let s3 := with_heap (mutate (heap s2) node (set_n_color (Some START))) s2 in
  saveState s3.

(** [setGoalNode(node)] for a node object. *)
Definition setGoalNode (node : ref) (s : State) : State :=
  let s1 :=
    match goalNode s with
    | Some old => with_heap (mutate (heap s) old (set_n_color None)) s
    | None => s
    end in
  let s2 := with_goalNode (Some node) s1 in
  let s3 := with_heap (mutate (heap s2) node (set_n_color (Some GOAL))) s2 in
  saveState s3.

(** ** Edit history *)

(** [restoreState]: fresh copies of the snapshot's nodes and edges replace
    the live ones, start and goal are looked up again by id. *)
Definition restoreState (s : State) : Outcome State :=
  historyState <-
    must (if (historyIndex s <? 0)%Z then None
          else nth_error (history s) (Z.to_nat (historyIndex s))) ;;
  let '(h1, rs) := alloc_all (heap s) (h_nodes historyState) in
  let s1 := with_edges (h_edges historyState) (with_nodes rs (with_heap h1 s)) in
  let s2 :=
    with_startNode
      (match h_startNode historyState with
       | Some r => find_node s1 (n_id (node_of s1 r))
       | None => None
       end) s1 in
  let s3 :=
    with_goalNode
      (match h_goalNode historyState with
       | Some r => find_node s2 (n_id (node_of s2 r))
       | None => None
       end) s2 in
  Done (updateAdjacencyList s3).

Definition undo (s : State) : Outcome State :=
  if (0 <? historyIndex s)%Z
  then restoreState (with_historyIndex (historyIndex s - 1) s)
  else Done s.

Definition redo (s : State) : Outcome State :=
  if (historyIndex s <? Z.of_nat (List.length (history s)) - 1)%Z
  then restoreState (with_historyIndex (historyIndex s + 1) s)
  else Done s.

(** ** Clearing, resetting and importing *)

(** [clearCanvas], once the confirmation is given. *)
Definition clearCanvas (s : State) : State :=
  let s1 := with_adj [] (with_edges [] (with_nodes [] s)) in
  let s2 := with_goalNode None (with_startNode None s1) in
  let s3 := with_stepIndex 0 (with_steps [] s2) in
  let s4 := with_searchResults [] (with_selectedNodes [] s3) in
  let s5 := match intervalId s4 with
            | Some _ => with_intervalId None s4
            | None => s4
            end in
  saveState s5.

(** The colour reset shared by [resetVisualization] and [showStep]. *)
Definition reset_colors (s : State) : State :=
  let h :=
    fold_left
      (fun h r =>
         if same_ref (startNode s) r then mutate h r (set_n_color (Some START))
         else if same_ref (goalNode s) r then mutate h r (set_n_color (Some GOAL))
         else mutate h r (set_n_color None))
      (nodes s) (heap s) in
  with_edges (map (set_e_color None) (edges s)) (with_heap h s).

(** [resetVisualization] *)
Definition resetVisualization (s : State) : State :=
  let s1 := with_stepIndex 0 (with_steps [] s) in
  let s2 := match intervalId s1 with
            | Some _ => with_intervalId None s1
            | None => s1
            end in
  reset_colors s2.

(** The document [importGraph] reads. *)
Record GraphDoc : Type := mkDoc {
  d_nodes : list (nat * string * Z * Z);
  d_edges : list (nat * nat * Z);
  d_directed : bool;
  d_start : option nat;
  d_goal : option nat
}.

(** The [onload] handler of [importGraph], for a document that parses. *)
Definition importGraph (data : GraphDoc) (s : State) : State :=
  let s1 := with_adj [] (with_edges [] (with_nodes [] s)) in
  let s2 := with_searchResults [] (with_selectedNodes [] s1) in
  let s3 :=
    fold_left
      (fun st n =>
         let '(id, label, x, y) := n in
         let '(h1, r) := alloc (heap st) (mkNode id x y label None) in
         with_adj (JsMap.set (adj st) id [])
           (with_nodes (nodes st ++ [r]) (with_heap h1 st)))
      (d_nodes data) s2 in
  let s4 :=
    fold_left
      (fun st ed =>
         let '(from, to, w) := ed in
         with_adj (adj_add_edge (d_directed data) (adj st) from to w)
           (with_edges (edges st ++ [mkEdge from to w None]) st))
      (d_edges data) s3 in
  let s5 := with_directed (d_directed data) s4 in
  let s6 :=
    match d_start data with
    | Some k => match find_node s5 k with
                | Some r => setStartNode r s5
                | None => s5
                end
    | None => s5
    end in
  let s7 :=
    match d_goal data with
    | Some k => match find_node s6 k with
                | Some r => setGoalNode r s6
                | None => s6
                end
    | None => s6
    end in
  saveState s7.

(** ** Step-trace generators

    A generator returns the steps it pushed onto [state.steps].  A loop of the
    source is a function on fuel: [OutOfFuel] says the loop was still running.
    When a generator throws, the steps pushed so far are not kept. *)

Module Trace.

(** [state.adj.get(k) || []] *)
Definition neighbors_of (s : State) (k : nat) : list AdjEntry :=
  match JsMap.get (adj s) k with
  | Some l => l
  | None => []
  end.

(** *** Breadth-first search *)

Fixpoint bfs_neighbors (neighbors : list AdjEntry)
  (queue visitedSet : list nat) (acc : list Step)
  : list nat * list nat * list Step :=
  match neighbors with
  | [] => (queue, visitedSet, acc)
  | neighbor :: rest =>
      if includes visitedSet (a_node neighbor)
      then bfs_neighbors rest queue visitedSet acc
      else
        let visited1 := visitedSet ++ [a_node neighbor] in
        let queue1 := queue ++ [a_node neighbor] in
        bfs_neighbors rest queue1 visited1
          (acc ++ [mkStep (Discovered (a_node neighbor)) queue1 visited1 [] NoAux])
  end.

Fixpoint bfs_loop (fuel : nat) (s : State) (queue visitedSet : list nat)
  (acc : list Step) : Outcome (list Step) :=
  match queue with
  | [] => Done (acc ++ [mkStep (Completed bfs) [] visitedSet [] NoAux])
  | current :: queue1 =>
      match fuel with
      | O => OutOfFuel
      | S fuel' =>
          currentRef <- must (find_node s current) ;;
          let shown := label_or_id (node_of s currentRef) in
          let acc1 := acc ++ [mkStep (Visiting shown) queue1 visitedSet [] NoAux] in
          let neighbors := neighbors_of s current in
          let acc2 :=
            acc1 ++ [mkStep (NeighborsOf shown (map a_node neighbors))
                       queue1 visitedSet [] NoAux] in
          let '(queue2, visited2, acc3) :=
            bfs_neighbors neighbors queue1 visitedSet acc2 in
          bfs_loop fuel' s queue2 visited2 acc3
      end
  end.

Definition prepareBFS (fuel : nat) (s : State) : Outcome (list Step) :=
  startRef <- must (startNode s) ;;
  let start := node_of s startRef in
  let queue := [n_id start] in
  let visitedSet := [n_id start] in
  bfs_loop fuel s queue visitedSet
    [mkStep (StartingBFS (label_or_id start)) queue visitedSet [] NoAux].

(** *** Depth-first search *)

(** [stack.pop()]: the last element and what is left. *)
Definition pop (stack : list nat) : option (nat * list nat) :=
  match rev stack with
  | [] => None
  | top :: below => Some (top, rev below)
  end.

Fixpoint dfs_loop (fuel : nat) (s : State) (stack visitedSet : list nat)
  (acc : list Step) : Outcome (list Step) :=
  match pop stack with
  | None => Done (acc ++ [mkStep (Completed dfs) [] visitedSet [] NoAux])
  | Some (current, stack1) =>
      match fuel with
      | O => OutOfFuel
      | S fuel' =>
          if includes visitedSet current
          then dfs_loop fuel' s stack1 visitedSet
                 (acc ++ [mkStep (Skipping current) stack1 visitedSet [] NoAux])
          else
            let visited1 := visitedSet ++ [current] in
            currentRef <- must (find_node s current) ;;
            let shown := label_or_id (node_of s currentRef) in
            let acc1 := acc ++ [mkStep (Visiting shown) stack1 visited1 [] NoAux] in
            let unvisitedNeighbors :=
              filter (fun n => negb (includes visited1 (a_node n)))
                (neighbors_of s current) in
            match unvisitedNeighbors with
            | [] => dfs_loop fuel' s stack1 visited1 acc1
            | _ :: _ =>
                let neighborIds := map a_node unvisitedNeighbors in
                let acc2 :=
                  acc1 ++ [mkStep (AddingUnvisited neighborIds) stack1 visited1 [] NoAux] in
                dfs_loop fuel' s (stack1 ++ rev neighborIds) visited1 acc2
            end
      end
  end.

Definition prepareDFS (fuel : nat) (s : State) : Outcome (list Step) :=
  startRef <- must (startNode s) ;;
  let start := node_of s startRef in
  let stack := [n_id start] in
  dfs_loop fuel s stack []
    [mkStep (StartingDFS (label_or_id start)) stack [] [] NoAux].

(** *** Dijkstra *)

Definition DistMap := JsMap.t Num.num.
Definition PrevMap := JsMap.t (option nat).

(** [Object.fromEntries(dist)] *)
Definition fromEntries (dist : DistMap) : JsObj.t Num.num :=
  fold_left (fun o kv => JsObj.set o (fst kv) (snd kv)) dist [].

(** [dist.get(k) < Infinity] *)
Definition dist_finite (dist : DistMap) (k : nat) : bool :=
  Num.ltb_undef (JsMap.get dist k) (Some Num.Infinity).

(** [Array.from(dist.keys()).filter(k => !queue.includes(k) && dist.get(k) < Infinity)] *)
Definition dijkstra_visited (dist : DistMap) (queue : list nat) : list nat :=
  filter (fun k => negb (includes queue k) && dist_finite dist k)
    (JsMap.keys dist).

(** One round of the scan for the node with the smallest distance. *)
Definition min_step (dist : DistMap) (minNode : option nat) (nodeId : nat)
  : option nat :=
  match minNode with
  | None => Some nodeId
  | Some m =>
      if Num.ltb_undef (JsMap.get dist nodeId) (JsMap.get dist m)
      then Some nodeId else Some m
  end.

Definition find_min (dist : DistMap) (queue : list nat) : option nat :=
  fold_left (min_step dist) queue None.

(** The walk back along [prev]: [while (current !== null)].  A key missing
    from [prev] reads as [undefined], which is not [null]: the loop never
    ends. *)
Fixpoint walk_prev (fuel : nat) (prev : PrevMap) (current : option nat)
  (path : list nat) : Outcome (list nat) :=
  match current with
  | None => Done path
  | Some k =>
      match fuel with
      | O => OutOfFuel
      | S fuel' =>
          match JsMap.get prev k with
          | Some next => walk_prev fuel' prev next (k :: path)
          | None => OutOfFuel
          end
      end
  end.

(** The loop over the neighbours of [minNode]. *)
Fixpoint relax (minNode : nat) (neighbors : list AdjEntry) (queue : list nat)
  (dist : DistMap) (prev : PrevMap) (acc : list Step)
  : DistMap * PrevMap * list Step :=
  match neighbors with
  | [] => (dist, prev, acc)
  | neighbor :: rest =>
      if includes queue (a_node neighbor)
      then
        match JsMap.get dist minNode, JsMap.get dist (a_node neighbor) with
        | Some d, Some dn =>
            let alt := Num.add d (a_weight neighbor) in
            if Num.ltb alt dn
            then
              let dist1 := JsMap.set dist (a_node neighbor) alt in
              let prev1 := JsMap.set prev (a_node neighbor) (Some minNode) in
              relax minNode rest queue dist1 prev1
                (acc ++ [mkStep (UpdatedDistance (a_node neighbor) alt) queue
                           (dijkstra_visited dist1 queue) []
                           (DistAux (fromEntries dist1))])
            else relax minNode rest queue dist prev acc
        | _, _ =>
            (* a comparison with [undefined] is false *)
            relax minNode rest queue dist prev acc
        end
      else relax minNode rest queue dist prev acc
  end.

Fixpoint dijkstra_loop (fuel : nat) (s : State) (goal : option ref)
  (queue : list nat) (dist : DistMap) (prev : PrevMap) (acc : list Step)
  : Outcome (DistMap * list Step) :=
  match queue with
  | [] => Done (dist, acc)
  | _ :: _ =>
      match fuel with
      | O => OutOfFuel
      | S fuel' =>
          (* the queue is not empty: the scan finds a node *)
          minNode <- must (find_min dist queue) ;;
          let queue1 := splice_indexOf queue minNode in
          currentRef <- must (find_node s minNode) ;;
          let acc1 :=
            acc ++ [mkStep (VisitingWithDistance (label_or_id (node_of s currentRef))
                              (JsMap.get dist minNode))
                      queue1 (dijkstra_visited dist queue1) []
                      (DistAux (fromEntries dist))] in
          goalRef <- must goal ;;
          if Nat.eqb minNode (n_id (node_of s goalRef))
          then
            p <- walk_prev fuel' prev (Some minNode) [] ;;
            Done (dist,
                  acc1 ++ [mkStep (FoundShortestPath (JsMap.get dist minNode))
                             queue1 (dijkstra_visited dist queue1) p
                             (DistAux (fromEntries dist))])
          else
            let '(dist1, prev1, acc2) :=
              relax minNode (neighbors_of s minNode) queue1 dist prev acc1 in
            dijkstra_loop fuel' s goal queue1 dist1 prev1 acc2
      end
  end.

(** The initialisation loop over [state.nodes]. *)
Definition dijkstra_init (startId : nat) (ids : list nat)
  : DistMap * PrevMap * list nat :=
  fold_left
    (fun st id =>
       let '(dist, prev, queue) := st in
       (JsMap.set dist id (if Nat.eqb id startId then Num.Fin 0 else Num.Infinity),
        JsMap.set prev id None,
        queue ++ [id]))
    ids ([], [], []).

Definition prepareDijkstra (fuel : nat) (s : State) : Outcome (list Step) :=
  startRef <- must (startNode s) ;;
  let start := node_of s startRef in
  let '(dist, prev, queue) := dijkstra_init (n_id start) (node_ids s) in
  let acc :=
    [mkStep (StartingDijkstra (label_or_id start)) queue [] []
       (DistAux (fromEntries dist))] in
  r <- dijkstra_loop fuel s (goalNode s) queue dist prev acc ;;
  let '(dist1, acc1) := r in
  Done (acc1 ++ [mkStep (Completed dijkstra) []
                   (filter (dist_finite dist1) (JsMap.keys dist1)) []
                   (DistAux (fromEntries dist1))]).

(** *** A-star *)

Definition fzero : fnum := FFin (0%Z, 1%positive).

(** [a < b] on scores *)
Definition fltb (a b : fnum) : bool :=
  match a, b with
  | FNaN, _ | _, FNaN => false
  | FFin (n1, d1), FFin (n2, d2) => (n1 * Z.pos d2 <? n2 * Z.pos d1)%Z
  | FFin _, FInf => true
  | FFin _, FNegInf => false
  | FInf, _ => false
  | FNegInf, FNegInf => false
  | FNegInf, _ => true
  end.

Definition fltb_undef (a b : option fnum) : bool :=
  match a, b with
  | Some x, Some y => fltb x y
  | _, _ => false
  end.

Definition GScore := JsObj.t Num.num.
Definition FScore := JsObj.t fnum.
Definition CameFrom := JsObj.t nat.

(** [Object.keys(gScore).filter(k => gScore[k] < Infinity).map(Number)] *)
Definition astar_visited (gScore : GScore) : list nat :=
  filter (fun k => Num.ltb_undef (JsObj.get gScore k) (Some Num.Infinity))
    (JsObj.keys gScore).

(** The scan of [openSet] for the lowest [fScore], from [openSet[0]] on. *)
Definition lowest_f (fScore : FScore) (openSet : list nat) (first : nat) : nat :=
  fold_left
    (fun current nodeId =>
       if fltb_undef (JsObj.get fScore nodeId) (JsObj.get fScore current)
       then nodeId else current)
    openSet first.

(** The walk back along [cameFrom]:
    [while (cameFrom[current] !== undefined)]. *)
Fixpoint walk_cameFrom (fuel : nat) (cameFrom : CameFrom) (current : nat)
  (path : list nat) : Outcome (list nat) :=
  match JsObj.get cameFrom current with
  | None => Done path
  | Some next =>
      match fuel with
      | O => OutOfFuel
      | S fuel' => walk_cameFrom fuel' cameFrom next (next :: path)
      end
  end.

Section Heuristic.

(** The floating-point operations are taken as given: [euclid n g] is
    [Math.sqrt(Math.pow(n.x - g.x, 2) + Math.pow(n.y - g.y, 2)) / 50] and
    [fadd g h] is the sum of an integer and a score. *)
Variable euclid : NodeObj -> NodeObj -> fnum.
Variable fadd : Z -> fnum -> fnum.

Definition heuristic (s : State) (nodeId : nat) : fnum :=
  match find_node s nodeId, goalNode s with
  | Some r, Some g => euclid (node_of s r) (node_of s g)
  | _, _ => fzero
  end.

Definition fplus (g : Num.num) (h : fnum) : fnum :=
  match g with
  | Num.Fin z => fadd z h
  | Num.Infinity =>
      match h with FNegInf | FNaN => FNaN | _ => FInf end
  | Num.NegInfinity =>
      match h with FInf | FNaN => FNaN | _ => FNegInf end
  end.

(** The loop over the neighbours of [current]; [visitedNodes] was computed
    before the loop. *)
Fixpoint astar_neighbors (s : State) (current : nat) (neighbors : list AdjEntry)
  (visitedNodes : list nat) (openSet : list nat)
  (gScore : GScore) (fScore : FScore) (cameFrom : CameFrom) (acc : list Step)
  : list nat * GScore * FScore * CameFrom * list Step :=
  match neighbors with
  | [] => (openSet, gScore, fScore, cameFrom, acc)
  | neighbor :: rest =>
      let n := a_node neighbor in
      match JsObj.get gScore current, JsObj.get gScore n with
      | Some gc, Some gn =>
          let tentativeGScore := Num.add gc (a_weight neighbor) in
          if Num.ltb tentativeGScore gn
          then
            let cameFrom1 := JsObj.set cameFrom n current in
            let gScore1 := JsObj.set gScore n tentativeGScore in
            let f := fplus tentativeGScore (heuristic s n) in
            let fScore1 := JsObj.set fScore n f in
            let openSet1 := if includes openSet n then openSet else openSet ++ [n] in
            astar_neighbors s current rest visitedNodes openSet1
              gScore1 fScore1 cameFrom1
              (acc ++ [mkStep (UpdatedScores n tentativeGScore f) openSet1
                         visitedNodes [] (ScoreAux gScore1 fScore1)])
          else
            astar_neighbors s current rest visitedNodes openSet
              gScore fScore cameFrom acc
      | _, _ =>
          (* a comparison with [undefined] is false *)
          astar_neighbors s current rest visitedNodes openSet
            gScore fScore cameFrom acc
      end
  end.

Fixpoint astar_loop (fuel : nat) (s : State) (openSet : list nat)
  (gScore : GScore) (fScore : FScore) (cameFrom : CameFrom) (acc : list Step)
  : Outcome (GScore * FScore * list Step) :=
  match openSet with
  | [] => Done (gScore, fScore, acc)
  | first :: _ =>
      match fuel with
      | O => OutOfFuel
      | S fuel' =>
          let current := lowest_f fScore openSet first in
          goalRef <- must (goalNode s) ;;
          let goalId := n_id (node_of s goalRef) in
          if Nat.eqb current goalId
          then
            p <- walk_cameFrom fuel' cameFrom current [current] ;;
            Done (gScore, fScore,
                  acc ++ [mkStep (FoundPath (JsObj.get gScore goalId)) openSet
                            (astar_visited gScore) p (ScoreAux gScore fScore)])
          else
            let openSet1 := splice_indexOf openSet current in
            let visitedNodes := astar_visited gScore in
            f <- must (JsObj.get fScore current) ;;
            let acc1 :=
              acc ++ [mkStep (VisitingWithFScore current f) openSet1
                        visitedNodes [] (ScoreAux gScore fScore)] in
            let '(openSet2, gScore2, fScore2, cameFrom2, acc2) :=
              astar_neighbors s current (neighbors_of s current) visitedNodes
                openSet1 gScore fScore cameFrom acc1 in
            astar_loop fuel' s openSet2 gScore2 fScore2 cameFrom2 acc2
      end
  end.

(** The initialisation loop over [state.nodes]. *)
Definition astar_init (s : State) (startId : nat) : GScore * FScore :=
  fold_left
    (fun st id =>
       let '(gScore, fScore) := st in
       (JsObj.set gScore id (if Nat.eqb id startId then Num.Fin 0 else Num.Infinity),
        JsObj.set fScore id (if Nat.eqb id startId then heuristic s startId else FInf)))
    (node_ids s) ([], []).

Definition prepareAStar (fuel : nat) (s : State) : Outcome (list Step) :=
  startRef <- must (startNode s) ;;
  let start := node_of s startRef in
  let openSet := [n_id start] in
  let '(gScore, fScore) := astar_init s (n_id start) in
  let acc :=
    [mkStep (StartingAStar (label_or_id start)) openSet [] []
       (ScoreAux gScore fScore)] in
  r <- astar_loop fuel s openSet gScore fScore [] acc ;;
  let '(gScore1, fScore1, acc1) := r in
  Done (acc1 ++ [mkStep (Completed astar) [] (astar_visited gScore1) []
                   (ScoreAux gScore1 fScore1)]).

End Heuristic.

(** *** The algorithms left as a single step *)

Definition prepareStub (a : Algo) : list Step :=
  [mkStep (NotImplemented a) [] [] [] NoAux].

End Trace.

(** ** Playback controller *)

(** The loop bodies of [showStep] that colour the nodes named by a step:
    [node && node !== state.startNode && node !== state.goalNode]. *)
Definition color_nodes (c : Color) (ids : list nat) (s : State) : State :=
  fold_left
    (fun st nodeId =>
       match find_node st nodeId with
       | Some r =>
           if negb (same_ref (startNode st) r) && negb (same_ref (goalNode st) r)
           then with_heap (mutate (heap st) r (set_n_color (Some c))) st
           else st
       | None => st
       end)
    ids s.

(** Position of the first element that satisfies [p], as [find] sees it. *)
Fixpoint find_index (A : Type) (p : A -> bool) (a : list A) : option nat :=
  match a with
  | [] => None
  | x :: a' =>
      if p x then Some 0
      else match find_index p a' with
           | Some i => Some (S i)
           | None => None
           end
  end.

(** The loop of [showStep] over consecutive path nodes. *)
Fixpoint color_path_edges (p : list nat) (es : list Edge) : list Edge :=
  match p with
  | from :: ((to :: _) as rest) =>
      let es1 :=
        match find_index
                (fun e => (Nat.eqb (e_from e) from && Nat.eqb (e_to e) to)
                          || (Nat.eqb (e_from e) to && Nat.eqb (e_to e) from)) es with
        | Some i => update_at i (set_e_color (Some ACTIVE_EDGE)) es
        | None => es
        end in
      color_path_edges rest es1
  | _ => es
  end.

(** [showStep(index)]: the highlight projection of a step. *)
Definition showStep (index : nat) (s : State) : State :=
  match nth_error (steps s) index with
  | None => s
  | Some step =>
      let s1 := with_stepIndex index s in
      let s2 := reset_colors s1 in
      let s3 := color_nodes VISITED (visited step) s2 in
      let s4 := color_nodes VISITING (ds step) s3 in
      match path step with
      | [] => s4
      | _ :: _ =>
          let s5 := color_nodes PATH (path step) s4 in
          with_edges (color_path_edges (path step) (edges s5)) s5
      end
  end.

(** The branch [prepareAlgo] ended in. *)
Inductive RunResult : Type :=
| Prepared
| MissingStart
| MissingGoal.

Definition needs_goal (a : Algo) : bool :=
  match a with
  | astar | dijkstra | bellman_ford => true
  | _ => false
  end.

Section Playback.

Variable euclid : NodeObj -> NodeObj -> fnum.
Variable fadd : Z -> fnum -> fnum.

(** The [switch] of [prepareAlgo]. *)
Definition generate (fuel : nat) (s : State) : Outcome (list Step) :=
  match currentAlgo s with
  | bfs => Trace.prepareBFS fuel s
  | dfs => Trace.prepareDFS fuel s
  | dijkstra => Trace.prepareDijkstra fuel s
  | astar => Trace.prepareAStar euclid fadd fuel s
  | a => Done (Trace.prepareStub a)
  end.

Definition prepareAlgo (fuel : nat) (s : State) : Outcome (State * RunResult) :=
  match startNode s with
  | None => Done (s, MissingStart)
  | Some _ =>
      if needs_goal (currentAlgo s)
         && match goalNode s with None => true | Some _ => false end
      then Done (s, MissingGoal)
      else
        trace <- generate fuel s ;;
        let s1 := with_stepIndex 0 (with_steps trace s) in
        Done (match steps s1 with
              | [] => s1
              | _ :: _ => showStep 0 s1
              end, Prepared)
  end.

(** [if (state.steps.length === 0) prepareAlgo();] *)
Definition prepare_if_empty (fuel : nat) (s : State) : Outcome State :=
  match steps s with
  | [] => r <- prepareAlgo fuel s ;; Done (fst r)
  | _ :: _ => Done s
  end.

(** [if (state.stepIndex < state.steps.length - 1) showStep(state.stepIndex + 1);] *)
Definition advance (s : State) : State :=
  if S (stepIndex s) <? List.length (steps s)
  then showStep (stepIndex s + 1) s
  else s.

Definition nextStep (fuel : nat) (s : State) : Outcome State :=
  s1 <- prepare_if_empty fuel s ;;
  Done (advance s1).

Definition prevStep (s : State) : State :=
  if (0 <? List.length (steps s)) && (0 <? stepIndex s)
  then showStep (stepIndex s - 1) s
  else s.

(** [play]: the handle of a running timer is replaced by a fresh one. *)
Definition play (fuel : nat) (s : State) : Outcome State :=
  s1 <- prepare_if_empty fuel s ;;
  let handle := S (lastTimer s1) in
  Done (with_intervalId (Some handle) (with_lastTimer handle s1)).

(** The callback [play] hands to [setInterval]; it runs only while the timer
    is set. *)
Definition tick (s : State) : State :=
  match intervalId s with
  | None => s
  | Some _ =>
      if S (stepIndex s) <? List.length (steps s)
      then showStep (stepIndex s + 1) s
      else with_intervalId None s
  end.

Definition pause (s : State) : State :=
  match intervalId s with
  | Some _ => with_intervalId None s
  | None => s
  end.

Definition togglePlayPause (fuel : nat) (s : State) : Outcome State :=
  match intervalId s with
  | Some _ => Done (pause s)
  | None => play fuel s
  end.

(** The handler of the speed slider. *)
Definition speedChanged (fuel : nat) (s : State) : Outcome State :=
  match intervalId s with
  | Some _ => play fuel (pause s)
  | None => Done s
  end.

(** The handler of the algorithm selector. *)
Definition selectAlgo (a : Algo) (s : State) : State :=
  with_currentAlgo a s.

End Playback.

(** ** Sessions *)

(** [undo] applied [k] times. *)
Fixpoint undo_n (k : nat) (s : State) : Outcome State :=
  match k with
  | O => Done s
  | S k' => s1 <- undo s ;; undo_n k' s1
  end.

(** [edits n s s']: [s'] is reached from [s] by [n] graph edits.  An edit
    changes the graph in some way that leaves the history alone and then
    calls [saveState] once, as [addNode], [deleteNode], [deleteEdge], the
    rename, [setStartNode], [setGoalNode] and the successful branches of
    [addEdge] and of the weight edit do. *)
Inductive edits : nat -> State -> State -> Prop :=
| edits_none s : edits 0 s s
| edits_more n s s1 s2 :
    edits n s s1 ->
    history s2 = history s1 ->
    historyIndex s2 = historyIndex s1 ->
    edits (S n) s (saveState s2).

(** [f] applied [n] times. *)
Fixpoint iter_op (n : nat) (f : State -> State) (s : State) : State :=
  match n with
  | O => s
  | S n' => f (iter_op n' f s)
  end.

(** Number of entries for [v] in the adjacency list of [u]. *)
Definition entries_to (s : State) (u v : nat) : nat :=
  List.length (filter (fun n => Nat.eqb (a_node n) v) (Trace.neighbors_of s u)).

(** ** Reachability in the adjacency index *)

(** [reach s u v]: [v] is reached from [u] along adjacency entries.  In an
    undirected graph this is the connected component of [u]. *)
Inductive reach (s : State) (u : nat) : nat -> Prop :=
| reach_here : reach s u u
| reach_next v e :
    reach s u v -> In e (Trace.neighbors_of s v) -> reach s u (a_node e).

(** Every adjacency entry names a node of the store. *)
Definition adj_closed (s : State) : bool :=
  forallb
    (fun kv => forallb (fun e => includes (node_ids s) (a_node e)) (snd kv))
    (adj s).

(** Every adjacency entry has a positive weight. *)
Definition positive_weights (s : State) : bool :=
  forallb (fun kv => forallb (fun e => (0 <? a_weight e)%Z) (snd kv)) (adj s).

(** The cursor sits on the last of [n] snapshots. *)
Definition at_end (n : nat) (s : State) : Prop :=
  List.length (history s) = n /\ historyIndex s = (Z.of_nat n - 1)%Z.

(** *** Sessions used below *)

Definition ask (w : string) : WeightSource := Prompted (Some w).

(** Three nodes are created: objects 0, 1, 2 with ids 0, 1, 2. *)
Definition three_nodes : State :=
  addNode 0 0 (addNode 0 0 (addNode 0 0 initial_state)).

(** Two nodes are created, the first one is deleted, a third is created. *)
Definition reuse_session : State :=
  addNode 0 0 (deleteNode 0 (addNode 0 0 (addNode 0 0 initial_state))).

(** Three nodes, the edge 1-2 of weight 5, node 0 deleted, a node created. *)
Definition wiped_session : State :=
  addNode 0 0 (deleteNode 0 (fst (addEdge 1 2 (ask "5") three_nodes))).

(** Three nodes, node 0 deleted, a node created (object 3, id 2 again), the
    older node of id 2 (object 2) made the start, the newer one deleted. *)
Definition dangling_session : State :=
  deleteNode 3 (setStartNode 2 (addNode 0 0 (deleteNode 0 three_nodes))).

(** A start node is set, then a document without a start is imported. *)
Definition import_session : State :=
  importGraph (mkDoc [(7, "a"%string, 0%Z, 0%Z)] [] false None None)
    (setStartNode 0 three_nodes).

(** Three nodes and the edge 0-1 of weight 5. *)
Definition one_edge : State := fst (addEdge 0 1 (ask "5") three_nodes).

(** The triangle of the shortest-path scenario: edges 0-1 of weight 4, 0-2
    of weight 1 and 1-2 of weight 1, undirected, start 0 and goal 1. *)
Definition triangle : State :=
  let g1 := fst (addEdge 0 1 (ask "4") three_nodes) in
  let g2 := fst (addEdge 0 2 (ask "1") g1) in
  let g3 := fst (addEdge 1 2 (ask "1") g2) in
  selectAlgo dijkstra (setGoalNode 1 (setStartNode 0 g3)).

(** Two nodes of a fresh session joined by one undirected edge. *)
Definition two_nodes : State := addNode 0 0 (addNode 0 0 initial_state).

(** Three nodes, the edge 0-1, start 0 and goal 2: the goal is cut off. *)
Definition cut_off : State :=
  setGoalNode 2 (setStartNode 0 (fst (addEdge 0 1 (ask "3") three_nodes))).

(** An instance of the floating-point operations for sessions that are run:
    exact rational addition and a heuristic that is 0 everywhere.  The
    sessions below run breadth-first search, which reads neither. *)
Definition exact_fadd (g : Z) (h : fnum) : fnum :=
  match h with
  | FFin (n, d) => FFin ((g * Z.pos d + n)%Z, d)
  | other => other
  end.

Definition no_heuristic (n g : NodeObj) : fnum := Trace.fzero.

(** What a run ended with, or the state it started from when it threw. *)
Definition result_or (s0 : State) (o : Outcome State) : State :=
  match o with
  | Done s => s
  | _ => s0
  end.

(** Two nodes, the edge 0-1, start 0, and three presses of "next": the
    breadth-first trace is generated and shown up to the step that discovers
    node 1. *)
Definition highlighted : State :=
  let g := setStartNode 0 (fst (addEdge 0 1 (ask "1") two_nodes)) in
  result_or g
    (s1 <- nextStep no_heuristic exact_fadd 5 g ;;
     s2 <- nextStep no_heuristic exact_fadd 5 s1 ;;
     nextStep no_heuristic exact_fadd 5 s2).

(** After the highlighted state: a node is created (an edit), the
    visualization is reset, then undo and redo. *)
Definition replayed : State :=
  let s1 := resetVisualization (addNode 0 0 highlighted) in
  result_or s1 (s2 <- undo s1 ;; redo s2).

(** "Play" is pressed before a start node is chosen; the start is chosen
    next and "next" is pressed. *)
Definition early_play : State :=
  result_or one_edge (play no_heuristic exact_fadd 5 one_edge).

Definition run_under_timer : State :=
  result_or early_play
    (nextStep no_heuristic exact_fadd 5 (setStartNode 0 early_play)).

(** ** Colour-blind view of the graph *)

Definition strip_node (n : NodeObj) : NodeObj := set_n_color None n.
Definition strip_edge (e : Edge) : Edge := set_e_color None e.

Definition strip_snapshot (sn : Snapshot) : Snapshot :=
  mkSnapshot (map strip_node (h_nodes sn)) (map strip_edge (h_edges sn))
    (h_startNode sn) (h_goalNode sn).

(** Two states that differ at most in the [color] fields of their node and
    edge objects. *)
Definition differ_only_in_colors (s1 s2 : State) : Prop :=
  map strip_node (heap s1) = map strip_node (heap s2)
  /\ map strip_edge (edges s1) = map strip_edge (edges s2)
  /\ nodes s1 = nodes s2
  /\ adj s1 = adj s2
  /\ startNode s1 = startNode s2
  /\ goalNode s1 = goalNode s2
  /\ steps s1 = steps s2
  /\ stepIndex s1 = stepIndex s2
  /\ intervalId s1 = intervalId s2
  /\ currentAlgo s1 = currentAlgo s2
  /\ history s1 = history s2
  /\ historyIndex s1 = historyIndex s2
  /\ selectedNodes s1 = selectedNodes s2
  /\ searchResults s1 = searchResults s2
  /\ directed s1 = directed s2
  /\ lastTimer s1 = lastTimer s2.

(** ** Exporting *)

(** What [exportGraph] writes of a node object. *)
Definition node_entry (n : NodeObj) : nat * string * Z * Z :=
  (n_id n, n_label n, n_x n, n_y n).


(** ** Connected components, as [updateStats] counts them *)

(** The loop of [findConnectedComponents] over the neighbours of a node:
    the ones not seen yet are added to [visited] and to the queue. *)
Fixpoint cc_neighbors (neighbors : list AdjEntry) (visitedSet queue : list nat)
  : list nat * list nat :=
  match neighbors with
  | [] => (visitedSet, queue)
  | neighbor :: rest =>
      if includes visitedSet (a_node neighbor)
      then cc_neighbors rest visitedSet queue
      else cc_neighbors rest (visitedSet ++ [a_node neighbor])
             (queue ++ [a_node neighbor])
  end.

(** The [while] loop, which collects one component. *)
Fixpoint cc_component (fuel : nat) (s : State)
  (queue visitedSet component : list nat) : Outcome (list nat * list nat) :=
  match queue with
  | [] => Done (visitedSet, component)
  | current :: queue1 =>
      match fuel with
      | O => OutOfFuel
      | S fuel' =>
          let component1 := component ++ [current] in
          let '(visited1, queue2) :=
            cc_neighbors (Trace.neighbors_of s current) visitedSet queue1 in
          cc_component fuel' s queue2 visited1 component1
      end
  end.

(** The [for] loop over [state.nodes]; [fuel] bounds each [while] loop. *)
Fixpoint cc_nodes (fuel : nat) (s : State) (ids visitedSet : list nat)
  (components : list (list nat)) : Outcome (list (list nat)) :=
  match ids with
  | [] => Done components
  | id :: rest =>
      if includes visitedSet id
      then cc_nodes fuel s rest visitedSet components
      else
        r <- cc_component fuel s [id] (visitedSet ++ [id]) [] ;;
        let '(visited1, component) := r in
        cc_nodes fuel s rest visited1 (components ++ [component])
  end.

(** [findConnectedComponents] *)
Definition findConnectedComponents (fuel : nat) (s : State)
  : Outcome (list (list nat)) :=
  cc_nodes fuel s (node_ids s) [] [].

(** * Part II: properties *)

(** ** Maps and objects *)

Section MapFacts.
Variable V : Type.
Implicit Types (m : JsMap.t V) (o : JsObj.t V).

Lemma map_get_set m k v k2 :
  JsMap.get (JsMap.set m k v) k2 = if Nat.eqb k k2 then Some v else JsMap.get m k2.
Proof.
  induction m as [|[k' v'] m IH]; simpl.
  - reflexivity.
  - destruct (Nat.eqb_spec k' k) as [->|Hk]; simpl.
    + destruct (Nat.eqb k k2); reflexivity.
    + rewrite IH. destruct (Nat.eqb_spec k' k2) as [->|Hk2]; [|reflexivity].
      destruct (Nat.eqb_spec k k2); [congruence | reflexivity].
Qed.

Lemma map_keys_set m k v x :
  In x (JsMap.keys (JsMap.set m k v)) <-> x = k \/ In x (JsMap.keys m).
Proof.
  induction m as [|[k' v'] m IH]; simpl.
  - intuition.
  - destruct (Nat.eqb_spec k' k) as [->|Hk]; simpl.
    + intuition.
    + rewrite IH. intuition.
Qed.

Lemma map_get_in_keys m k : In k (JsMap.keys m) <-> JsMap.get m k <> None.
Proof.
  induction m as [|[k' v'] m IH]; simpl.
  - intuition.
  - destruct (Nat.eqb_spec k' k) as [->|Hk].
    + split; [discriminate | auto].
    + rewrite <- IH. intuition.
Qed.

Lemma obj_get_set o k v k2 :
  JsObj.get (JsObj.set o k v) k2 = if Nat.eqb k k2 then Some v else JsObj.get o k2.
Proof.
  induction o as [|[k' v'] o IH]; simpl.
  - reflexivity.
  - destruct (Nat.ltb k k'); simpl; [reflexivity|].
    destruct (Nat.eqb_spec k' k) as [->|Hk]; simpl.
    + destruct (Nat.eqb k k2); reflexivity.
    + rewrite IH. destruct (Nat.eqb_spec k' k2) as [->|Hk2]; [|reflexivity].
      destruct (Nat.eqb_spec k k2); [congruence | reflexivity].
Qed.

Lemma obj_keys_set o k v x :
  In x (JsObj.keys (JsObj.set o k v)) <-> x = k \/ In x (JsObj.keys o).
Proof.
  induction o as [|[k' v'] o IH]; simpl.
  - intuition.
  - destruct (Nat.ltb k k'); simpl; [intuition|].
    destruct (Nat.eqb_spec k' k) as [->|Hk]; simpl.
    + intuition.
    + rewrite IH. intuition.
Qed.

Lemma obj_get_in_keys o k : In k (JsObj.keys o) <-> JsObj.get o k <> None.
Proof.
  induction o as [|[k' v'] o IH]; simpl.
  - intuition.
  - destruct (Nat.eqb_spec k' k) as [->|Hk].
    + split; [discriminate | auto].
    + rewrite <- IH. intuition.
Qed.

End MapFacts.

Lemma includes_In a k : includes a k = true <-> In k a.
Proof.
  unfold includes. rewrite existsb_exists. split.
  - intros [x [Hx Hk]]. apply Nat.eqb_eq in Hk. now subst.
  - intros H. exists k. split; [assumption | apply Nat.eqb_refl].
Qed.

(** ** Edit history *)

Lemma saveState_at_end n s :
  at_end n s -> n <= 50 -> at_end (Nat.min 50 (S n)) (saveState s).
Proof.
  intros [Hlen Hidx] Hn. unfold saveState.
  rewrite Hidx, Hlen, Z.ltb_irrefl.
  set (snap := stateCopy s).
  assert (Hl1 : List.length (history s ++ [snap]) = S n)
    by (rewrite length_app, Hlen; simpl; lia).
  rewrite Hl1.
  destruct (50 <? Z.of_nat (S n))%Z eqn:Hcap.
  - apply Z.ltb_lt in Hcap.
    assert (Htl : List.length (tl (history s ++ [snap])) = n).
    { destruct (history s ++ [snap]); simpl in *; lia. }
    unfold at_end. cbn [history historyIndex with_history with_historyIndex].
    rewrite Htl. split; lia.
  - apply Z.ltb_ge in Hcap.
    unfold at_end. cbn [history historyIndex with_history with_historyIndex].
    rewrite Hl1. split; lia.
Qed.

Lemma edits_at_end n s s' k :
  edits n s s' -> at_end k s -> k <= 50 -> at_end (Nat.min 50 (k + n)) s'.
Proof.
  induction 1 as [s | n s s1 s2 Hed IH Hh Hi]; intros Hend Hk.
  - replace (Nat.min 50 (k + 0)) with k by lia. assumption.
  - specialize (IH Hend Hk).
    assert (Hend2 : at_end (Nat.min 50 (k + n)) s2).
    { destruct IH as [A B]. split; congruence. }
    apply saveState_at_end in Hend2; [|lia].
    replace (Nat.min 50 (k + S n)) with (Nat.min 50 (S (Nat.min 50 (k + n)))) by lia.
    assumption.
Qed.

(** [saveState] writes [history] and [historyIndex] and nothing else. *)
Lemma saveState_shape s :
  exists h i, saveState s = with_historyIndex i (with_history h s).
Proof.
  unfold saveState. cbv zeta.
  destruct (50 <? _)%Z; eexists _, _; reflexivity.
Qed.

Ltac save_shape :=
  repeat match goal with
    | |- context [saveState ?s] =>
        let h := fresh "h" in
        let i := fresh "i" in
        let E := fresh "E" in
        destruct (saveState_shape s) as [h [i E]]; rewrite E; clear E
    end.

Ltac fields :=
  cbn [heap nodes edges adj startNode goalNode steps stepIndex intervalId
       currentAlgo history historyIndex selectedNodes searchResults directed
       lastTimer with_heap with_nodes with_edges with_adj with_startNode
       with_goalNode with_steps with_stepIndex with_intervalId with_currentAlgo
       with_history with_historyIndex with_selectedNodes with_searchResults
       with_directed with_lastTimer] in *.

Lemma restoreState_keeps_history s :
  (0 <= historyIndex s < Z.of_nat (List.length (history s)))%Z ->
  exists s', restoreState s = Done s'
             /\ history s' = history s /\ historyIndex s' = historyIndex s.
Proof.
  intros [Hlo Hhi]. unfold restoreState.
  destruct (historyIndex s <? 0)%Z eqn:Hneg; [apply Z.ltb_lt in Hneg; lia|].
  destruct (nth_error (history s) (Z.to_nat (historyIndex s))) as [snap|] eqn:Hnth.
  - simpl. destruct (alloc_all (heap s) (h_nodes snap)) as [h1 rs].
    eexists. split; [reflexivity|]. split; reflexivity.
  - apply nth_error_None in Hnth. lia.
Qed.

Lemma undo_moves_cursor s :
  (0 < historyIndex s < Z.of_nat (List.length (history s)))%Z ->
  exists s', undo s = Done s'
             /\ history s' = history s
             /\ historyIndex s' = (historyIndex s - 1)%Z.
Proof.
  intros [Hlo Hhi]. unfold undo.
  destruct (0 <? historyIndex s)%Z eqn:Hpos; [|apply Z.ltb_ge in Hpos; lia].
  destruct (restoreState_keeps_history (with_historyIndex (historyIndex s - 1) s))
    as [s' [Hr [Hh Hi]]].
  - simpl. lia.
  - exists s'. repeat split; assumption.
Qed.

Lemma undo_at_first_is_noop s : (historyIndex s <= 0)%Z -> undo s = Done s.
Proof.
  intros H. unfold undo.
  destruct (0 <? historyIndex s)%Z eqn:Hpos; [apply Z.ltb_lt in Hpos; lia|].
  reflexivity.
Qed.

Lemma undo_n_moves_cursor k : forall s,
  (Z.of_nat k <= historyIndex s < Z.of_nat (List.length (history s)))%Z ->
  exists s', undo_n k s = Done s'
             /\ history s' = history s
             /\ historyIndex s' = (historyIndex s - Z.of_nat k)%Z.
Proof.
  induction k as [|k IH]; intros s Hk.
  - exists s. simpl. repeat split. lia.
  - destruct (undo_moves_cursor s) as [s1 [Hu [Hh Hi]]]; [lia|].
    destruct (IH s1) as [s' [Hn [Hh' Hi']]]; [rewrite Hh, Hi; lia|].
    exists s'. simpl. rewrite Hu. simpl. rewrite Hn.
    repeat split; [congruence | lia].
Qed.

(** C7.  From a fresh session, after 60 edits (each pushes one snapshot, the
    oldest is evicted and the cursor steps back once the stack holds more
    than 50), the stack holds 50 snapshots with the cursor on the last;
    each of 49 successive [undo]s moves the cursor one down, to 0, and the
    next [undo] changes nothing. *)
Theorem undo_at_most_49_after_60_edits s :
  edits 60 initial_state s ->
  List.length (history s) = 50
  /\ historyIndex s = 49%Z
  /\ (forall k, k <= 49 ->
        exists s', undo_n k s = Done s'
                   /\ historyIndex s' = (49 - Z.of_nat k)%Z)
  /\ (exists s49, undo_n 49 s = Done s49 /\ undo s49 = Done s49).
Proof.
  intros Hed.
  assert (Hend : at_end 50 s).
  { apply (edits_at_end Hed (k := 0)); [split; reflexivity | lia]. }
  destruct Hend as [Hlen Hidx]. simpl in Hidx.
  split; [assumption|]. split; [assumption|]. split.
  - intros k Hk.
    destruct (undo_n_moves_cursor k s) as [s' [Hn [_ Hi]]]; [rewrite Hidx, Hlen; lia|].
    exists s'. split; [assumption | lia].
  - destruct (undo_n_moves_cursor 49 s) as [s' [Hn [_ Hi]]]; [rewrite Hidx, Hlen; lia|].
    exists s'. split; [assumption|].
    apply undo_at_first_is_noop. lia.
Qed.

Lemma addNode_is_edit n s s1 px py :
  edits n s s1 -> edits (S n) s (addNode px py s1).
Proof.
  intros H. unfold addNode, alloc.
  eapply edits_more; [exact H | reflexivity | reflexivity].
Qed.

Lemma deleteNode_is_edit n s s1 node :
  edits n s s1 -> edits (S n) s (deleteNode node s1).
Proof.
  intros H. unfold deleteNode.
  eapply edits_more; [exact H | |].
  - destruct (same_ref (startNode _) node); simpl;
      destruct (same_ref _ node); reflexivity.
  - destruct (same_ref (startNode _) node); simpl;
      destruct (same_ref _ node); reflexivity.
Qed.

Lemma addEdge_is_edit n s s1 s2 a b src :
  edits n s s1 -> addEdge a b src s1 = (s2, EdgeOk) -> edits (S n) s s2.
Proof.
  intros H Hadd. unfold addEdge in Hadd.
  destruct (read_weight src) as [w|r] eqn:Hw.
  - destruct (edgeExists s1 _ _); [discriminate|].
    injection Hadd as <-.
    eapply edits_more; [exact H | reflexivity | reflexivity].
  - injection Hadd as <- ->.
    destruct src as [d|[i|]]; simpl in Hw; try discriminate.
    destruct (parseInt i) as [w|]; [|discriminate].
    destruct (w <=? 0)%Z; discriminate.
Qed.

Lemma deleteEdge_is_edit n s s1 i :
  edits n s s1 -> edits (S n) s (deleteEdge i s1).
Proof.
  intros H. unfold deleteEdge.
  eapply edits_more; [exact H | reflexivity | reflexivity].
Qed.

Lemma editWeight_is_edit n s s1 s2 i newW :
  edits n s s1 -> editWeight i newW s1 = (s2, EdgeOk) -> edits (S n) s s2.
Proof.
  intros H Hw. unfold editWeight in Hw.
  destruct newW as [input|]; [|discriminate].
  destruct (parseInt input) as [w|]; [|discriminate].
  destruct (0 <? w)%Z; [|discriminate].
  injection Hw as <-.
  eapply edits_more; [exact H | reflexivity | reflexivity].
Qed.

Lemma renameNode_is_edit n s s1 clicked newLabel :
  edits n s s1 -> edits (S n) s (renameNode clicked newLabel s1).
Proof.
  intros H. unfold renameNode.
  eapply edits_more; [exact H | reflexivity | reflexivity].
Qed.

Lemma setStartNode_is_edit n s s1 node :
  edits n s s1 -> edits (S n) s (setStartNode node s1).
Proof.
  intros H. unfold setStartNode.
  eapply edits_more; [exact H | |]; destruct (startNode s1); reflexivity.
Qed.

Lemma setGoalNode_is_edit n s s1 node :
  edits n s s1 -> edits (S n) s (setGoalNode node s1).
Proof.
  intros H. unfold setGoalNode.
  eapply edits_more; [exact H | |]; destruct (goalNode s1); reflexivity.
Qed.

Lemma undo_at_most_49_after_60_edits_witness :
  let s := iter_op 60 (addNode 0 0) initial_state in
  edits 60 initial_state s
  /\ List.length (history s) = 50
  /\ historyIndex s = 49%Z
  /\ (forall k, k <= 49 ->
        exists s', undo_n k s = Done s'
                   /\ historyIndex s' = (49 - Z.of_nat k)%Z)
  /\ (exists s49, undo_n 49 s = Done s49 /\ undo s49 = Done s49).
Proof.
  intros s.
  assert (H : edits 60 initial_state s).
  { unfold s. do 60 (apply addNode_is_edit). apply edits_none. }
  split; [exact H|].
  exact (undo_at_most_49_after_60_edits H).
Defined.

(** ** Node identifiers *)

(** [addNode] takes the length of [state.nodes] as the new id. *)
Lemma addNode_ids px py s :
  (forall r, In r (nodes s) -> r < List.length (heap s)) ->
  node_ids (addNode px py s) = node_ids s ++ [List.length (nodes s)].
Proof.
  intros Hrefs. unfold addNode, alloc. save_shape.
  unfold node_ids, node_of, deref. fields.
  rewrite map_app. simpl. rewrite nth_middle. simpl. f_equal.
  apply map_ext_in. intros r Hr. rewrite app_nth1; [reflexivity | auto].
Qed.

(** C5.  The claim fails on the code: after two nodes are created (ids 0 and
    1) and the node of id 0 is deleted, the next [addNode] hands out id 1
    again, so two distinct node objects of the store share the id 1. *)
Theorem addNode_reuses_id_after_delete :
  nodes reuse_session = [1; 2]
  /\ node_ids reuse_session = [1; 1]
  /\ n_id (node_of reuse_session 1) = n_id (node_of reuse_session 2).
Proof. vm_compute. repeat split. Qed.

(** ** Adjacency index *)

(** C2.  The claim fails on the code: with nodes 0, 1, 2 and the undirected
    edge 1-2 of weight 5, deleting node 0 and creating a node reuses id 2,
    and [addNode] resets the adjacency list of id 2: the edge (1, 2, 5) is
    stored, the graph is undirected, and 1 is missing from the list of 2.
    The index is not what [updateAdjacencyList] derives from the edges. *)
Theorem adjacency_wiped_by_reused_id :
  directed wiped_session = false
  /\ edges wiped_session = [mkEdge 1 2 5 None]
  /\ node_ids wiped_session = [1; 2; 2]
  /\ JsMap.get (adj wiped_session) 1 = Some [mkAdj 2 5]
  /\ JsMap.get (adj wiped_session) 2 = Some []
  /\ JsMap.get (adj (updateAdjacencyList wiped_session)) 2 = Some [mkAdj 1 5].
Proof. vm_compute. repeat split. Qed.

(** ** Edge weights *)

(** The weight edit leaves through [InvalidWeight] exactly when [parseInt]
    gives [NaN] or a number that is not positive, and then nothing changes. *)
Lemma editWeight_invalid i input s :
  snd (editWeight i (Some input) s) = InvalidWeight
  <-> (parseInt input = None \/ exists w, parseInt input = Some w /\ (w <= 0)%Z).
Proof.
  unfold editWeight. destruct (parseInt input) as [w|]; simpl.
  - destruct (0 <? w)%Z eqn:Hw; simpl.
    + apply Z.ltb_lt in Hw. split; [discriminate|].
      intros [H|[w' [H Hle]]]; [discriminate|]. injection H as <-. lia.
    + apply Z.ltb_ge in Hw. split; [|reflexivity].
      intros _. right. exists w. split; [reflexivity | assumption].
  - split; [intros _; left; reflexivity | reflexivity].
Qed.

Lemma editWeight_failure_keeps_state i newW s r :
  r <> EdgeOk -> snd (editWeight i newW s) = r -> fst (editWeight i newW s) = s.
Proof.
  unfold editWeight. intros Hr.
  destruct newW as [input|]; [|reflexivity].
  destruct (parseInt input) as [w|]; [|reflexivity].
  destruct (0 <? w)%Z; simpl; [congruence | reflexivity].
Qed.

(** C8.  The claim fails on the code: the answer ["3.7"] to the weight
    prompt is not rejected.  [parseInt] reads the leading [3], the edit goes
    through and the edge and both adjacency entries carry weight 3; [addEdge]
    accepts the same answer and stores weight 3. *)
Theorem weight_3_7_is_truncated :
  parseInt "3.7" = Some 3%Z
  /\ snd (editWeight 0 (Some "3.7"%string) one_edge) = EdgeOk
  /\ edges (fst (editWeight 0 (Some "3.7"%string) one_edge)) = [mkEdge 0 1 3 None]
  /\ JsMap.get (adj (fst (editWeight 0 (Some "3.7"%string) one_edge))) 0
     = Some [mkAdj 1 3]
  /\ snd (addEdge 0 1 (ask "3.7") three_nodes) = EdgeOk
  /\ edges (fst (addEdge 0 1 (ask "3.7") three_nodes)) = [mkEdge 0 1 3 None].
Proof. vm_compute. repeat split. Qed.

(** ** Start and goal selectors *)

(** [deleteNode] on the very object that is the start node resets the
    selector, and the next run stops at the missing-start test. *)
Lemma deleteNode_resets_start euclid fadd fuel node s :
  startNode s = Some node ->
  startNode (deleteNode node s) = None
  /\ prepareAlgo euclid fadd fuel (deleteNode node s)
     = Done (deleteNode node s, MissingStart).
Proof.
  intros Hs.
  assert (H : startNode (deleteNode node s) = None).
  { unfold deleteNode. save_shape. cbn. rewrite Hs. cbn.
    rewrite Nat.eqb_refl. cbn.
    destruct (same_ref (goalNode s) node); reflexivity. }
  split; [assumption|]. unfold prepareAlgo. rewrite H. reflexivity.
Qed.

Lemma set_delete_gone a k : ~ In k (set_delete a k).
Proof.
  unfold set_delete. rewrite filter_In. intros [_ H].
  now rewrite Nat.eqb_refl in H.
Qed.

Lemma deleteNode_clears_sets node s :
  ~ In (n_id (node_of s node)) (selectedNodes (deleteNode node s))
  /\ ~ In (n_id (node_of s node)) (searchResults (deleteNode node s))
  /\ (goalNode s = Some node -> goalNode (deleteNode node s) = None).
Proof.
  unfold deleteNode. save_shape. fields.
  destruct (same_ref (startNode s) node) eqn:Es; fields;
    destruct (same_ref (goalNode s) node) eqn:Eg; fields;
    (split; [apply set_delete_gone|]); (split; [apply set_delete_gone|]);
    intros Hg; try reflexivity;
    rewrite Hg in Eg; simpl in Eg; rewrite Nat.eqb_refl in Eg; discriminate.
Qed.

(** C10.  The claim fails on the code: ids are reused, so two node objects
    can carry the id 2; with the older one as start, deleting the newer one
    removes both from [state.nodes] (the filter goes by id) while the
    [startNode === node] test leaves the selector alone.  The start selector
    then refers to an object that is no longer in the node collection, and a
    run passes the missing-start test and throws on the deleted node. *)
Theorem start_dangles_after_delete euclid fadd fuel :
  startNode dangling_session = Some 2
  /\ nodes dangling_session = [1]
  /\ find_node dangling_session (n_id (node_of dangling_session 2)) = None
  /\ prepareAlgo euclid fadd (S fuel) dangling_session = Threw.
Proof. vm_compute. repeat split. Qed.

(** [importGraph] does not reset the selectors either, where [clearCanvas]
    does: after a document without a start is imported, the start selector
    still refers to an object of the replaced node collection. *)
Lemma start_dangles_after_import euclid fadd fuel :
  startNode import_session = Some 0
  /\ nodes import_session = [3]
  /\ prepareAlgo euclid fadd (S fuel) import_session = Threw.
Proof. vm_compute. repeat split. Qed.

(** ** The shortest-path scenario *)

(** C3.  On the triangle with edges 0-1 (weight 4), 0-2 (weight 1) and 1-2
    (weight 1), start 0 and goal 1, the trace of Dijkstra's algorithm has one
    step that carries a path: it is the step before the closing one, its
    path is [0, 2, 1] and its distance is 2. *)
Theorem dijkstra_triangle_path euclid fadd fuel :
  exists trace s',
    Trace.prepareDijkstra (7 + fuel) triangle = Done trace
    /\ prepareAlgo euclid fadd (7 + fuel) triangle = Done (s', Prepared)
    /\ steps s' = trace
    /\ map (fun st => (desc st, path st)) trace =
       [ (StartingDijkstra (ShownLabel "0"), []);
         (VisitingWithDistance (ShownLabel "0") (Some (Num.Fin 0)), []);
         (UpdatedDistance 1 (Num.Fin 4), []);
         (UpdatedDistance 2 (Num.Fin 1), []);
         (VisitingWithDistance (ShownLabel "2") (Some (Num.Fin 1)), []);
         (UpdatedDistance 1 (Num.Fin 2), []);
         (VisitingWithDistance (ShownLabel "1") (Some (Num.Fin 2)), []);
         (FoundShortestPath (Some (Num.Fin 2)), [0; 2; 1]);
         (Completed dijkstra, []) ].
Proof.
  eexists _, _. split; [vm_compute; reflexivity|].
  split; [vm_compute; reflexivity|].
  split; reflexivity.
Qed.

(** ** Duplicate edges *)

Lemma adj_push_get m k e k2 :
  JsMap.get (adj_push m k e) k2 =
  if Nat.eqb k k2
  then Some (match JsMap.get m k with Some l => l | None => [] end ++ [e])
  else JsMap.get m k2.
Proof.
  unfold adj_push. destruct (JsMap.get m k) as [l|]; rewrite map_get_set;
    reflexivity.
Qed.

Lemma addEdge_ok_inv a b src s s1 :
  addEdge a b src s = (s1, EdgeOk) ->
  exists w,
    read_weight src = inl w
    /\ edgeExists s (n_id (node_of s a)) (n_id (node_of s b)) = false
    /\ s1 = saveState
              (with_adj
                 (adj_add_edge (directed s) (adj s)
                    (n_id (node_of s a)) (n_id (node_of s b)) w)
                 (with_edges
                    (edges s ++ [mkEdge (n_id (node_of s a)) (n_id (node_of s b)) w None])
                    s)).
Proof.
  unfold addEdge. intros H.
  destruct (read_weight src) as [w|r] eqn:Hw.
  - destruct (edgeExists s _ _) eqn:Hex; [discriminate|].
    injection H as <-. exists w. repeat split.
  - injection H as <- ->.
    destruct src as [d|[i|]]; simpl in Hw; try discriminate.
    destruct (parseInt i) as [w|]; [|discriminate].
    destruct (w <=? 0)%Z; discriminate.
Qed.

(** C6.  Once [addEdge] has created the edge from [a] to [b], a second
    [addEdge] for the same pair (and, when the graph is undirected, for the
    pair in the other order) with a valid weight ends in [DuplicateEdge] and
    returns the state as it was: edges and adjacency lists are unchanged.
    In an undirected graph whose adjacency lists had no entry between the
    two nodes, each list then holds exactly one entry for the other node. *)
Theorem duplicate_edge_rejected a b src src2 w2 s s1 :
  addEdge a b src s = (s1, EdgeOk) ->
  read_weight src2 = inl w2 ->
  let fromId := n_id (node_of s a) in
  let toId := n_id (node_of s b) in
  addEdge a b src2 s1 = (s1, DuplicateEdge)
  /\ (directed s = false -> addEdge b a src2 s1 = (s1, DuplicateEdge))
  /\ (directed s = false -> fromId <> toId ->
      entries_to s fromId toId = 0 -> entries_to s toId fromId = 0 ->
      entries_to s1 fromId toId = 1 /\ entries_to s1 toId fromId = 1).
Proof.
  intros Hadd Hw2 fromId toId.
  destruct (addEdge_ok_inv _ _ _ _ Hadd) as [w [Hw [Hex Hs1]]].
  fold fromId toId in Hex, Hs1.
  destruct (saveState_shape
              (with_adj (adj_add_edge (directed s) (adj s) fromId toId w)
                 (with_edges (edges s ++ [mkEdge fromId toId w None]) s)))
    as [h [i E]].
  rewrite E in Hs1. clear E.
  assert (Hheap : heap s1 = heap s) by (subst s1; reflexivity).
  assert (Hedges : edges s1 = edges s ++ [mkEdge fromId toId w None])
    by (subst s1; reflexivity).
  assert (Hdir : directed s1 = directed s) by (subst s1; reflexivity).
  assert (Hadj : adj s1 = adj_add_edge (directed s) (adj s) fromId toId w)
    by (subst s1; reflexivity).
  assert (Hida : n_id (node_of s1 a) = fromId)
    by (unfold node_of; rewrite Hheap; reflexivity).
  assert (Hidb : n_id (node_of s1 b) = toId)
    by (unfold node_of; rewrite Hheap; reflexivity).
  split; [|split].
  - unfold addEdge. rewrite Hw2, Hida, Hidb.
    assert (Hdup : edgeExists s1 fromId toId = true).
    { unfold edgeExists. rewrite Hedges, existsb_app. simpl.
      rewrite !Nat.eqb_refl. simpl. apply orb_true_r. }
    rewrite Hdup. reflexivity.
  - intros Hund. unfold addEdge. rewrite Hw2, Hida, Hidb.
    assert (Hdup : edgeExists s1 toId fromId = true).
    { unfold edgeExists. rewrite Hedges, existsb_app, Hdir, Hund. simpl.
      rewrite !Nat.eqb_refl. simpl. rewrite !orb_true_r. reflexivity. }
    rewrite Hdup. reflexivity.
  - intros Hund Hne H1 H2. unfold entries_to, Trace.neighbors_of in *.
    rewrite Hadj, Hund. unfold adj_add_edge.
    rewrite !adj_push_get.
    destruct (Nat.eqb_spec toId fromId) as [Heq|_]; [congruence|].
    destruct (Nat.eqb_spec fromId toId) as [Heq|_]; [congruence|].
    rewrite !Nat.eqb_refl.
    split.
    + rewrite filter_app, length_app.
      destruct (JsMap.get (adj s) fromId) as [l|]; simpl in *;
        rewrite Nat.eqb_refl; simpl; lia.
    + rewrite filter_app, length_app.
      destruct (JsMap.get (adj s) toId) as [l|]; simpl in *;
        rewrite Nat.eqb_refl; simpl; lia.
Qed.

Lemma duplicate_edge_rejected_witness :
  let s1 := fst (addEdge 0 1 (ask "1") two_nodes) in
  addEdge 0 1 (ask "1") two_nodes = (s1, EdgeOk)
  /\ addEdge 0 1 (ask "7") s1 = (s1, DuplicateEdge)
  /\ addEdge 1 0 (ask "7") s1 = (s1, DuplicateEdge)
  /\ adj s1 = [(0, [mkAdj 1 1]); (1, [mkAdj 0 1])].
Proof.
  intros s1.
  assert (H : addEdge 0 1 (ask "1") two_nodes = (s1, EdgeOk))
    by (vm_compute; reflexivity).
  assert (Hw : read_weight (ask "7") = inl 7%Z) by (vm_compute; reflexivity).
  destruct (duplicate_edge_rejected 0 1 (ask "1") (ask "7") two_nodes H Hw)
    as [H1 [H2 _]].
  split; [exact H|]. split; [exact H1|].
  split; [apply H2; vm_compute; reflexivity|].
  vm_compute; reflexivity.
Defined.

(** ** Snapshots and highlight colours *)

Lemma strip_deref h1 h2 r :
  map strip_node h1 = map strip_node h2 ->
  strip_node (deref h1 r) = strip_node (deref h2 r).
Proof.
  intros H. unfold deref.
  rewrite <- (map_nth strip_node h1 null_node r).
  rewrite <- (map_nth strip_node h2 null_node r).
  now rewrite H.
Qed.

Lemma strip_same_id h1 h2 r :
  map strip_node h1 = map strip_node h2 ->
  n_id (deref h1 r) = n_id (deref h2 r).
Proof.
  intros H.
  change (n_id (strip_node (deref h1 r)) = n_id (strip_node (deref h2 r))).
  now rewrite (@strip_deref h1 h2 r H).
Qed.

Lemma find_node_colorblind s1 s2 k :
  map strip_node (heap s1) = map strip_node (heap s2) ->
  nodes s1 = nodes s2 ->
  find_node s1 k = find_node s2 k.
Proof.
  intros Hh Hn. unfold find_node, node_of. rewrite <- Hn. clear Hn.
  induction (nodes s1) as [|r rs IH]; simpl; [reflexivity|].
  rewrite (@strip_same_id _ _ r Hh), IH. reflexivity.
Qed.

Lemma stateCopy_colorblind s1 s2 :
  differ_only_in_colors s1 s2 ->
  strip_snapshot (stateCopy s1) = strip_snapshot (stateCopy s2).
Proof.
  intros (Hh & He & Hn & _ & Hs & Hg & _).
  unfold strip_snapshot, stateCopy. cbn [h_nodes h_edges h_startNode h_goalNode].
  f_equal.
  - unfold node_of. rewrite <- Hn, !map_map.
    apply map_ext. intros r. apply strip_deref. assumption.
  - assumption.
  - rewrite <- Hs. destruct (startNode s1) as [r|]; [|reflexivity].
    unfold node_of. rewrite <- (@strip_same_id _ _ r Hh).
    apply find_node_colorblind; assumption.
  - rewrite <- Hg. destruct (goalNode s1) as [r|]; [|reflexivity].
    unfold node_of. rewrite <- (@strip_same_id _ _ r Hh).
    apply find_node_colorblind; assumption.
Qed.

Lemma highlighted_differs_in_colors :
  differ_only_in_colors highlighted (reset_colors highlighted).
Proof. vm_compute. repeat split. Qed.

(** C4, as stated, fails.  The state shown at the step that discovers node 1
    and the same state with the colours reset differ only in colours, yet
    their snapshots differ: the first stores node 1 with the [VISITING]
    colour.  After an edit, a reset of the visualization, an undo and a
    redo, node 1 carries the [VISITING] colour again although no trace is
    loaded. *)
Lemma snapshot_stores_highlight :
  differ_only_in_colors highlighted (reset_colors highlighted)
  /\ stateCopy highlighted <> stateCopy (reset_colors highlighted)
  /\ map n_color (h_nodes (stateCopy highlighted)) = [Some START; Some VISITING]
  /\ map n_color (h_nodes (stateCopy (reset_colors highlighted)))
     = [Some START; None]
  /\ steps replayed = []
  /\ map (fun r => n_color (node_of replayed r)) (nodes replayed)
     = [Some START; Some VISITING; None].
Proof.
  split; [exact highlighted_differs_in_colors|].
  split; [vm_compute; discriminate|].
  vm_compute. repeat split.
Qed.

(** ** The playback timer *)

Lemma with_heap_same s : with_heap (heap s) s = s.
Proof. destruct s; reflexivity. Qed.

Lemma with_edges_same s : with_edges (edges s) s = s.
Proof. destruct s; reflexivity. Qed.

(** The highlight projection writes colours and the cursor, nothing else. *)
Lemma color_nodes_shape c ids : forall s,
  exists h, color_nodes c ids s = with_heap h s.
Proof.
  unfold color_nodes.
  induction ids as [|k ids IH]; intros s; simpl.
  - exists (heap s). symmetry. apply with_heap_same.
  - destruct (find_node s k) as [r|]; [|apply IH].
    destruct (negb (same_ref (startNode s) r) && negb (same_ref (goalNode s) r));
      [|apply IH].
    destruct (IH (with_heap (mutate (heap s) r (set_n_color (Some c))) s))
      as [h ->].
    exists h. reflexivity.
Qed.

Lemma showStep_shape index s step :
  nth_error (steps s) index = Some step ->
  exists h e, showStep index s = with_edges e (with_heap h (with_stepIndex index s)).
Proof.
  intros Hnth. unfold showStep. rewrite Hnth.
  unfold reset_colors.
  match goal with
  | |- context [color_nodes VISITED ?ids ?st] =>
      destruct (color_nodes_shape VISITED ids st) as [h1 ->]
  end.
  match goal with
  | |- context [color_nodes VISITING ?ids ?st] =>
      destruct (color_nodes_shape VISITING ids st) as [h2 ->]
  end.
  destruct (path step) as [|p ps].
  - eexists _, _. reflexivity.
  - match goal with
    | |- context [color_nodes PATH ?ids ?st] =>
        destruct (color_nodes_shape PATH ids st) as [h3 ->]
    end.
    eexists _, _. reflexivity.
Qed.

Lemma showStep_timer index s :
  intervalId (showStep index s) = intervalId s
  /\ lastTimer (showStep index s) = lastTimer s.
Proof.
  destruct (nth_error (steps s) index) as [step|] eqn:Hnth.
  - destruct (showStep_shape _ _ Hnth) as [h [e ->]]. split; reflexivity.
  - unfold showStep. rewrite Hnth. split; reflexivity.
Qed.

Lemma prepareAlgo_timer euclid fadd fuel s s' r :
  prepareAlgo euclid fadd fuel s = Done (s', r) ->
  intervalId s' = intervalId s /\ lastTimer s' = lastTimer s.
Proof.
  unfold prepareAlgo. intros H.
  destruct (startNode s); [|injection H as <- _; split; reflexivity].
  destruct (needs_goal (currentAlgo s) && _);
    [injection H as <- _; split; reflexivity|].
  destruct (generate euclid fadd fuel s) as [trace| |]; simpl in H;
    try discriminate.
  injection H as <- _.
  destruct trace as [|st trace]; [split; reflexivity|].
  apply (showStep_timer 0 (with_stepIndex 0 (with_steps (st :: trace) s))).
Qed.

Lemma prepare_if_empty_timer euclid fadd fuel s s' :
  prepare_if_empty euclid fadd fuel s = Done s' ->
  intervalId s' = intervalId s /\ lastTimer s' = lastTimer s.
Proof.
  unfold prepare_if_empty. intros H.
  destruct (steps s); [|injection H as <-; split; reflexivity].
  destruct (prepareAlgo euclid fadd fuel s) as [[s1 r]| |] eqn:Hp; simpl in H;
    try discriminate.
  injection H as <-. apply (prepareAlgo_timer _ _ _ _ Hp).
Qed.

Lemma pause_clears s : pause s = with_intervalId None s.
Proof. destruct s as [? ? ? ? ? ? ? ? [t|] ? ? ? ? ? ? ?]; reflexivity. Qed.

Unset Implicit Arguments.

(** *** Which operations touch the trace and the timer *)

(** While the timer runs a trace is loaded. *)
Definition timer_has_trace (s : State) : Prop :=
  intervalId s <> None -> steps s <> [].

(** [s'] has the trace and the timer of [s]. *)
Definition same_playback (s s' : State) : Prop :=
  steps s' = steps s /\ intervalId s' = intervalId s.

Lemma saveState_playback s : same_playback s (saveState s).
Proof. destruct (saveState_shape s) as [h [i ->]]. split; reflexivity. Qed.

Lemma same_playback_trans s1 s2 s3 :
  same_playback s1 s2 -> same_playback s2 s3 -> same_playback s1 s3.
Proof. intros [A B] [C D]. split; congruence. Qed.

Lemma fold_left_playback (A : Type) (f : State -> A -> State) (l : list A) :
  (forall st x, same_playback st (f st x)) ->
  forall s, same_playback s (fold_left f l s).
Proof.
  intros Hf. induction l as [|x l IH]; intros s; simpl; [split; reflexivity|].
  eapply same_playback_trans; [apply Hf | apply IH].
Qed.

Lemma setStartNode_playback r s : same_playback s (setStartNode r s).
Proof.
  unfold setStartNode.
  eapply same_playback_trans; [|apply saveState_playback].
  destruct (startNode s); split; reflexivity.
Qed.

Lemma setGoalNode_playback r s : same_playback s (setGoalNode r s).
Proof.
  unfold setGoalNode.
  eapply same_playback_trans; [|apply saveState_playback].
  destruct (goalNode s); split; reflexivity.
Qed.

Lemma importGraph_playback data s : same_playback s (importGraph data s).
Proof.
  unfold importGraph. cbv zeta.
  eapply same_playback_trans; [|apply saveState_playback].
  match goal with
  | |- same_playback _ (match d_goal data with
                        | Some k => match find_node ?s6 k with _ => _ end
                        | None => _ end) =>
      assert (H6 : same_playback s s6)
  end.
  { match goal with
    | |- same_playback _ (match d_start data with
                          | Some k => match find_node ?s5 k with _ => _ end
                          | None => _ end) =>
        assert (H5 : same_playback s s5)
    end.
    { cbn [with_directed].
      match goal with
      | |- same_playback _ (with_directed _ (fold_left ?f ?l (fold_left ?g ?l2 ?s2))) =>
          pose proof (fold_left_playback _ g l2) as Hn;
          pose proof (fold_left_playback _ f l) as He
      end.
      eapply same_playback_trans; [|eapply same_playback_trans].
      2:{ apply Hn. intros st [[[id label] x] y]. split; reflexivity. }
      2:{ eapply same_playback_trans.
          - apply He. intros st [[from to] w]. split; reflexivity.
          - split; reflexivity. }
      split; reflexivity. }
    destruct (d_start data) as [k|]; [|exact H5].
    destruct (find_node _ k) as [r|]; [|exact H5].
    eapply same_playback_trans; [exact H5 | apply setStartNode_playback]. }
  destruct (d_goal data) as [k|]; [|exact H6].
  destruct (find_node _ k) as [r|]; [|exact H6].
  eapply same_playback_trans; [exact H6 | apply setGoalNode_playback].
Qed.

Lemma restoreState_playback s s' : restoreState s = Done s' -> same_playback s s'.
Proof.
  unfold restoreState. intros H.
  destruct (if (historyIndex s <? 0)%Z then None else _) as [snap|];
    [|discriminate].
  cbn [must bind] in H.
  destruct (alloc_all (heap s) (h_nodes snap)) as [h1 rs].
  injection H as <-. split; reflexivity.
Qed.

Lemma showStep_playback index s : same_playback s (showStep index s).
Proof.
  destruct (nth_error (steps s) index) as [step|] eqn:Hnth.
  - destruct (showStep_shape _ _ Hnth) as [h [e ->]]. split; reflexivity.
  - unfold showStep. rewrite Hnth. split; reflexivity.
Qed.

(** Every generator pushes a step. *)
Lemma bfs_loop_pushes s : forall fuel queue visitedSet acc trace,
  Trace.bfs_loop fuel s queue visitedSet acc = Done trace -> trace <> [].
Proof.
  induction fuel as [|fuel IH]; intros queue visitedSet acc trace H.
  - destruct queue; [|discriminate]. simpl in H. injection H as <-.
    now destruct acc.
  - destruct queue as [|c q]; simpl in H.
    + injection H as <-. now destruct acc.
    + destruct (find_node s c); [|discriminate]. cbn [must bind] in H.
      destruct (Trace.bfs_neighbors _ _ _ _) as [[q2 v2] acc3].
      eapply IH. exact H.
Qed.

Lemma dfs_loop_pushes s : forall fuel stack visitedSet acc trace,
  Trace.dfs_loop fuel s stack visitedSet acc = Done trace -> trace <> [].
Proof.
  induction fuel as [|fuel IH]; intros stack visitedSet acc trace H.
  - simpl in H. destruct (Trace.pop stack) as [[c st]|]; [discriminate|].
    injection H as <-. now destruct acc.
  - simpl in H. destruct (Trace.pop stack) as [[c st]|].
    + destruct (includes visitedSet c); [eapply IH; exact H|].
      destruct (find_node s c); [|discriminate]. cbn [must bind] in H.
      destruct (filter _ _); eapply IH; exact H.
    + injection H as <-. now destruct acc.
Qed.

Lemma generate_pushes euclid fadd fuel s trace :
  generate euclid fadd fuel s = Done trace -> trace <> [].
Proof.
  unfold generate. destruct (currentAlgo s);
    try (intros H; injection H as <-; discriminate).
  - unfold Trace.prepareBFS. destruct (startNode s); [|discriminate].
    cbn [must bind]. apply bfs_loop_pushes.
  - unfold Trace.prepareDFS. destruct (startNode s); [|discriminate].
    cbn [must bind]. apply dfs_loop_pushes.
  - unfold Trace.prepareDijkstra. destruct (startNode s); [|discriminate].
    cbn [must bind]. destruct (Trace.dijkstra_init _ _) as [[dist prev] queue].
    destruct (Trace.dijkstra_loop _ _ _ _ _ _ _) as [[d a]| |]; try discriminate.
    cbn [bind]. intros H. injection H as <-. now destruct a.
  - unfold Trace.prepareAStar. destruct (startNode s); [|discriminate].
    cbn [must bind]. destruct (Trace.astar_init _ _ _) as [g f].
    destruct (Trace.astar_loop _ _ _ _ _ _ _ _ _) as [[[g1 f1] a]| |];
      try discriminate.
    cbn [bind]. intros H. injection H as <-. now destruct a.
Qed.

(** [prepareAlgo] loads a trace unless the start, or the goal the algorithm
    needs, is missing; it leaves the timer alone either way. *)
Lemma prepareAlgo_loads euclid fadd fuel s s' r :
  prepareAlgo euclid fadd fuel s = Done (s', r) ->
  (steps s' <> []
   \/ (steps s' = steps s
       /\ (startNode s = None
           \/ (needs_goal (currentAlgo s) = true /\ goalNode s = None))))
  /\ intervalId s' = intervalId s.
Proof.
  intros H. split; [|apply (prepareAlgo_timer _ _ _ _ H)].
  unfold prepareAlgo in H.
  destruct (startNode s); [|injection H as <- _; right; auto].
  destruct (needs_goal (currentAlgo s)) eqn:Hn;
    destruct (goalNode s) eqn:Hg; cbn [andb] in H;
    try (injection H as <- _; right; auto; fail).
  all: destruct (generate euclid fadd fuel s) as [trace| |] eqn:Hgen;
    cbn [bind] in H; try discriminate;
    injection H as <- _; left;
    pose proof (generate_pushes _ _ _ _ _ Hgen) as Hne;
    cbn [steps with_steps with_stepIndex];
    destruct trace as [|st trace]; [congruence|];
    rewrite (proj1 (showStep_playback 0 _)); discriminate.
Qed.

Lemma prepare_if_empty_loaded euclid fadd fuel s :
  steps s <> [] -> prepare_if_empty euclid fadd fuel s = Done s.
Proof. unfold prepare_if_empty. destruct (steps s); [congruence | reflexivity]. Qed.

Lemma prepare_if_empty_loads euclid fadd fuel s s' :
  prepare_if_empty euclid fadd fuel s = Done s' ->
  (steps s' <> []
   \/ (steps s' = []
       /\ (startNode s = None
           \/ (needs_goal (currentAlgo s) = true /\ goalNode s = None))))
  /\ intervalId s' = intervalId s
  /\ (steps s <> [] -> s' = s).
Proof.
  unfold prepare_if_empty. intros H.
  destruct (steps s) as [|st l] eqn:Hst.
  - destruct (prepareAlgo euclid fadd fuel s) as [[s1 r]| |] eqn:Hp;
      cbn [bind] in H; try discriminate.
    injection H as <-. cbn [fst].
    destruct (prepareAlgo_loads _ _ _ _ _ _ Hp) as [Hl Ht].
    split; [|split; [exact Ht | congruence]].
    destruct Hl as [Hl|[Hl Hm]]; [now left|].
    right. split; [congruence | exact Hm].
  - injection H as <-. split; [left; congruence|]. split; reflexivity.
Qed.

Lemma advance_playback s : same_playback s (advance s).
Proof.
  unfold advance. destruct (_ <? _); [apply showStep_playback | split; reflexivity].
Qed.

Lemma prevStep_playback s : same_playback s (prevStep s).
Proof.
  unfold prevStep. destruct (_ && _); [apply showStep_playback | split; reflexivity].
Qed.

(** The graph edits, the history moves and the import leave the trace and
    the timer as they are. *)
Lemma edits_keep_playback s :
  (forall px py, same_playback s (addNode px py s))
  /\ (forall a b src, same_playback s (fst (addEdge a b src s)))
  /\ (forall node, same_playback s (deleteNode node s))
  /\ (forall i, same_playback s (deleteEdge i s))
  /\ (forall i w, same_playback s (fst (editWeight i w s)))
  /\ (forall r l, same_playback s (renameNode r l s))
  /\ (forall r, same_playback s (setStartNode r s))
  /\ (forall r, same_playback s (setGoalNode r s))
  /\ (forall data, same_playback s (importGraph data s))
  /\ (forall a, same_playback s (selectAlgo a s))
  /\ (forall s', undo s = Done s' -> same_playback s s')
  /\ (forall s', redo s = Done s' -> same_playback s s').
Proof.
  split.
  { intros px py. unfold addNode, alloc.
    eapply same_playback_trans; [|apply saveState_playback]. split; reflexivity. }
  split.
  { intros a b src. unfold addEdge.
    destruct (read_weight src); [|split; reflexivity].
    destruct (edgeExists s _ _); [split; reflexivity|]. cbn [fst].
    eapply same_playback_trans; [|apply saveState_playback]. split; reflexivity. }
  split.
  { intros node. unfold deleteNode. cbv zeta.
    eapply same_playback_trans; [|apply saveState_playback].
    repeat match goal with
      | |- context [if ?c then _ else _] => destruct c
      end; split; reflexivity. }
  split.
  { intros i. unfold deleteEdge.
    eapply same_playback_trans; [|apply saveState_playback]. split; reflexivity. }
  split.
  { intros i w. unfold editWeight. destruct w as [input|]; [|split; reflexivity].
    destruct (parseInt input); [|split; reflexivity].
    destruct (0 <? _)%Z; [|split; reflexivity]. cbn [fst].
    eapply same_playback_trans; [|apply saveState_playback]. split; reflexivity. }
  split.
  { intros r l. unfold renameNode.
    eapply same_playback_trans; [|apply saveState_playback]. split; reflexivity. }
  split; [intros r; apply setStartNode_playback|].
  split; [intros r; apply setGoalNode_playback|].
  split; [intros data; apply importGraph_playback|].
  split; [intros a; split; reflexivity|].
  split.
  - intros s' H. unfold undo in H. destruct (0 <? historyIndex s)%Z.
    + apply restoreState_playback in H. exact H.
    + injection H as <-. split; reflexivity.
  - intros s' H. unfold redo in H. destruct (historyIndex s <? _)%Z.
    + apply restoreState_playback in H. exact H.
    + injection H as <-. split; reflexivity.
Qed.

(** C9, as the code has it.  [pause] is total and idempotent and only
    clears the timer.  The timer is also cleared by its own callback at the
    last step, by [resetVisualization] and by [clearCanvas], none of which
    goes through [pause], and [play] replaces it by a fresh one.
    [prepareAlgo] has no timer code.  What keeps a timer off a new trace is
    the guard of [nextStep] and [play]: a trace is generated only when none
    is loaded, and a loaded trace is dropped only by [resetVisualization]
    and [clearCanvas], which clear the timer.  So "while the timer runs a
    trace is loaded" is kept by every operation but one, and under it no
    trace is generated while the timer runs.  The one operation is [play]
    when no trace can be prepared, the start or the goal the algorithm
    needs being missing: the timer is set all the same. *)
Theorem timer_is_cleared_in_four_places euclid fadd fuel s :
  pause s = with_intervalId None s
  /\ pause (pause s) = pause s
  /\ (forall s' r, prepareAlgo euclid fadd fuel s = Done (s', r) ->
        intervalId s' = intervalId s)
  /\ intervalId (resetVisualization s) = None
  /\ intervalId (clearCanvas s) = None
  /\ (List.length (steps s) <= S (stepIndex s) -> intervalId (tick s) = None)
  /\ (S (stepIndex s) < List.length (steps s) ->
        intervalId (tick s) = intervalId s
        /\ (intervalId s <> None -> stepIndex (tick s) = S (stepIndex s)))
  /\ (forall s', play euclid fadd fuel s = Done s' ->
        intervalId s' = Some (S (lastTimer s)))
  (* the guard: with a trace loaded nothing is generated *)
  /\ (steps s <> [] ->
        prepare_if_empty euclid fadd fuel s = Done s
        /\ nextStep euclid fadd fuel s = Done (advance s)
        /\ play euclid fadd fuel s
           = Done (with_intervalId (Some (S (lastTimer s)))
                     (with_lastTimer (S (lastTimer s)) s)))
  (* who drops the trace: the two operations that clear the timer *)
  /\ steps (resetVisualization s) = []
  /\ steps (clearCanvas s) = []
  /\ same_playback s (advance s)
  /\ same_playback s (prevStep s)
  /\ (forall i, same_playback s (showStep i s))
  /\ steps (tick s) = steps s
  /\ steps (pause s) = steps s
  /\ (forall px py, same_playback s (addNode px py s))
  /\ (forall a b src, same_playback s (fst (addEdge a b src s)))
  /\ (forall node, same_playback s (deleteNode node s))
  /\ (forall i, same_playback s (deleteEdge i s))
  /\ (forall i w, same_playback s (fst (editWeight i w s)))
  /\ (forall r l, same_playback s (renameNode r l s))
  /\ (forall r, same_playback s (setStartNode r s))
  /\ (forall r, same_playback s (setGoalNode r s))
  /\ (forall data, same_playback s (importGraph data s))
  /\ (forall a, same_playback s (selectAlgo a s))
  /\ (forall s', undo s = Done s' -> same_playback s s')
  /\ (forall s', redo s = Done s' -> same_playback s s')
  (* the invariant and what it gives *)
  /\ timer_has_trace initial_state
  /\ (timer_has_trace s ->
        timer_has_trace (tick s)
        /\ timer_has_trace (pause s)
        /\ timer_has_trace (resetVisualization s)
        /\ timer_has_trace (clearCanvas s)
        /\ (forall s', nextStep euclid fadd fuel s = Done s' -> timer_has_trace s')
        /\ (forall s', speedChanged euclid fadd fuel s = Done s' ->
              timer_has_trace s')
        /\ (intervalId s <> None ->
              (forall s', nextStep euclid fadd fuel s = Done s' ->
                 steps s' = steps s)
              /\ (forall s', play euclid fadd fuel s = Done s' ->
                    steps s' = steps s)
              /\ (forall s', togglePlayPause euclid fadd fuel s = Done s' ->
                    steps s' = steps s)))
  (* the exception *)
  /\ (forall s', play euclid fadd fuel s = Done s' ->
        timer_has_trace s'
        \/ (steps s' = []
            /\ (startNode s = None
                \/ (needs_goal (currentAlgo s) = true /\ goalNode s = None)))).
Proof.
  destruct (edits_keep_playback s)
    as (E1 & E2 & E3 & E4 & E5 & E6 & E7 & E8 & E9 & E10 & E11 & E12).
  split; [apply pause_clears|].
  split; [rewrite !pause_clears; reflexivity|].
  split; [intros s' r H; apply (prepareAlgo_timer _ _ _ _ H)|].
  split.
  { unfold resetVisualization, reset_colors. fields.
    destruct (intervalId s) eqn:E; fields; [reflexivity | assumption]. }
  split.
  { unfold clearCanvas. save_shape. fields.
    destruct (intervalId s) eqn:E; fields; [reflexivity | assumption]. }
  split.
  { intros Hlast. unfold tick. destruct (intervalId s) as [t|] eqn:E; [|assumption].
    destruct (S (stepIndex s) <? List.length (steps s)) eqn:Hlt;
      [apply Nat.ltb_lt in Hlt; lia | reflexivity]. }
  split.
  { intros Hmid. unfold tick. destruct (intervalId s) as [t|] eqn:E;
      [|split; [assumption | congruence]].
    destruct (S (stepIndex s) <? List.length (steps s)) eqn:Hlt;
      [|apply Nat.ltb_ge in Hlt; lia].
    destruct (nth_error (steps s) (stepIndex s + 1)) as [step|] eqn:Hnth;
      [|apply nth_error_None in Hnth; lia].
    destruct (showStep_shape _ _ Hnth) as [h [e ->]]. fields.
    split; [assumption | intros _; lia]. }
  split.
  { intros s' H. unfold play in H.
    destruct (prepare_if_empty euclid fadd fuel s) as [s1| |] eqn:Hp; simpl in H;
      try discriminate.
    injection H as <-. fields.
    rewrite (proj2 (prepare_if_empty_timer _ _ _ _ Hp)). reflexivity. }
  split.
  { intros Hl. pose proof (prepare_if_empty_loaded euclid fadd fuel _ Hl) as Hg.
    split; [exact Hg|]. unfold nextStep, play. rewrite Hg. split; reflexivity. }
  assert (Hreset : steps (resetVisualization s) = []).
  { unfold resetVisualization, reset_colors. fields.
    destruct (intervalId s); reflexivity. }
  assert (Hclear : steps (clearCanvas s) = []).
  { unfold clearCanvas. save_shape. fields. destruct (intervalId s); reflexivity. }
  assert (Htick : same_playback s (tick s) \/ (steps (tick s) = steps s
                                               /\ intervalId (tick s) = None)).
  { unfold tick. destruct (intervalId s) eqn:E; [|left; split; auto].
    destruct (_ <? _); [left; apply showStep_playback | right; split; reflexivity]. }
  assert (Hpause : steps (pause s) = steps s) by (rewrite pause_clears; reflexivity).
  split; [exact Hreset|]. split; [exact Hclear|].
  split; [apply advance_playback|]. split; [apply prevStep_playback|].
  split; [intros i; apply showStep_playback|].
  split; [destruct Htick as [[A _]|[A _]]; exact A|].
  split; [exact Hpause|].
  split; [exact E1|]. split; [exact E2|]. split; [exact E3|]. split; [exact E4|].
  split; [exact E5|]. split; [exact E6|]. split; [exact E7|]. split; [exact E8|].
  split; [exact E9|]. split; [exact E10|]. split; [exact E11|]. split; [exact E12|].
  split; [intros H; now contradiction H|].
  assert (Hnext : timer_has_trace s ->
                  forall s', nextStep euclid fadd fuel s = Done s' ->
                             timer_has_trace s'
                             /\ (intervalId s <> None -> steps s' = steps s)).
  { intros Hinv s' H. unfold nextStep in H.
    destruct (prepare_if_empty euclid fadd fuel s) as [s1| |] eqn:Hp;
      cbn [bind] in H; try discriminate.
    injection H as <-.
    destruct (prepare_if_empty_loads _ _ _ _ _ Hp) as (Hl & Ht & Hsame).
    destruct (advance_playback s1) as [As At].
    split.
    - intros Hrun. rewrite As. rewrite At, Ht in Hrun.
      rewrite (Hsame (Hinv Hrun)). apply Hinv, Hrun.
    - intros Hrun. rewrite As, (Hsame (Hinv Hrun)). reflexivity. }
  assert (Hplay : timer_has_trace s -> intervalId s <> None ->
                  forall s', play euclid fadd fuel s = Done s' ->
                             steps s' = steps s).
  { intros Hinv Hrun s' H.
    pose proof (prepare_if_empty_loaded euclid fadd fuel _ (Hinv Hrun)) as Hg.
    unfold play in H. rewrite Hg in H. cbn [bind] in H.
    injection H as <-. reflexivity. }
  split.
  { intros Hinv.
    split.
    { intros Hrun. destruct Htick as [[A B]|[A B]]; [|congruence].
      rewrite A. apply Hinv. congruence. }
    split; [intros Hrun; rewrite pause_clears in Hrun; now contradiction Hrun|].
    split.
    { intros Hrun. exfalso. apply Hrun.
      unfold resetVisualization, reset_colors. fields.
      destruct (intervalId s) eqn:E; fields; [reflexivity | assumption]. }
    split.
    { intros Hrun. exfalso. apply Hrun.
      unfold clearCanvas. save_shape. fields.
      destruct (intervalId s) eqn:E; fields; [reflexivity | assumption]. }
    split; [intros s' H; apply (Hnext Hinv s' H)|].
    split.
    { intros s' H. unfold speedChanged in H.
      destruct (intervalId s) as [t|] eqn:E; [|injection H as <-; exact Hinv].
      assert (Hl : steps (pause s) <> []).
      { rewrite Hpause. apply Hinv. congruence. }
      unfold play in H.
      rewrite (prepare_if_empty_loaded euclid fadd fuel _ Hl) in H.
      cbn [bind] in H. injection H as <-. intros _. exact Hl. }
    intros Hrun.
    split; [intros s' H; apply (Hnext Hinv s' H), Hrun|].
    split; [exact (Hplay Hinv Hrun)|].
    intros s' H. unfold togglePlayPause in H.
    destruct (intervalId s); [|now contradiction Hrun].
    injection H as <-. exact Hpause. }
  intros s' H. unfold play in H.
  destruct (prepare_if_empty euclid fadd fuel s) as [s1| |] eqn:Hp;
    cbn [bind] in H; try discriminate.
  injection H as <-.
  destruct (prepare_if_empty_loads _ _ _ _ _ Hp) as ([Hl|[Hl Hm]] & _ & _).
  - left. intros _. exact Hl.
  - right. split; [exact Hl | exact Hm].
Qed.

(** C9, as stated, fails.  "Play" pressed without a start node sets the
    timer although no trace exists.  Once a start node is chosen, "next"
    generates a trace through [prepareAlgo] while the timer is set: the
    handle is still 1 afterwards, and a tick of that timer moves the cursor
    of the new trace.  [resetVisualization] then clears the timer without a
    call of [pause]. *)
Lemma new_run_keeps_running_timer :
  intervalId early_play = Some 1
  /\ steps early_play = []
  /\ intervalId run_under_timer = Some 1
  /\ List.length (steps run_under_timer) = 7
  /\ stepIndex run_under_timer = 1
  /\ stepIndex (tick run_under_timer) = 2
  /\ intervalId (tick run_under_timer) = Some 1
  /\ intervalId (resetVisualization run_under_timer) = None.
Proof. vm_compute. repeat split. Qed.

(** ** Unreachable goals *)

(** *** Arrays and lookups *)

Lemma remove_first_spec a m :
  In m a ->
  exists r, remove_first a m = Some r
            /\ S (List.length r) = List.length a
            /\ (forall x, In x r -> In x a)
            /\ (forall x, In x a -> x = m \/ In x r).
Proof.
  induction a as [|y a IH]; intros Hin; [contradiction|].
  simpl. destruct (Nat.eqb_spec y m) as [->|Hne].
  - exists a. repeat split; simpl; auto.
    intros x [->|Hx]; auto.
  - destruct Hin as [->|Hin]; [congruence|].
    destruct (IH Hin) as [r [-> [Hlen [Hsub Hsup]]]].
    exists (y :: r). repeat split; simpl.
    + now rewrite Hlen.
    + intros x [->|Hx]; auto.
    + intros x [->|Hx]; auto. destruct (Hsup x Hx); auto.
Qed.

Lemma splice_indexOf_spec a m :
  In m a ->
  S (List.length (splice_indexOf a m)) = List.length a
  /\ (forall x, In x (splice_indexOf a m) -> In x a)
  /\ (forall x, In x a -> x = m \/ In x (splice_indexOf a m)).
Proof.
  intros Hin. unfold splice_indexOf.
  destruct (remove_first_spec a m Hin) as [r [-> H]]. exact H.
Qed.

Lemma find_node_some s k :
  In k (node_ids s) -> exists r, find_node s k = Some r.
Proof.
  unfold node_ids, find_node. induction (nodes s) as [|r rs IH]; simpl.
  - contradiction.
  - intros [<-|Hin].
    + rewrite Nat.eqb_refl. eauto.
    + destruct (Nat.eqb _ k); eauto.
Qed.

Lemma neighbors_closed s k e :
  adj_closed s = true ->
  In e (Trace.neighbors_of s k) -> In (a_node e) (node_ids s).
Proof.
  unfold adj_closed, Trace.neighbors_of. intros Hc Hin.
  destruct (JsMap.get (adj s) k) as [l|] eqn:Hget; [|contradiction].
  rewrite forallb_forall in Hc.
  assert (Hkl : In (k, l) (adj s)).
  { clear Hc Hin. induction (adj s) as [|[k' l'] m IH]; simpl in *; [discriminate|].
    destruct (Nat.eqb_spec k' k) as [->|Hne].
    - injection Hget as ->. now left.
    - right. auto. }
  specialize (Hc _ Hkl). simpl in Hc. rewrite forallb_forall in Hc.
  apply includes_In. auto.
Qed.

Lemma neighbors_positive s k e :
  positive_weights s = true ->
  In e (Trace.neighbors_of s k) -> (0 < a_weight e)%Z.
Proof.
  unfold positive_weights, Trace.neighbors_of. intros Hc Hin.
  destruct (JsMap.get (adj s) k) as [l|] eqn:Hget; [|contradiction].
  rewrite forallb_forall in Hc.
  assert (Hkl : In (k, l) (adj s)).
  { clear Hc Hin. induction (adj s) as [|[k' l'] m IH]; simpl in *; [discriminate|].
    destruct (Nat.eqb_spec k' k) as [->|Hne].
    - injection Hget as ->. now left.
    - right. auto. }
  specialize (Hc _ Hkl). simpl in Hc. rewrite forallb_forall in Hc.
  apply Z.ltb_lt. auto.
Qed.

(** *** Sums of distances *)

(** Below [Infinity]: what the generators test with [d < Infinity]. *)
Definition below_inf (d : Num.num) : Prop := Num.ltb d Num.Infinity = true.

(** A distance that is an integer between 0 and [B]. *)
Definition in_range (B : Z) (d : Num.num) : Prop :=
  exists z, d = Num.Fin z /\ (0 <= z <= B)%Z.

Lemma round_exact z : (Z.abs z < 2 ^ 53)%Z -> Num.round z = Num.Fin z.
Proof.
  intros H. unfold Num.round. apply Z.ltb_lt in H. now rewrite H.
Qed.

Lemma add_exact x w :
  (Z.abs (x + w) < 2 ^ 53)%Z -> Num.add (Num.Fin x) w = Num.Fin (x + w).
Proof. intros H. simpl. now apply round_exact. Qed.

(** Sums are rounded: one past [2^53] is lost, and two weights of [10^308]
    add up to [Infinity]. *)
Lemma add_rounds :
  Num.add (Num.Fin (2 ^ 53)) 1 = Num.Fin (2 ^ 53)
  /\ Num.add (Num.Fin (2 ^ 53 + 2)) 1 = Num.Fin (2 ^ 53 + 4)
  /\ Num.add (Num.Fin (10 ^ 308)) (10 ^ 308) = Num.Infinity
  /\ Num.add (Num.Fin (- 10 ^ 308)) (- 10 ^ 308) = Num.NegInfinity.
Proof. vm_compute. repeat split. Qed.

Lemma ltb_true_below a b : Num.ltb a b = true -> below_inf a.
Proof. unfold below_inf. destruct a, b; simpl; auto; discriminate. Qed.

Lemma ltb_false_below a b : Num.ltb a b = false -> below_inf a -> below_inf b.
Proof. unfold below_inf. destruct a, b; simpl; auto; discriminate. Qed.

Lemma add_below_inv d w : below_inf (Num.add d w) -> below_inf d.
Proof. unfold below_inf. destruct d; simpl; auto. Qed.

Lemma in_range_below B d : in_range B d -> below_inf d.
Proof. intros [z [-> _]]. reflexivity. Qed.

Lemma in_range_le B B' d : (B <= B')%Z -> in_range B d -> in_range B' d.
Proof. intros H [z [-> Hz]]. exists z. split; [reflexivity | lia]. Qed.

Lemma add_in_range B W d w :
  in_range B d -> (0 <= w <= W)%Z -> (B + W < 2 ^ 53)%Z ->
  Num.add d w = Num.Fin (match d with Num.Fin z => z + w | _ => 0 end)
  /\ in_range (B + W) (Num.add d w).
Proof.
  intros [z [-> Hz]] Hw Hb.
  rewrite add_exact by lia. split; [reflexivity|].
  exists (z + w)%Z. split; [reflexivity | lia].
Qed.

(** *** Dijkstra: finite distances *)

Definition dfin (dist : Trace.DistMap) (k : nat) : Prop :=
  exists d, JsMap.get dist k = Some d /\ below_inf d.

Lemma dist_finite_dfin dist k : Trace.dist_finite dist k = true <-> dfin dist k.
Proof.
  unfold Trace.dist_finite, dfin, below_inf.
  destruct (JsMap.get dist k) as [d|]; simpl; split; intros H;
    try discriminate; eauto.
  - destruct H as [d' [E H]]. now injection E as ->.
  - destruct H as [d' [E _]]. discriminate.
Qed.

Lemma dfin_set dist n v k :
  dfin (JsMap.set dist n v) k <->
  (n = k /\ below_inf v) \/ (n <> k /\ dfin dist k).
Proof.
  unfold dfin. rewrite map_get_set.
  destruct (Nat.eqb_spec n k) as [->|Hne].
  - split.
    + intros [d [H Hd]]. injection H as ->. left. auto.
    + intros [[_ H]|[H _]]; [eauto | congruence].
  - split; [intros H; right; auto | intros [[H _]|[_ H]]; [congruence | exact H]].
Qed.

(** The scan for the smallest distance returns a queue member, and a finite
    one when the queue has one. *)
Lemma min_fold_spec dist queue : forall c,
  JsMap.get dist c <> None ->
  (forall q, In q queue -> JsMap.get dist q <> None) ->
  exists m, fold_left (Trace.min_step dist) queue (Some c) = Some m
            /\ (m = c \/ In m queue)
            /\ (dfin dist c -> dfin dist m)
            /\ (forall q, In q queue -> dfin dist q -> dfin dist m).
Proof.
  induction queue as [|q0 queue IH]; intros c Hc Hq; simpl.
  - exists c. repeat split; auto. intros q [].
  - assert (Hq0 : JsMap.get dist q0 <> None) by (apply Hq; now left).
    assert (Hrest : forall q, In q queue -> JsMap.get dist q <> None)
      by (intros q H; apply Hq; now right).
    destruct (JsMap.get dist q0) as [d0|] eqn:E0; [|congruence].
    destruct (JsMap.get dist c) as [dc|] eqn:Ec; [|congruence].
    simpl. destruct (Num.ltb d0 dc) eqn:Hlt.
    + destruct (IH q0) as [m [Hm [Hin [Hfin Hall]]]]; [congruence | exact Hrest |].
      exists m. split; [exact Hm|]. split; [destruct Hin; auto|].
      assert (H0 : dfin dist q0).
      { exists d0. split; [exact E0 | exact (ltb_true_below _ _ Hlt)]. }
      split; [auto|]. intros q [<-|Hin']; eauto.
    + destruct (IH c) as [m [Hm [Hin [Hfin Hall]]]]; [congruence | exact Hrest |].
      exists m. split; [exact Hm|]. split; [destruct Hin; auto|].
      split; [exact Hfin|]. intros q [<-|Hin']; [|eauto].
      intros [d [Hd Hb]]. apply Hfin. rewrite E0 in Hd. injection Hd as <-.
      exists dc. split; [exact Ec | exact (ltb_false_below _ _ Hlt Hb)].
Qed.

Lemma find_min_spec dist q0 queue :
  (forall q, In q (q0 :: queue) -> JsMap.get dist q <> None) ->
  exists m, Trace.find_min dist (q0 :: queue) = Some m
            /\ In m (q0 :: queue)
            /\ (forall q, In q (q0 :: queue) -> dfin dist q -> dfin dist m).
Proof.
  intros Hq. unfold Trace.find_min. simpl.
  destruct (min_fold_spec dist queue q0) as [m [Hm [Hin [Hfin Hall]]]].
  - apply Hq. now left.
  - intros q H. apply Hq. now right.
  - exists m. split; [exact Hm|]. split; [destruct Hin; [left | right]; auto|].
    intros q [<-|H]; eauto.
Qed.

(** A predecessor is recorded only for nodes with a finite distance. *)
Definition prev_ok (dist : Trace.DistMap) (prev : Trace.PrevMap) : Prop :=
  forall k p, JsMap.get prev k = Some (Some p) -> dfin dist k.

(** What the loop over the neighbours of [m] does to the distances: keys
    stay, finite stays finite, and what becomes finite is a queued
    neighbour of a finite [m]. *)
Lemma relax_spec m queue : forall nbrs dist prev acc dist1 prev1 acc1,
  Trace.relax m nbrs queue dist prev acc = (dist1, prev1, acc1) ->
  (forall k, JsMap.get dist1 k <> None <-> JsMap.get dist k <> None)
  /\ (forall k, JsMap.get prev k <> None -> JsMap.get prev1 k <> None)
  /\ (prev_ok dist prev -> prev_ok dist1 prev1)
  /\ (forall k, dfin dist k -> dfin dist1 k)
  /\ (forall k, dfin dist1 k ->
        dfin dist k
        \/ (dfin dist m /\ In k queue /\ exists e, In e nbrs /\ a_node e = k))
  /\ (forall k, ~ In k queue -> JsMap.get prev1 k = JsMap.get prev k).
Proof.
  induction nbrs as [|e0 rest IH]; intros dist prev acc dist1 prev1 acc1 H.
  - simpl in H. injection H as <- <- <-.
    repeat split; auto; try tauto.
  - simpl in H.
    assert (Hskip :
      Trace.relax m rest queue dist prev acc = (dist1, prev1, acc1) ->
      (forall k, JsMap.get dist1 k <> None <-> JsMap.get dist k <> None)
      /\ (forall k, JsMap.get prev k <> None -> JsMap.get prev1 k <> None)
      /\ (prev_ok dist prev -> prev_ok dist1 prev1)
      /\ (forall k, dfin dist k -> dfin dist1 k)
      /\ (forall k, dfin dist1 k ->
            dfin dist k
            \/ (dfin dist m /\ In k queue
                /\ exists e, In e (e0 :: rest) /\ a_node e = k))
      /\ (forall k, ~ In k queue -> JsMap.get prev1 k = JsMap.get prev k)).
    { intros H'. destruct (IH _ _ _ _ _ _ H') as (R1 & Rp & Rpo & R2 & R3 & R5).
      repeat split; auto; try apply R1.
      intros k Hk. destruct (R3 k Hk) as [?|(A & B & e & C & D)]; auto.
      right. repeat split; auto. exists e. split; [now right | exact D]. }
    destruct (includes queue (a_node e0)) eqn:Hinc; [|now apply Hskip].
    destruct (JsMap.get dist m) as [d|] eqn:Ed; [|now apply Hskip].
    destruct (JsMap.get dist (a_node e0)) as [dn|] eqn:En; [|now apply Hskip].
    destruct (Num.ltb (Num.add d (a_weight e0)) dn) eqn:Hlt; [|now apply Hskip].
    clear Hskip.
    pose proof (ltb_true_below _ _ Hlt) as Halt.
    assert (Hm : dfin dist m).
    { exists d. split; [exact Ed | exact (add_below_inv _ _ Halt)]. }
    set (n := a_node e0) in *.
    set (dist' := JsMap.set dist n (Num.add d (a_weight e0))) in *.
    set (prev' := JsMap.set prev n (Some m)) in *.
    assert (Hn' : dfin dist' n).
    { apply dfin_set. left. split; [reflexivity | exact Halt]. }
    assert (Hmono : forall k, dfin dist k -> dfin dist' k).
    { intros k Hk. destruct (Nat.eq_dec n k) as [<-|Hne]; [exact Hn'|].
      apply dfin_set. right. auto. }
    destruct (IH _ _ _ _ _ _ H) as (R1 & Rp & Rpo & R2 & R3 & R5).
    assert (Hkeys : forall k, JsMap.get dist' k <> None <-> JsMap.get dist k <> None).
    { intros k. unfold dist'. rewrite map_get_set.
      destruct (Nat.eqb_spec n k) as [<-|Hne]; [|tauto].
      rewrite En. split; discriminate. }
    split; [intros k; rewrite R1; apply Hkeys|].
    split.
    { intros k Hk. apply Rp. unfold prev'. rewrite map_get_set.
      destruct (Nat.eqb n k); [discriminate | exact Hk]. }
    split.
    { intros Hok. apply Rpo. intros k p Hk. unfold prev' in Hk.
      rewrite map_get_set in Hk.
      destruct (Nat.eqb_spec n k) as [<-|Hne]; [exact Hn'|].
      apply Hmono. eapply Hok. exact Hk. }
    split; [intros k Hk; apply R2, Hmono, Hk|].
    split.
    { intros k Hk. destruct (R3 k Hk) as [Hk'|(A & B & e & C & D)].
      - apply dfin_set in Hk'. destruct Hk' as [[<- _]|[_ Hk']]; [|now left].
        right. split; [exact Hm|]. split; [now apply includes_In|].
        exists e0. split; [now left | reflexivity].
      - right. split; [exact Hm|]. split; [exact B|].
        exists e. split; [now right | exact D]. }
    intros k Hk. rewrite (R5 k Hk). unfold prev'. rewrite map_get_set.
    destruct (Nat.eqb_spec n k) as [<-|Hne]; [|reflexivity].
    exfalso. apply Hk. now apply includes_In.
Qed.

(** Distances are [Infinity] or integers between 0 and [B]. *)
Definition dbound (B : Z) (dist : Trace.DistMap) : Prop :=
  forall k d, JsMap.get dist k = Some d -> d = Num.Infinity \/ in_range B d.

(** With weights between 0 and [W] and distances that stay below [2^53]
    the sums are exact: every queued neighbour of a finite [m] ends with a
    finite distance, and the distances grow by [W] at most. *)
Lemma relax_bounded m queue W B : forall nbrs dist prev acc dist1 prev1 acc1,
  Trace.relax m nbrs queue dist prev acc = (dist1, prev1, acc1) ->
  (forall e, In e nbrs -> (0 <= a_weight e <= W)%Z) ->
  (B + W < 2 ^ 53)%Z ->
  (forall d, JsMap.get dist m = Some d -> d = Num.Infinity \/ in_range B d) ->
  dbound (B + W) dist ->
  dbound (B + W) dist1
  /\ (dfin dist m -> forall e, In e nbrs -> In (a_node e) queue ->
        JsMap.get dist (a_node e) <> None -> dfin dist1 (a_node e)).
Proof.
  induction nbrs as [|e0 rest IH];
    intros dist prev acc dist1 prev1 acc1 H Hw Hb Hdm Hbound.
  - simpl in H. injection H as <- <- <-. split; [exact Hbound|]. intros _ e [].
  - simpl in H.
    assert (Hw0 : (0 <= a_weight e0 <= W)%Z) by (apply Hw; now left).
    assert (Hwr : forall e, In e rest -> (0 <= a_weight e <= W)%Z)
      by (intros e He; apply Hw; now right).
    destruct (includes queue (a_node e0)) eqn:Hinc.
    2:{ destruct (IH _ _ _ _ _ _ H Hwr Hb Hdm Hbound) as [B1 C1].
        split; [exact B1|]. intros Hm e [<-|He] Hq Hg; [|now apply C1].
        apply includes_In in Hq. congruence. }
    destruct (JsMap.get dist m) as [d|] eqn:Ed in H.
    2:{ destruct (IH _ _ _ _ _ _ H Hwr Hb Hdm Hbound) as [B1 C1].
        split; [exact B1|]. intros [d [Hd _]]. congruence. }
    destruct (JsMap.get dist (a_node e0)) as [dn|] eqn:En in H.
    2:{ destruct (IH _ _ _ _ _ _ H Hwr Hb Hdm Hbound) as [B1 C1].
        split; [exact B1|]. intros Hm e [<-|He] Hq Hg; [congruence | now apply C1]. }
    destruct (Num.ltb (Num.add d (a_weight e0)) dn) eqn:Hlt.
    2:{ destruct (IH _ _ _ _ _ _ H Hwr Hb Hdm Hbound) as [B1 C1].
        split; [exact B1|]. intros Hm e [<-|He] Hq Hg; [|now apply C1].
        destruct (relax_spec _ _ _ _ _ _ _ _ _ H) as (_ & _ & _ & R2 & _).
        apply R2. exists dn. split; [exact En|].
        destruct Hm as [d' [Hd' Hbelow]].
        assert (d' = d) by congruence. subst d'.
        destruct (Hdm d Ed) as [->|Hr]; [discriminate|].
        destruct (add_in_range B W d (a_weight e0) Hr Hw0 Hb) as [_ Hr'].
        apply (ltb_false_below _ _ Hlt). exact (in_range_below _ _ Hr'). }
    pose proof (ltb_true_below _ _ Hlt) as Halt.
    destruct (Hdm d Ed) as [->|Hr]; [discriminate|].
    destruct (add_in_range B W d (a_weight e0) Hr Hw0 Hb) as [Hsum Hr'].
    set (n := a_node e0) in *.
    set (alt := Num.add d (a_weight e0)) in *.
    assert (Hnm : n <> m).
    { intros E. rewrite E, Ed in En. injection En as <-.
      destruct Hr as [z [-> Hz]]. rewrite Hsum in Hlt. simpl in Hlt.
      apply Z.ltb_lt in Hlt. lia. }
    destruct (IH (JsMap.set dist n alt) (JsMap.set prev n (Some m)) _ _ _ _ H Hwr Hb)
      as [B1 C1].
    { intros d'. rewrite map_get_set.
      destruct (Nat.eqb_spec n m); [contradiction|]. apply Hdm. }
    { intros k d'. rewrite map_get_set.
      destruct (Nat.eqb_spec n k) as [<-|Hne]; [|apply Hbound].
      intros E. injection E as <-. right. exact Hr'. }
    split; [exact B1|].
    destruct (relax_spec _ _ _ _ _ _ _ _ _ H) as (_ & _ & _ & R2 & _).
    intros Hm e [<-|He] Hq Hg.
    + apply R2, dfin_set. left. split; [reflexivity | exact Halt].
    + apply C1; auto.
      * destruct (Nat.eq_dec n m) as [E|Hne]; [contradiction|].
        apply dfin_set. right. split; [exact Hne | exact Hm].
      * rewrite map_get_set. destruct (Nat.eqb n (a_node e)); [discriminate | exact Hg].
Qed.

Lemma dfin_dec dist k : {dfin dist k} + {~ dfin dist k}.
Proof.
  destruct (Trace.dist_finite dist k) eqn:E.
  - left. now apply dist_finite_dfin.
  - right. intros H. apply dist_finite_dfin in H. congruence.
Qed.

Lemma dfin_has_key dist k : dfin dist k -> JsMap.get dist k <> None.
Proof. intros [d [H _]]. congruence. Qed.

(** A stored distance that is not below [Infinity] is [Infinity]. *)
Lemma not_dfin_infinity dist k d :
  JsMap.get dist k = Some d -> ~ dfin dist k -> d = Num.Infinity.
Proof.
  intros Hd Hn. destruct d as [z| |]; [|reflexivity|];
    exfalso; apply Hn; eexists; (split; [exact Hd | reflexivity]).
Qed.

Lemma includes_cons a l k : includes (a :: l) k = Nat.eqb k a || includes l k.
Proof. reflexivity. Qed.

Lemma dijkstra_init_spec sid ids : forall dist0 prev0 queue0 dist prev queue,
  fold_left
    (fun (st : Trace.DistMap * Trace.PrevMap * list nat) id =>
       let '(dist, prev, queue) := st in
       (JsMap.set dist id (if Nat.eqb id sid then Num.Fin 0 else Num.Infinity),
        JsMap.set prev id None,
        queue ++ [id]))
    ids (dist0, prev0, queue0) = (dist, prev, queue) ->
  queue = queue0 ++ ids
  /\ (forall k, JsMap.get dist k =
                if includes ids k
                then Some (if Nat.eqb k sid then Num.Fin 0 else Num.Infinity)
                else JsMap.get dist0 k)
  /\ (forall k, JsMap.get prev k =
                if includes ids k then Some None else JsMap.get prev0 k).
Proof.
  induction ids as [|a ids IH]; intros dist0 prev0 queue0 dist prev queue H.
  - simpl in H. injection H as <- <- <-. rewrite app_nil_r. repeat split.
  - simpl in H. destruct (IH _ _ _ _ _ _ H) as (Hq & Hd & Hp).
    split; [rewrite Hq, <- app_assoc; reflexivity|].
    split; intros k; rewrite includes_cons, ?Hd, ?Hp, map_get_set;
      rewrite (Nat.eqb_sym a k);
      destruct (Nat.eqb_spec k a) as [->|Hne]; simpl;
      destruct (includes ids _); reflexivity.
Qed.

Lemma walk_prev_null fuel prev p : Trace.walk_prev fuel prev None p = Done p.
Proof. destruct fuel; reflexivity. Qed.

Lemma dijkstra_loop_eq fuel s goal q0 queue dist prev acc :
  Trace.dijkstra_loop (S fuel) s goal (q0 :: queue) dist prev acc =
  (minNode <- must (Trace.find_min dist (q0 :: queue)) ;;
   let queue1 := splice_indexOf (q0 :: queue) minNode in
   currentRef <- must (find_node s minNode) ;;
   let acc1 :=
     acc ++ [mkStep (VisitingWithDistance (label_or_id (node_of s currentRef))
                       (JsMap.get dist minNode))
               queue1 (Trace.dijkstra_visited dist queue1) []
               (DistAux (Trace.fromEntries dist))] in
   goalRef <- must goal ;;
   if Nat.eqb minNode (n_id (node_of s goalRef))
   then
     p <- Trace.walk_prev fuel prev (Some minNode) [] ;;
     Done (dist,
           acc1 ++ [mkStep (FoundShortestPath (JsMap.get dist minNode))
                      queue1 (Trace.dijkstra_visited dist queue1) p
                      (DistAux (Trace.fromEntries dist))])
   else
     let '(dist1, prev1, acc2) :=
       Trace.relax minNode (Trace.neighbors_of s minNode) queue1 dist prev acc1 in
     Trace.dijkstra_loop fuel s goal queue1 dist1 prev1 acc2).
Proof. reflexivity. Qed.

(** The largest weight of the adjacency index, 0 when it is empty. *)
Definition max_weight (s : State) : Z :=
  fold_right
    (fun kv acc => fold_right (fun e acc => Z.max (a_weight e) acc) acc (snd kv))
    0%Z (adj s).

Lemma max_weight_nonneg s : (0 <= max_weight s)%Z.
Proof.
  unfold max_weight. induction (adj s) as [|[k l] m IH]; simpl; [lia|].
  induction l as [|e l IHl]; simpl; lia.
Qed.

Lemma max_weight_bounds s k e :
  In e (Trace.neighbors_of s k) -> (a_weight e <= max_weight s)%Z.
Proof.
  unfold Trace.neighbors_of, max_weight. intros Hin.
  destruct (JsMap.get (adj s) k) as [l|] eqn:Hget; [|contradiction].
  assert (Hkl : In (k, l) (adj s)).
  { clear Hin. induction (adj s) as [|[k' l'] m IH]; simpl in *; [discriminate|].
    destruct (Nat.eqb_spec k' k) as [->|Hne].
    - injection Hget as ->. now left.
    - right. auto. }
  clear Hget. induction (adj s) as [|[k' l'] m IH]; [contradiction|].
  simpl.
  assert (Hmono : forall (l0 : list AdjEntry) a,
             (a <= fold_right (fun e acc => Z.max (a_weight e) acc) a l0)%Z).
  { induction l0 as [|e1 l0 IHl]; intros a; simpl; [lia|].
    specialize (IHl a). lia. }
  destruct Hkl as [E|Hkl].
  - injection E as -> ->. clear IH.
    induction l as [|e1 l IHl]; [contradiction|]. simpl.
    destruct Hin as [->|Hin]; [lia|]. specialize (IHl Hin). lia.
  - specialize (IH Hkl). etransitivity; [exact IH | apply Hmono].
Qed.

Section DijkstraSound.

Variables (s : State) (sid gid : nat) (goalRef : ref).
Hypothesis Hgoal : goalNode s = Some goalRef.
Hypothesis Hgid : n_id (node_of s goalRef) = gid.
Hypothesis Hstart : In sid (node_ids s).

(** What holds of the queue and the maps throughout the main loop: the keys
    are the node ids, and a finite distance is held by reachable nodes
    only. *)
Definition dsound (queue : list nat) (dist : Trace.DistMap) (prev : Trace.PrevMap)
  : Prop :=
  (forall k, In k (node_ids s) <-> JsMap.get dist k <> None)
  /\ (forall k, In k queue -> In k (node_ids s))
  /\ (forall k, In k (node_ids s) -> JsMap.get prev k <> None)
  /\ prev_ok dist prev
  /\ (forall k, dfin dist k -> reach s sid k)
  /\ dfin dist sid.

Lemma dsound_round q0 queue dist prev acc m dist1 prev1 acc1 :
  dsound (q0 :: queue) dist prev ->
  In m (q0 :: queue) ->
  Trace.relax m (Trace.neighbors_of s m) (splice_indexOf (q0 :: queue) m)
    dist prev acc = (dist1, prev1, acc1) ->
  dsound (splice_indexOf (q0 :: queue) m) dist1 prev1.
Proof.
  intros (I1 & I2 & I3 & I4 & I5 & I6) Hm Hrelax.
  destruct (splice_indexOf_spec (q0 :: queue) m Hm) as (_ & Hsub & Hsup).
  destruct (relax_spec _ _ _ _ _ _ _ _ _ Hrelax) as (R1 & Rp & Rpo & R2 & R3 & _).
  unfold dsound. split; [intros k; rewrite R1; apply I1|].
  split; [intros k Hk; apply I2, Hsub, Hk|].
  split; [intros k Hk; apply Rp, I3, Hk|].
  split; [apply Rpo, I4|].
  split; [|apply R2, I6].
  intros k Hk. destruct (R3 k Hk) as [Hold|(Hfm & _ & e & He & <-)].
  - apply I5, Hold.
  - eapply reach_next; [apply I5, Hfm | exact He].
Qed.

Hypothesis Hcut : ~ reach s sid gid.

(** The goal stays in the queue until the scan picks it, at distance
    [Infinity] and with no predecessor: the loop ends there, on a step that
    reports a found path made of the goal alone. *)
Lemma dijkstra_loop_reports_goal : forall fuel queue dist prev acc,
  dsound queue dist prev ->
  In gid queue ->
  JsMap.get prev gid = Some None ->
  List.length queue < fuel ->
  exists dist1 acc1 found,
    Trace.dijkstra_loop fuel s (goalNode s) queue dist prev acc
    = Done (dist1, acc1 ++ [found])
    /\ desc found = FoundShortestPath (Some Num.Infinity)
    /\ path found = [gid]
    /\ ~ In gid (visited found)
    /\ (forall k, In k (node_ids s) <-> JsMap.get dist1 k <> None)
    /\ (forall v, dfin dist1 v -> reach s sid v).
Proof.
  induction fuel as [|fuel IH]; intros queue dist prev acc Hinv Hg Hprev Hlen; [lia|].
  destruct queue as [|q0 queue]; [contradiction|].
  rewrite dijkstra_loop_eq.
  pose proof Hinv as (I1 & I2 & I3 & I4 & I5 & I6).
  destruct (find_min_spec dist q0 queue) as [m [Hmin [Hm Hfinite]]].
  { intros q Hq. apply I1, I2, Hq. }
  rewrite Hmin. cbn [must bind].
  destruct (find_node_some s m (I2 m Hm)) as [r Hr].
  rewrite Hr, Hgoal. cbn [must bind]. rewrite Hgid.
  destruct (splice_indexOf_spec (q0 :: queue) m Hm) as (Hl & Hsub & Hsup).
  destruct (Nat.eqb_spec m gid) as [->|Hne].
  - assert (Hinf : ~ dfin dist gid) by (intros H; apply Hcut, I5, H).
    destruct fuel as [|fuel]; [simpl in Hlen; lia|].
    cbn [Trace.walk_prev]. rewrite Hprev, walk_prev_null. cbn [bind].
    destruct (JsMap.get dist gid) as [d|] eqn:Hd;
      [|exfalso; apply (proj1 (I1 gid)); auto].
    rewrite (not_dfin_infinity dist gid d Hd Hinf).
    eexists _, _, _. split; [reflexivity|]. cbn [desc path visited].
    split; [reflexivity|]. split; [reflexivity|].
    split; [|split; [exact I1 | exact I5]].
    unfold Trace.dijkstra_visited. rewrite filter_In.
    intros [_ H]. apply andb_true_iff in H. destruct H as [_ H].
    apply Hinf, dist_finite_dfin, H.
  - destruct (Trace.relax m (Trace.neighbors_of s m)
                (splice_indexOf (q0 :: queue) m) dist prev _)
      as [[dist1 prev1] acc1] eqn:Hrelax.
    assert (Hg1 : In gid (splice_indexOf (q0 :: queue) m)).
    { destruct (Hsup gid Hg) as [E|H]; [congruence | exact H]. }
    assert (Hprev1 : JsMap.get prev1 gid = Some None).
    { destruct (relax_spec _ _ _ _ _ _ _ _ _ Hrelax) as (_ & Rp & Rpo & _ & R3 & _).
      destruct (JsMap.get prev1 gid) as [[p|]|] eqn:Hp.
      - exfalso. apply Hcut.
        assert (Hf : dfin dist1 gid) by (eapply (Rpo I4); exact Hp).
        destruct (R3 gid Hf) as [Hold|(Hfm & _ & e & He & <-)].
        + apply I5, Hold.
        + eapply reach_next; [apply I5, Hfm | exact He].
      - reflexivity.
      - exfalso. apply (Rp gid); [congruence | exact Hp]. }
    rewrite <- Hgoal. apply IH; auto.
    + eapply dsound_round; eauto.
    + rewrite <- Hl in Hlen. lia.
Qed.

End DijkstraSound.

(** The maps the initialisation loop builds: every node id is queued, the
    start is at distance 0 and the others at [Infinity], and no node has a
    predecessor. *)
Lemma dijkstra_init_sound s sid dist prev queue :
  In sid (node_ids s) ->
  Trace.dijkstra_init sid (node_ids s) = (dist, prev, queue) ->
  queue = node_ids s
  /\ dsound s sid (node_ids s) dist prev
  /\ (forall k, In k (node_ids s) -> JsMap.get prev k = Some None)
  /\ (forall k, dfin dist k -> k = sid)
  /\ dbound 0 dist.
Proof.
  intros Hin Hinit. unfold Trace.dijkstra_init in Hinit.
  destruct (dijkstra_init_spec _ _ _ _ _ _ _ _ Hinit) as (Hq & Hd & Hp).
  simpl in Hq. subst queue.
  assert (Honly : forall k, dfin dist k -> k = sid).
  { intros k [d [Hz Hb]]. rewrite Hd in Hz.
    destruct (includes (node_ids s) k); [|discriminate].
    destruct (Nat.eqb_spec k sid); [assumption|].
    injection Hz as <-. discriminate. }
  split; [reflexivity|].
  split.
  { unfold dsound. split.
    { intros k. rewrite Hd. split.
      - intros H. apply includes_In in H. rewrite H. discriminate.
      - destruct (includes (node_ids s) k) eqn:E; [intros _; now apply includes_In|].
        simpl. congruence. }
    split; [auto|].
    split.
    { intros k H. rewrite Hp. apply includes_In in H. rewrite H. discriminate. }
    split.
    { intros k p H. rewrite Hp in H.
      destruct (includes (node_ids s) k); discriminate. }
    split; [intros k Hk; rewrite (Honly k Hk); apply reach_here|].
    exists (Num.Fin 0). rewrite Hd. apply includes_In in Hin. rewrite Hin.
    rewrite Nat.eqb_refl. split; reflexivity. }
  split.
  { intros k H. rewrite Hp. apply includes_In in H. now rewrite H. }
  split; [exact Honly|].
  intros k d. rewrite Hd.
  destruct (includes (node_ids s) k); [|discriminate].
  destruct (Nat.eqb k sid); intros E; injection E as <-; [right | now left].
  exists 0%Z. split; [reflexivity | lia].
Qed.

(** C1.  The claim fails for the shortest-path generator.  Whenever the goal
    is a stored node that cannot be reached from the start, the trace ends
    with two steps: a step that reports a found shortest path of distance
    [Infinity] whose path is the one-element path of the goal, then the
    closing step.  The closing step has an empty path and a visited set that
    lies within the nodes reachable from the start, the goal not among them;
    the step before it is the one the claim rules out. *)
Theorem dijkstra_reports_path_to_unreachable_goal s startRef goalRef fuel :
  startNode s = Some startRef ->
  goalNode s = Some goalRef ->
  In (n_id (node_of s startRef)) (node_ids s) ->
  In (n_id (node_of s goalRef)) (node_ids s) ->
  ~ reach s (n_id (node_of s startRef)) (n_id (node_of s goalRef)) ->
  List.length (nodes s) < fuel ->
  exists trace found last,
    Trace.prepareDijkstra fuel s = Done (trace ++ [found; last])
    /\ desc found = FoundShortestPath (Some Num.Infinity)
    /\ path found = [n_id (node_of s goalRef)]
    /\ ~ In (n_id (node_of s goalRef)) (visited found)
    /\ desc last = Completed dijkstra
    /\ path last = []
    /\ ~ In (n_id (node_of s goalRef)) (visited last)
    /\ (forall v, In v (visited last) -> reach s (n_id (node_of s startRef)) v).
Proof.
  intros Hs Hg Hin Hgin Hcut Hfuel.
  set (sid := n_id (node_of s startRef)) in *.
  set (gid := n_id (node_of s goalRef)) in *.
  unfold Trace.prepareDijkstra. rewrite Hs. cbn [must bind]. fold sid.
  destruct (Trace.dijkstra_init sid (node_ids s)) as [[dist prev] queue] eqn:Hinit.
  destruct (dijkstra_init_sound s sid dist prev queue Hin Hinit)
    as (-> & Hinv & Hprev & _ & _).
  destruct (dijkstra_loop_reports_goal s sid gid goalRef Hg eq_refl Hcut
              fuel (node_ids s) dist prev
              [mkStep (StartingDijkstra (label_or_id (node_of s startRef)))
                 (node_ids s) [] [] (DistAux (Trace.fromEntries dist))]
              Hinv Hgin (Hprev gid Hgin))
    as (dist1 & acc1 & found & Hloop & Hd & Hp & Hv & Hkeys & Hsound).
  { unfold node_ids. rewrite length_map. exact Hfuel. }
  rewrite Hloop. cbn [bind].
  exists acc1, found. eexists. split.
  { rewrite <- app_assoc. reflexivity. }
  cbn [desc path visited].
  split; [exact Hd|]. split; [exact Hp|]. split; [exact Hv|].
  split; [reflexivity|]. split; [reflexivity|].
  assert (Hvis : forall v, In v (filter (Trace.dist_finite dist1) (JsMap.keys dist1))
                           -> reach s sid v).
  { intros v Hin'. apply filter_In in Hin'. destruct Hin' as [_ H].
    apply Hsound, dist_finite_dfin, H. }
  split; [|exact Hvis].
  intros H. apply Hcut, Hvis, H.
Qed.

Lemma cut_off_component v : reach cut_off 0 v -> v = 0 \/ v = 1.
Proof.
  induction 1 as [|v e Hr IH Hin]; [now left|].
  destruct IH as [->| ->]; vm_compute in Hin;
    destruct Hin as [<-|[]]; simpl; auto.
Qed.

Lemma cut_off_unreachable :
  ~ reach cut_off (n_id (node_of cut_off 0)) (n_id (node_of cut_off 2)).
Proof.
  change (~ reach cut_off 0 2).
  intros H. apply cut_off_component in H. destruct H; discriminate.
Qed.

(** The theorem at the session in which nodes 0 and 1 are joined, node 0 is
    the start and node 2 the goal. *)
Lemma dijkstra_reports_path_to_unreachable_goal_witness :
  startNode cut_off = Some 0
  /\ goalNode cut_off = Some 2
  /\ In (n_id (node_of cut_off 0)) (node_ids cut_off)
  /\ In (n_id (node_of cut_off 2)) (node_ids cut_off)
  /\ ~ reach cut_off (n_id (node_of cut_off 0)) (n_id (node_of cut_off 2))
  /\ List.length (nodes cut_off) < 4
  /\ exists trace found last,
       Trace.prepareDijkstra 4 cut_off = Done (trace ++ [found; last])
       /\ desc found = FoundShortestPath (Some Num.Infinity)
       /\ path found = [2]
       /\ desc last = Completed dijkstra
       /\ path last = [].
Proof.
  assert (Hs : startNode cut_off = Some 0) by (vm_compute; reflexivity).
  assert (Hg : goalNode cut_off = Some 2) by (vm_compute; reflexivity).
  assert (Hin : In (n_id (node_of cut_off 0)) (node_ids cut_off))
    by (vm_compute; auto).
  assert (Hgin : In (n_id (node_of cut_off 2)) (node_ids cut_off))
    by (vm_compute; auto).
  assert (Hlen : List.length (nodes cut_off) < 4) by (vm_compute; lia).
  repeat (split; [assumption|]).
  split; [exact cut_off_unreachable|].
  split; [exact Hlen|].
  destruct (dijkstra_reports_path_to_unreachable_goal cut_off 0 2 4
              Hs Hg Hin Hgin cut_off_unreachable Hlen)
    as (trace & found & last & Hrun & Hd & Hp & _ & Hl & Hpl & _).
  exists trace, found, last. repeat split; assumption.
Defined.

(** The whole trace of that session: the goal is taken from the queue at
    distance [Infinity], and the step before the closing one reports a found
    path of that distance, made of the goal alone. *)
Lemma dijkstra_cut_off_trace :
  option_map (map (fun st => (desc st, path st, visited st)))
    (match Trace.prepareDijkstra 4 cut_off with
     | Done trace => Some trace
     | _ => None
     end)
  = Some
      [ (StartingDijkstra (ShownLabel "0"), [], []);
        (VisitingWithDistance (ShownLabel "0") (Some (Num.Fin 0)), [], [0]);
        (UpdatedDistance 1 (Num.Fin 3), [], [0]);
        (VisitingWithDistance (ShownLabel "1") (Some (Num.Fin 3)), [], [0; 1]);
        (VisitingWithDistance (ShownLabel "2") (Some Num.Infinity), [], [0; 1]);
        (FoundShortestPath (Some Num.Infinity), [2], [0; 1]);
        (Completed dijkstra, [], [0; 1]) ].
Proof. vm_compute. reflexivity. Qed.

(** The heuristic search on the same session has no such step. *)
Lemma astar_cut_off_trace :
  option_map (map (fun st => (desc st, path st, visited st)))
    (match Trace.prepareAStar no_heuristic exact_fadd 4 cut_off with
     | Done trace => Some trace
     | _ => None
     end)
  = Some
      [ (StartingAStar (ShownLabel "0"), [], []);
        (VisitingWithFScore 0 (FFin (0%Z, 1%positive)), [], [0]);
        (UpdatedScores 1 (Num.Fin 3) (FFin (3%Z, 1%positive)), [], [0]);
        (VisitingWithFScore 1 (FFin (3%Z, 1%positive)), [], [0; 1]);
        (Completed astar, [], [0; 1]) ].
Proof. vm_compute. reflexivity. Qed.

(** *** Dijkstra: the closing visited set *)

Section DijkstraComplete.

Variables (s : State) (sid gid : nat) (goalRef : ref) (W : Z).
Hypothesis Hgoal : goalNode s = Some goalRef.
Hypothesis Hgid : n_id (node_of s goalRef) = gid.
Hypothesis Hclosed : adj_closed s = true.
Hypothesis Hcut : ~ reach s sid gid.
Hypothesis Hw : forall k e, In e (Trace.neighbors_of s k) -> (0 <= a_weight e <= W)%Z.
Hypothesis HW : (0 <= W)%Z.
Hypothesis Hsafe : (Z.of_nat (List.length (node_ids s)) * W < 2 ^ 53)%Z.

(** The invariant of the main loop: a node with a finite distance that left
    the queue has all its neighbours at a finite distance, and the
    distances stay small enough for the sums to be exact. *)
Definition dinv (queue : list nat) (dist : Trace.DistMap) (prev : Trace.PrevMap)
  : Prop :=
  dsound s sid queue dist prev
  /\ (forall u, dfin dist u -> ~ In u queue ->
        forall e, In e (Trace.neighbors_of s u) -> dfin dist (a_node e))
  /\ ((forall u, In u (node_ids s) -> ~ In u queue -> dfin dist u)
      \/ (forall q, In q queue -> ~ dfin dist q))
  /\ List.length queue <= List.length (node_ids s)
  /\ dbound ((Z.of_nat (List.length (node_ids s)) - Z.of_nat (List.length queue)) * W)
       dist.

Lemma finite_is_component dist :
  (forall k, dfin dist k -> reach s sid k) ->
  dfin dist sid ->
  (forall u, dfin dist u ->
     forall e, In e (Trace.neighbors_of s u) -> dfin dist (a_node e)) ->
  forall v, dfin dist v <-> reach s sid v.
Proof.
  intros Hsound Hs Hcl v. split; [apply Hsound|].
  induction 1 as [|v e Hr IH Hin]; [exact Hs | eapply Hcl; eauto].
Qed.

(** One round of the loop, away from the goal, keeps the invariant. *)
Lemma dinv_round q0 queue dist prev acc m dist1 prev1 acc1 :
  dinv (q0 :: queue) dist prev ->
  In m (q0 :: queue) ->
  (forall q, In q (q0 :: queue) -> dfin dist q -> dfin dist m) ->
  Trace.relax m (Trace.neighbors_of s m) (splice_indexOf (q0 :: queue) m)
    dist prev acc = (dist1, prev1, acc1) ->
  dinv (splice_indexOf (q0 :: queue) m) dist1 prev1.
Proof.
  intros (Hs & I7 & I8 & I9 & I10) Hm Hmin Hrelax.
  pose proof Hs as (I1 & I2 & I3 & I4 & I5 & I6).
  destruct (splice_indexOf_spec (q0 :: queue) m Hm) as (Hl & Hsub & Hsup).
  set (queue1 := splice_indexOf (q0 :: queue) m) in *.
  destruct (relax_spec _ _ _ _ _ _ _ _ _ Hrelax) as (R1 & Rp & Rpo & R2 & R3 & _).
  set (n := Z.of_nat (List.length (node_ids s))) in *.
  set (B := ((n - Z.of_nat (List.length (q0 :: queue))) * W)%Z) in *.
  assert (HB : (0 <= B)%Z) by (unfold B, n; nia).
  assert (HBW : (B + W = (n - Z.of_nat (List.length queue1)) * W)%Z).
  { unfold B. rewrite <- Hl. rewrite Nat2Z.inj_succ. ring. }
  assert (HBsafe : (B + W < 2 ^ 53)%Z).
  { rewrite HBW. unfold n in *. nia. }
  destruct (relax_bounded m queue1 W B _ _ _ _ _ _ _ Hrelax) as [Hb1 R4].
  { intros e He. eapply Hw. exact He. }
  { exact HBsafe. }
  { intros d Hd. eapply I10. exact Hd. }
  { intros k d Hd. destruct (I10 k d Hd) as [->|Hr]; [now left|].
    right. eapply in_range_le; [|exact Hr]. lia. }
  assert (Hgone : forall u, In u (q0 :: queue) -> ~ In u queue1 -> u = m).
  { intros u Hu Hn. destruct (Hsup u Hu); [assumption | contradiction]. }
  unfold dinv. split; [eapply dsound_round; eauto|].
  split.
  { intros u Hu Hnq e He.
    destruct (R3 u Hu) as [Hold|(_ & Hin & _)]; [|contradiction].
    destruct (in_dec Nat.eq_dec u (q0 :: queue)) as [Huq|Huq].
    - assert (u = m) by (apply Hgone; assumption). subst u.
      pose proof (neighbors_closed _ _ _ Hclosed He) as Hids.
      destruct (in_dec Nat.eq_dec (a_node e) queue1) as [Hq1|Hq1].
      + apply R4; auto. apply I1, Hids.
      + destruct (Nat.eq_dec (a_node e) m) as [->|Hne]; [apply R2, Hold|].
        assert (Hnq' : ~ In (a_node e) (q0 :: queue)).
        { intros Hc. apply Hne, Hgone; assumption. }
        destruct I8 as [Hleft|Hright].
        * apply R2, Hleft; assumption.
        * exfalso. apply (Hright m Hm Hold).
    - apply R2. eapply I7; eauto. }
  split.
  { destruct (dfin_dec dist m) as [Hfm|Hnm].
    - left. intros u Hu Hnq.
      destruct (in_dec Nat.eq_dec u (q0 :: queue)) as [Huq|Huq].
      + assert (u = m) by (apply Hgone; assumption). subst u. apply R2, Hfm.
      + destruct I8 as [Hleft|Hright].
        * apply R2, Hleft; assumption.
        * exfalso. apply (Hright m Hm Hfm).
    - right. intros q Hq Hfq.
      destruct (R3 q Hfq) as [Hold|(Hfm & _)]; [|contradiction].
      apply Hnm, (Hmin q); [apply Hsub, Hq | exact Hold]. }
  split; [rewrite <- Hl in I9; lia|].
  fold n. rewrite <- HBW. exact Hb1.
Qed.

(** With fuel beyond the length of the queue the loop ends, and the nodes
    with a finite distance are then the nodes reachable from the start. *)
Lemma dijkstra_loop_unreachable : forall fuel queue dist prev acc,
  dinv queue dist prev ->
  List.length queue < fuel ->
  exists dist1 acc1,
    Trace.dijkstra_loop fuel s (goalNode s) queue dist prev acc = Done (dist1, acc1)
    /\ (forall k, In k (node_ids s) <-> JsMap.get dist1 k <> None)
    /\ (forall v, dfin dist1 v <-> reach s sid v).
Proof.
  induction fuel as [|fuel IH]; intros queue dist prev acc Hinv Hlen; [lia|].
  pose proof Hinv as (Hs & I7 & I8 & I9 & I10).
  pose proof Hs as (I1 & I2 & I3 & I4 & I5 & I6).
  destruct queue as [|q0 queue].
  - exists dist, acc. split; [reflexivity|].
    split; [exact I1|].
    apply finite_is_component; auto. intros u Hu. apply I7; auto.
  - rewrite dijkstra_loop_eq.
    destruct (find_min_spec dist q0 queue) as [m [Hmin [Hm Hfinite]]].
    { intros q Hq. apply I1, I2, Hq. }
    rewrite Hmin. cbn [must bind].
    destruct (find_node_some s m (I2 m Hm)) as [r Hr].
    rewrite Hr, Hgoal. cbn [must bind]. rewrite Hgid.
    destruct (splice_indexOf_spec (q0 :: queue) m Hm) as (Hl & Hsub & Hsup).
    destruct (Nat.eqb_spec m gid) as [->|Hne].
    + assert (Hinf : ~ dfin dist gid) by (intros H; apply Hcut, I5, H).
      destruct fuel as [|fuel]; [simpl in Hlen; lia|].
      cbn [Trace.walk_prev].
      destruct (JsMap.get prev gid) as [[p|]|] eqn:Hp.
      * exfalso. apply Hinf. eapply I4. exact Hp.
      * rewrite walk_prev_null. cbn [bind].
        eexists _, _. split; [reflexivity|]. split; [exact I1|].
        apply finite_is_component; auto.
        intros u Hu. apply I7; auto.
        intros Hq. apply Hinf. apply (Hfinite u); assumption.
      * exfalso. apply (I3 gid); [apply I2, Hm | exact Hp].
    + destruct (Trace.relax m (Trace.neighbors_of s m)
                  (splice_indexOf (q0 :: queue) m) dist prev _)
        as [[dist1 prev1] acc1] eqn:Hrelax.
      rewrite <- Hgoal. apply IH.
      * eapply dinv_round; eauto.
      * rewrite <- Hl in Hlen. lia.
Qed.

End DijkstraComplete.

(** The sums of the generators are exact when the number of nodes times the
    largest weight stays below [2^53]. *)
Definition exact_sums (s : State) : Prop :=
  (Z.of_nat (List.length (nodes s)) * max_weight s < 2 ^ 53)%Z.

(** X1.  Dijkstra's closing step when the goal cannot be reached and the
    sums are exact: the generator returns a trace whose last step is the
    closing one, with an empty path and, as visited set, exactly the nodes
    that can be reached from the start along adjacency entries. *)
Theorem dijkstra_closing_step_visits_reachable s startRef goalRef fuel :
  startNode s = Some startRef ->
  goalNode s = Some goalRef ->
  In (n_id (node_of s startRef)) (node_ids s) ->
  adj_closed s = true ->
  positive_weights s = true ->
  exact_sums s ->
  ~ reach s (n_id (node_of s startRef)) (n_id (node_of s goalRef)) ->
  List.length (nodes s) < fuel ->
  exists trace last,
    Trace.prepareDijkstra fuel s = Done (trace ++ [last])
    /\ desc last = Completed dijkstra
    /\ path last = []
    /\ (forall v, In v (visited last) <-> reach s (n_id (node_of s startRef)) v).
Proof.
  intros Hs Hg Hin Hclosed Hpos Hsafe Hcut Hfuel.
  set (sid := n_id (node_of s startRef)) in *.
  unfold Trace.prepareDijkstra. rewrite Hs. cbn [must bind]. fold sid.
  destruct (Trace.dijkstra_init sid (node_ids s)) as [[dist prev] queue] eqn:Hinit.
  destruct (dijkstra_init_sound s sid dist prev queue Hin Hinit)
    as (-> & Hsound & _ & Honly & Hb0).
  assert (Hw : forall k e, In e (Trace.neighbors_of s k) ->
                           (0 <= a_weight e <= max_weight s)%Z).
  { intros k e He. split; [|eapply max_weight_bounds; exact He].
    pose proof (neighbors_positive _ _ _ Hpos He). lia. }
  assert (Hlen : List.length (node_ids s) = List.length (nodes s))
    by (unfold node_ids; apply length_map).
  assert (Hinv : dinv s sid (max_weight s) (node_ids s) dist prev).
  { unfold dinv. split; [exact Hsound|].
    split.
    { intros u Hu Hnq. exfalso. apply Hnq. rewrite (Honly u Hu). exact Hin. }
    split; [left; intros u Hu Hnq; contradiction|].
    split; [lia|].
    replace ((Z.of_nat (List.length (node_ids s))
              - Z.of_nat (List.length (node_ids s))) * max_weight s)%Z
      with 0%Z by ring.
    exact Hb0. }
  destruct (dijkstra_loop_unreachable s sid (n_id (node_of s goalRef)) goalRef
              (max_weight s) Hg eq_refl Hclosed Hcut Hw (max_weight_nonneg s)
              ltac:(rewrite Hlen; exact Hsafe)
              fuel (node_ids s) dist prev
              [mkStep (StartingDijkstra (label_or_id (node_of s startRef)))
                 (node_ids s) [] [] (DistAux (Trace.fromEntries dist))] Hinv)
    as [dist1 [acc1 [Hloop [Hkeys Hfin]]]].
  { rewrite Hlen. exact Hfuel. }
  rewrite Hloop. cbn [bind].
  eexists _, _. split; [reflexivity|]. cbn [desc path visited].
  split; [reflexivity|]. split; [reflexivity|].
  intros v. rewrite filter_In, dist_finite_dfin, <- Hfin.
  split; [tauto|]. intros H. split; [|exact H].
  apply map_get_in_keys, dfin_has_key, H.
Qed.

(** *** A-star: finite scores and the termination measure *)

Definition gfin (g : Trace.GScore) (k : nat) : Prop :=
  exists z, JsObj.get g k = Some (Num.Fin z).

(** Number of listed nodes whose score is [Infinity]. *)
Definition inf_count (g : Trace.GScore) (ids : list nat) : nat :=
  list_sum
    (map (fun k => match JsObj.get g k with
                   | Some Num.Infinity => 1
                   | _ => 0
                   end) ids).

(** Sum of the finite scores of the listed nodes. *)
Definition gsum (g : Trace.GScore) (ids : list nat) : nat :=
  list_sum
    (map (fun k => match JsObj.get g k with
                   | Some (Num.Fin z) => Z.to_nat z
                   | _ => 0
                   end) ids).

Lemma list_sum_le (f1 f2 : nat -> nat) l :
  (forall k, In k l -> f2 k <= f1 k) ->
  list_sum (map f2 l) <= list_sum (map f1 l).
Proof.
  induction l as [|a l IH]; intros H; simpl; [lia|].
  pose proof (H a (or_introl eq_refl)).
  assert (list_sum (map f2 l) <= list_sum (map f1 l))
    by (apply IH; intros k Hk; apply H; now right).
  lia.
Qed.

Lemma list_sum_lt (f1 f2 : nat -> nat) l n :
  (forall k, In k l -> f2 k <= f1 k) ->
  In n l -> f2 n < f1 n ->
  list_sum (map f2 l) < list_sum (map f1 l).
Proof.
  induction l as [|a l IH]; intros H Hin Hlt; [contradiction|]. simpl.
  pose proof (H a (or_introl eq_refl)).
  assert (Hrest : forall k, In k l -> f2 k <= f1 k)
    by (intros k Hk; apply H; now right).
  pose proof (list_sum_le f1 f2 l Hrest).
  destruct Hin as [->|Hin]; [lia|].
  pose proof (IH Hrest Hin Hlt). lia.
Qed.

Lemma list_sum_ones (A : Type) (l : list A) :
  list_sum (map (fun _ => 1) l) = List.length l.
Proof. induction l; simpl; auto. Qed.

(** A listed node with a finite score is not counted. *)
Lemma inf_count_lt g ids k :
  In k ids -> gfin g k -> inf_count g ids < List.length ids.
Proof.
  intros Hin [z Hz]. unfold inf_count.
  rewrite <- (list_sum_ones _ ids).
  apply list_sum_lt with (n := k); [|exact Hin|rewrite Hz; lia].
  intros k' _. destruct (JsObj.get g k') as [[| |]|]; lia.
Qed.

Lemma gfin_set g n v k :
  gfin (JsObj.set g n v) k <->
  (n = k /\ exists z, v = Num.Fin z) \/ (n <> k /\ gfin g k).
Proof.
  unfold gfin. rewrite obj_get_set.
  destruct (Nat.eqb_spec n k) as [->|Hne].
  - split.
    + intros [z H]. injection H as ->. left. eauto.
    + intros [[_ [z ->]]|[H _]]; [eauto | congruence].
  - split; [intros H; right; auto | intros [[H _]|[_ H]]; [congruence | exact H]].
Qed.

(** A score that goes down makes the measure go down: either one node less
    is at [Infinity], or as many are and the sum of the scores is smaller. *)
Lemma update_measure g ids n t gn :
  JsObj.get g n = Some gn ->
  In n ids ->
  Num.ltb (Num.Fin t) gn = true ->
  (0 <= t)%Z ->
  let g' := JsObj.set g n (Num.Fin t) in
  (gn = Num.Infinity /\ inf_count g' ids < inf_count g ids)
  \/ (exists z, gn = Num.Fin z /\ (t < z)%Z
                /\ inf_count g' ids = inf_count g ids
                /\ gsum g' ids < gsum g ids).
Proof.
  intros Hget Hin Hlt Ht g'. unfold inf_count, gsum.
  destruct gn as [z| |]; [| |discriminate].
  - right. simpl in Hlt. apply Z.ltb_lt in Hlt.
    exists z. split; [reflexivity|]. split; [exact Hlt|]. split.
    + f_equal. apply map_ext. intros k. unfold g'. rewrite obj_get_set.
      destruct (Nat.eqb_spec n k) as [<-|Hne]; [now rewrite Hget | reflexivity].
    + apply list_sum_lt with (n := n); [|exact Hin|].
      * intros k _. unfold g'. rewrite obj_get_set.
        destruct (Nat.eqb_spec n k) as [<-|Hne]; [rewrite Hget; lia | lia].
      * unfold g'. rewrite obj_get_set, Nat.eqb_refl, Hget. lia.
  - left. split; [reflexivity|].
    apply list_sum_lt with (n := n); [|exact Hin|].
    + intros k _. unfold g'. rewrite obj_get_set.
      destruct (Nat.eqb_spec n k) as [<-|Hne]; [rewrite Hget; lia | lia].
    + unfold g'. rewrite obj_get_set, Nat.eqb_refl, Hget. lia.
Qed.

Lemma lowest_f_in fScore openSet : forall first,
  Trace.lowest_f fScore openSet first = first
  \/ In (Trace.lowest_f fScore openSet first) openSet.
Proof.
  unfold Trace.lowest_f.
  induction openSet as [|q openSet IH]; intros first; simpl; [now left|].
  destruct (Trace.fltb_undef _ _).
  - destruct (IH q) as [->|H]; auto.
  - destruct (IH first) as [->|H]; auto.
Qed.

(** A set of nodes that holds the start, lies within what is reachable and
    is closed under adjacency is the set of reachable nodes. *)
Lemma closed_is_component s sid (P : nat -> Prop) :
  (forall k, P k -> reach s sid k) ->
  P sid ->
  (forall u, P u -> forall e, In e (Trace.neighbors_of s u) -> P (a_node e)) ->
  forall v, P v <-> reach s sid v.
Proof.
  intros Hsound Hs Hcl v. split; [apply Hsound|].
  induction 1 as [|v e Hr IH Hin]; [exact Hs | eapply Hcl; eauto].
Qed.

Section AStarUnreachable.

Variable euclid : NodeObj -> NodeObj -> fnum.
Variable fadd : Z -> fnum -> fnum.
Variables (s : State) (sid gid : nat) (goalRef : ref) (W : Z).
Hypothesis Hgoal : goalNode s = Some goalRef.
Hypothesis Hgid : n_id (node_of s goalRef) = gid.
Hypothesis Hclosed : adj_closed s = true.
Hypothesis Hw : forall k e, In e (Trace.neighbors_of s k) -> (0 < a_weight e <= W)%Z.
Hypothesis Hsafe : (Z.of_nat (List.length (node_ids s)) * W < 2 ^ 53)%Z.
Hypothesis Hcut : ~ reach s sid gid.

(** The largest score the nodes can hold when [inf_count] of them are
    still at [Infinity]. *)
Definition gbound (g : Trace.GScore) : Z :=
  ((Z.of_nat (List.length (node_ids s))
    - Z.of_nat (inf_count g (node_ids s)) - 1) * W)%Z.

(** What holds of the open set and the scores throughout. *)
Definition ascores (openSet : list nat) (g : Trace.GScore) (f : Trace.FScore)
  : Prop :=
  (forall k, In k (node_ids s) -> JsObj.get g k <> None)
  /\ (forall k, JsObj.get g k <> None -> In k (node_ids s))
  /\ (forall k d, JsObj.get g k = Some d ->
        d = Num.Infinity \/ in_range (gbound g) d)
  /\ (forall k, In k openSet -> gfin g k)
  /\ (forall k, In k openSet -> JsObj.get f k <> None)
  /\ (forall k, gfin g k -> reach s sid k).

(** The measure of a round: nodes at [Infinity] first, then twice the sum
    of the scores plus the size of the open set. *)
Definition below (openSet2 : list nat) (g2 : Trace.GScore)
  (openSet : list nat) (g : Trace.GScore) : Prop :=
  inf_count g2 (node_ids s) < inf_count g (node_ids s)
  \/ (inf_count g2 (node_ids s) = inf_count g (node_ids s)
      /\ 2 * gsum g2 (node_ids s) + List.length openSet2
         <= 2 * gsum g (node_ids s) + List.length openSet).

Lemma astar_neighbors_spec current visitedNodes :
  forall nbrs openSet g f c acc openSet2 g2 f2 c2 acc2,
  (forall e, In e nbrs -> In e (Trace.neighbors_of s current)) ->
  ascores openSet g f ->
  gfin g current ->
  Trace.astar_neighbors euclid fadd s current nbrs visitedNodes openSet g f c acc
  = (openSet2, g2, f2, c2, acc2) ->
  ascores openSet2 g2 f2
  /\ (forall k, gfin g k -> gfin g2 k)
  /\ (forall k, gfin g2 k -> gfin g k \/ In k openSet2)
  /\ (forall k, In k openSet -> In k openSet2)
  /\ (forall e, In e nbrs -> gfin g2 (a_node e))
  /\ below openSet2 g2 openSet g.
Proof.
  induction nbrs as [|e0 rest IH];
    intros openSet g f c acc openSet2 g2 f2 c2 acc2 Hnb Hsc Hcur H.
  - simpl in H. injection H as <- <- <- <- <-.
    split; [exact Hsc|]. repeat split; auto.
    + intros e [].
    + right. split; [reflexivity | lia].
  - simpl in H.
    pose proof Hsc as (K1 & K2 & N & O & F & A).
    assert (He0 : In e0 (Trace.neighbors_of s current)) by (apply Hnb; now left).
    assert (Hrest : forall e, In e rest -> In e (Trace.neighbors_of s current))
      by (intros e He; apply Hnb; now right).
    pose proof (neighbors_closed _ _ _ Hclosed He0) as Hn.
    pose proof (Hw _ _ He0) as Hw0.
    destruct Hcur as [zc Hzc]. rewrite Hzc in H.
    destruct (JsObj.get g (a_node e0)) as [gn|] eqn:Hgn;
      [|exfalso; apply (K1 _ Hn); exact Hgn].
    assert (Hzcr : (0 <= zc <= gbound g)%Z).
    { destruct (N _ _ Hzc) as [E|[z [E Hz]]]; [discriminate|].
      injection E as ->. exact Hz. }
    assert (Hic : (Z.of_nat (inf_count g (node_ids s)) >= 0)%Z) by lia.
    assert (Hexact : Num.add (Num.Fin zc) (a_weight e0)
                     = Num.Fin (zc + a_weight e0)).
    { apply add_exact. unfold gbound in Hzcr. nia. }
    rewrite Hexact in H.
    destruct (Num.ltb (Num.Fin (zc + a_weight e0)) gn) eqn:Hlt.
    + set (n := a_node e0) in *.
      set (t := (zc + a_weight e0)%Z) in *.
      set (g' := JsObj.set g n (Num.Fin t)) in *.
      set (openSet' := if includes openSet n then openSet else openSet ++ [n]) in *.
      assert (Ht : (0 <= t)%Z) by (unfold t; lia).
      assert (Hmono : forall k, gfin g k -> gfin g' k).
      { intros k Hk. destruct (Nat.eq_dec n k) as [<-|Hne]; apply gfin_set; eauto. }
      assert (Hn' : gfin g' n) by (apply gfin_set; eauto).
      assert (Hsub : forall k, In k openSet -> In k openSet').
      { intros k Hk. unfold openSet'. destruct (includes openSet n); auto.
        apply in_or_app. now left. }
      assert (Hnin : In n openSet').
      { unfold openSet'. destruct (includes openSet n) eqn:E.
        - now apply includes_In.
        - apply in_or_app. right. now left. }
      assert (Hopen : forall k, In k openSet' -> k = n \/ In k openSet).
      { intros k. unfold openSet'. destruct (includes openSet n); auto.
        intros Hk. apply in_app_or in Hk. destruct Hk as [?|[<-|[]]]; auto. }
      pose proof (update_measure g (node_ids s) n t gn Hgn Hn Hlt Ht) as Hupd.
      fold g' in Hupd.
      assert (Hbt : (gbound g <= gbound g')%Z /\ (t <= gbound g')%Z).
      { unfold gbound in *.
        destruct Hupd as [[-> Hless]|(z & -> & Htz & Heq & _)].
        - split; nia.
        - rewrite Heq. split; [lia|].
          destruct (N _ _ Hgn) as [E|[z' [E Hz']]]; [discriminate|].
          injection E as <-. lia. }
      assert (Hsc' : ascores openSet' g' (JsObj.set f n
                        (Trace.fplus fadd (Num.Fin t) (Trace.heuristic euclid s n)))).
      { unfold ascores. split.
        { intros k Hk. unfold g'. rewrite obj_get_set.
          destruct (Nat.eqb n k); [discriminate | auto]. }
        split.
        { intros k. unfold g'. rewrite obj_get_set.
          destruct (Nat.eqb_spec n k) as [<-|Hne]; auto. }
        split.
        { intros k d. unfold g' at 1. rewrite obj_get_set.
          destruct (Nat.eqb_spec n k) as [<-|Hne].
          - intros E. injection E as <-. right. exists t. split; [reflexivity|].
            split; [exact Ht | apply Hbt].
          - intros E. destruct (N _ _ E) as [->|Hr]; [now left|].
            right. apply (in_range_le (gbound g) (gbound g') d (proj1 Hbt) Hr). }
        split.
        { intros k Hk. destruct (Hopen k Hk) as [->|Hk']; auto. }
        split.
        { intros k Hk. rewrite obj_get_set.
          destruct (Nat.eqb_spec n k) as [<-|Hne]; [discriminate|].
          destruct (Hopen k Hk) as [->|Hk']; [congruence | auto]. }
        intros k Hk. apply gfin_set in Hk. destruct Hk as [[<- _]|[_ Hk]]; auto.
        eapply reach_next; [apply A; exists zc; exact Hzc | exact He0]. }
      destruct (IH _ _ _ _ _ _ _ _ _ _ Hrest Hsc' (Hmono current (ex_intro _ zc Hzc)) H)
        as (Hsc2 & M2 & New2 & Sub2 & Done2 & B2).
      split; [exact Hsc2|].
      split; [intros k Hk; apply M2, Hmono, Hk|].
      split.
      { intros k Hk. destruct (New2 k Hk) as [Hk'|Hk']; [|now right].
        apply gfin_set in Hk'. destruct Hk' as [[<- _]|[_ Hk']]; [|now left].
        right. apply Sub2, Hnin. }
      split; [intros k Hk; apply Sub2, Hsub, Hk|].
      split; [intros e [<-|He]; [apply M2, Hn' | apply Done2, He]|].
      assert (Hlen : List.length openSet' <= S (List.length openSet)).
      { unfold openSet'. destruct (includes openSet n); [lia|].
        rewrite length_app. simpl. lia. }
      unfold below in *.
      destruct Hupd as [[_ Hless]|(z & _ & _ & Heq & Hsum)]; lia.
    + assert (Hgfin : gfin g (a_node e0)).
      { destruct (N _ _ Hgn) as [->|[y [-> _]]]; [discriminate|].
        exists y. exact Hgn. }
      destruct (IH _ _ _ _ _ _ _ _ _ _ Hrest Hsc (ex_intro _ zc Hzc) H)
        as (Hsc2 & M2 & New2 & Sub2 & Done2 & B2).
      split; [exact Hsc2|]. split; [exact M2|]. split; [exact New2|].
      split; [exact Sub2|]. split; [|exact B2].
      intros e [<-|He]; [apply M2; exact Hgfin | apply Done2, He].
Qed.

(** The loop over the neighbours pushes steps without a path. *)
Lemma astar_neighbors_paths current visitedNodes :
  forall nbrs openSet g f c acc openSet2 g2 f2 c2 acc2,
  Trace.astar_neighbors euclid fadd s current nbrs visitedNodes openSet g f c acc
  = (openSet2, g2, f2, c2, acc2) ->
  (forall st, In st acc -> path st = []) ->
  forall st, In st acc2 -> path st = [].
Proof.
  induction nbrs as [|e0 rest IH];
    intros openSet g f c acc openSet2 g2 f2 c2 acc2 H Hacc.
  - simpl in H. injection H as <- <- <- <- <-. exact Hacc.
  - simpl in H.
    destruct (JsObj.get g current) as [gc|]; [|eapply IH; eauto].
    destruct (JsObj.get g (a_node e0)) as [gn|]; [|eapply IH; eauto].
    destruct (Num.ltb _ gn); [|eapply IH; eauto].
    eapply IH; [exact H|].
    intros st Hst. apply in_app_or in Hst.
    destruct Hst as [Hst|[<-|[]]]; [auto | reflexivity].
Qed.

Lemma astar_loop_eq fuel first rest g f c acc :
  Trace.astar_loop euclid fadd (S fuel) s (first :: rest) g f c acc =
  (let openSet := first :: rest in
   let current := Trace.lowest_f f openSet first in
   goalRef <- must (goalNode s) ;;
   let goalId := n_id (node_of s goalRef) in
   if Nat.eqb current goalId
   then
     p <- Trace.walk_cameFrom fuel c current [current] ;;
     Done (g, f,
           acc ++ [mkStep (FoundPath (JsObj.get g goalId)) openSet
                     (Trace.astar_visited g) p (ScoreAux g f)])
   else
     let openSet1 := splice_indexOf openSet current in
     let visitedNodes := Trace.astar_visited g in
     fv <- must (JsObj.get f current) ;;
     let acc1 :=
       acc ++ [mkStep (VisitingWithFScore current fv) openSet1
                 visitedNodes [] (ScoreAux g f)] in
     let '(openSet2, g2, f2, c2, acc2) :=
       Trace.astar_neighbors euclid fadd s current (Trace.neighbors_of s current)
         visitedNodes openSet1 g f c acc1 in
     Trace.astar_loop euclid fadd fuel s openSet2 g2 f2 c2 acc2).
Proof. reflexivity. Qed.

(** Every node with a finite score is in the open set or has all its
    neighbours at a finite score. *)
Definition settled (openSet : list nat) (g : Trace.GScore) : Prop :=
  forall u, gfin g u ->
    In u openSet
    \/ forall e, In e (Trace.neighbors_of s u) -> gfin g (a_node e).

(** The loop ends once it has enough fuel: each round makes the measure
    smaller.  The nodes with a finite score are then the reachable ones. *)
Lemma astar_loop_unreachable : forall a b openSet g f c acc,
  ascores openSet g f ->
  gfin g sid ->
  settled openSet g ->
  inf_count g (node_ids s) = a ->
  2 * gsum g (node_ids s) + List.length openSet = b ->
  (forall st, In st acc -> path st = []) ->
  exists fuel0 g1 f1 acc1,
    (forall fuel, fuel0 <= fuel ->
       Trace.astar_loop euclid fadd fuel s openSet g f c acc = Done (g1, f1, acc1))
    /\ (forall v, gfin g1 v <-> reach s sid v)
    /\ (forall k d, JsObj.get g1 k = Some d -> d <> Num.NegInfinity)
    /\ (forall st, In st acc1 -> path st = []).
Proof.
  induction a as [a IHa] using lt_wf_ind.
  induction b as [b IHb] using lt_wf_ind.
  intros openSet g f c acc Hsc Hs Hset Ha Hb Hacc.
  pose proof Hsc as (K1 & K2 & N & O & F & A).
  destruct openSet as [|first rest].
  - exists 0, g, f, acc. split; [intros [|fuel] _; reflexivity|].
    split.
    + apply closed_is_component; auto.
      intros u Hu. destruct (Hset u Hu) as [[]|H]. exact H.
    + split; [|exact Hacc].
      intros k d Hd. destruct (N _ _ Hd) as [->|[z [-> _]]]; discriminate.
  - set (openSet := first :: rest) in *.
    set (current := Trace.lowest_f f openSet first).
    assert (Hcur : In current openSet).
    { destruct (lowest_f_in f openSet first) as [E|H]; [|exact H].
      fold current in E. rewrite E. now left. }
    assert (Hne : current <> gid).
    { intros E. apply Hcut. rewrite <- E. apply A, O, Hcur. }
    destruct (JsObj.get f current) as [fv|] eqn:Hfv;
      [|exfalso; apply (F _ Hcur); exact Hfv].
    destruct (splice_indexOf_spec openSet current Hcur) as (Hl & Hsub & Hsup).
    set (openSet1 := splice_indexOf openSet current) in *.
    set (acc1 := acc ++ [mkStep (VisitingWithFScore current fv) openSet1
                           (Trace.astar_visited g) [] (ScoreAux g f)]).
    destruct (Trace.astar_neighbors euclid fadd s current
                (Trace.neighbors_of s current) (Trace.astar_visited g)
                openSet1 g f c acc1)
      as [[[[openSet2 g2] f2] c2] acc2] eqn:Hnb.
    assert (Hsc1 : ascores openSet1 g f).
    { unfold ascores. repeat split; auto. }
    destruct (astar_neighbors_spec current (Trace.astar_visited g)
                (Trace.neighbors_of s current) openSet1 g f c acc1
                openSet2 g2 f2 c2 acc2 (fun e H => H) Hsc1 (O _ Hcur) Hnb)
      as (Hsc2 & M2 & New2 & Sub2 & Done2 & B2).
    assert (Hset2 : settled openSet2 g2).
    { intros u Hu. destruct (New2 u Hu) as [Hold|Hin]; [|now left].
      destruct (Hset u Hold) as [Hin|Hcl].
      - destruct (Hsup u Hin) as [->|Hin1]; [|left; apply Sub2, Hin1].
        right. exact Done2.
      - right. intros e He. apply M2, Hcl, He. }
    assert (Hnext : exists fuel0 g1 f1 acc3,
               (forall fuel, fuel0 <= fuel ->
                  Trace.astar_loop euclid fadd fuel s openSet2 g2 f2 c2 acc2
                  = Done (g1, f1, acc3))
               /\ (forall v, gfin g1 v <-> reach s sid v)
               /\ (forall k d, JsObj.get g1 k = Some d -> d <> Num.NegInfinity)
               /\ (forall st, In st acc3 -> path st = [])).
    { assert (Hacc2 : forall st, In st acc2 -> path st = []).
      { apply (astar_neighbors_paths _ _ _ _ _ _ _ _ _ _ _ _ _ Hnb).
        intros st Hst. unfold acc1 in Hst. apply in_app_or in Hst.
        destruct Hst as [Hst|[<-|[]]]; [auto | reflexivity]. }
      destruct B2 as [Hlt|[Heq Hle]].
      - apply (IHa (inf_count g2 (node_ids s)))
          with (b := 2 * gsum g2 (node_ids s) + List.length openSet2);
          auto; try lia.
      - apply (IHb (2 * gsum g2 (node_ids s) + List.length openSet2));
          auto; try lia. }
    destruct Hnext as (fuel0 & g1 & f1 & acc3 & Hrun & Hfin).
    exists (S fuel0), g1, f1, acc3. split; [|exact Hfin].
    intros [|fuel] Hfuel; [lia|].
    unfold openSet. rewrite astar_loop_eq. cbv zeta.
    fold openSet. fold current. rewrite Hgoal. cbn [must bind]. rewrite Hgid.
    destruct (Nat.eqb_spec current gid) as [E|_]; [contradiction|].
    rewrite Hfv. cbn [must bind]. fold openSet1. fold acc1. rewrite Hnb.
    apply Hrun. lia.
Qed.

End AStarUnreachable.

Lemma astar_init_fold euclid s sid ids : forall g0 f0 g f,
  fold_left
    (fun (st : Trace.GScore * Trace.FScore) id =>
       let '(gScore, fScore) := st in
       (JsObj.set gScore id (if Nat.eqb id sid then Num.Fin 0 else Num.Infinity),
        JsObj.set fScore id
          (if Nat.eqb id sid then Trace.heuristic euclid s sid else FInf)))
    ids (g0, f0) = (g, f) ->
  (forall k, JsObj.get g k =
             if includes ids k
             then Some (if Nat.eqb k sid then Num.Fin 0 else Num.Infinity)
             else JsObj.get g0 k)
  /\ (forall k, JsObj.get f k =
                if includes ids k
                then Some (if Nat.eqb k sid then Trace.heuristic euclid s sid else FInf)
                else JsObj.get f0 k).
Proof.
  induction ids as [|a ids IH]; intros g0 f0 g f H.
  - simpl in H. injection H as <- <-. split; reflexivity.
  - simpl in H. destruct (IH _ _ _ _ H) as (Hg & Hf).
    split; intros k; rewrite includes_cons, ?Hg, ?Hf, obj_get_set;
      rewrite (Nat.eqb_sym a k);
      destruct (Nat.eqb_spec k a) as [->|Hne]; simpl;
      destruct (includes ids _); reflexivity.
Qed.

Lemma astar_visited_gfin g v :
  (forall k d, JsObj.get g k = Some d -> d <> Num.NegInfinity) ->
  In v (Trace.astar_visited g) <-> gfin g v.
Proof.
  intros Hneg. unfold Trace.astar_visited, gfin. rewrite filter_In, obj_get_in_keys.
  destruct (JsObj.get g v) as [[z| |]|] eqn:E; simpl; split.
  - eauto.
  - intros _. split; [discriminate | reflexivity].
  - intros [_ H]. discriminate.
  - intros [z H]. discriminate.
  - intros _. exfalso. exact (Hneg _ _ E eq_refl).
  - intros [z H]. discriminate.
  - intros [_ H]. discriminate.
  - intros [z H]. discriminate.
Qed.

(** X2.  The heuristic search when the goal cannot be reached and the
    sums are exact, for every heuristic: with enough fuel the generator
    returns a trace whose last step is the closing one, with an empty path
    and, as visited set, exactly the nodes that can be reached from the
    start; no step of the trace carries a path. *)
Theorem astar_closing_step_visits_reachable euclid fadd s startRef goalRef :
  startNode s = Some startRef ->
  goalNode s = Some goalRef ->
  In (n_id (node_of s startRef)) (node_ids s) ->
  adj_closed s = true ->
  positive_weights s = true ->
  exact_sums s ->
  ~ reach s (n_id (node_of s startRef)) (n_id (node_of s goalRef)) ->
  exists fuel0 trace last,
    (forall fuel, fuel0 <= fuel ->
       Trace.prepareAStar euclid fadd fuel s = Done (trace ++ [last]))
    /\ desc last = Completed astar
    /\ path last = []
    /\ (forall v, In v (visited last) <-> reach s (n_id (node_of s startRef)) v)
    /\ (forall st, In st trace -> path st = []).
Proof.
  intros Hs Hg Hin Hclosed Hpos Hsafe Hcut.
  set (sid := n_id (node_of s startRef)) in *.
  destruct (Trace.astar_init euclid s sid) as [g0 f0] eqn:Hinit.
  unfold Trace.astar_init in Hinit.
  destruct (astar_init_fold _ _ _ _ _ _ _ _ Hinit) as (Hg0 & Hf0).
  pose proof (proj2 (includes_In (node_ids s) sid) Hin) as Hinc.
  assert (Honly : forall k, gfin g0 k -> k = sid).
  { intros k [z Hz]. rewrite Hg0 in Hz.
    destruct (includes (node_ids s) k); [|discriminate].
    destruct (Nat.eqb_spec k sid); [assumption | discriminate]. }
  assert (Hsid : gfin g0 sid).
  { exists 0%Z. rewrite Hg0, Hinc, Nat.eqb_refl. reflexivity. }
  assert (Hw : forall k e, In e (Trace.neighbors_of s k) ->
                           (0 < a_weight e <= max_weight s)%Z).
  { intros k e He. split; [|eapply max_weight_bounds; exact He].
    exact (neighbors_positive _ _ _ Hpos He). }
  assert (Hlen : List.length (node_ids s) = List.length (nodes s))
    by (unfold node_ids; apply length_map).
  assert (Hsc : ascores s sid (max_weight s) [sid] g0 f0).
  { unfold ascores. split.
    { intros k H. apply includes_In in H. rewrite Hg0, H. discriminate. }
    split.
    { intros k. rewrite Hg0.
      destruct (includes (node_ids s) k) eqn:E; [intros _; now apply includes_In|].
      simpl. congruence. }
    split.
    { intros k d. rewrite Hg0.
      destruct (includes (node_ids s) k); [|discriminate].
      destruct (Nat.eqb k sid); intros E; injection E as <-; [right | now left].
      exists 0%Z. split; [reflexivity|]. unfold gbound.
      pose proof (inf_count_lt g0 (node_ids s) sid Hin Hsid).
      pose proof (max_weight_nonneg s). nia. }
    split; [intros k [<-|[]]; exact Hsid|].
    split.
    { intros k [<-|[]]. rewrite Hf0, Hinc. discriminate. }
    intros k Hk. rewrite (Honly k Hk). apply reach_here. }
  assert (Hset : settled s [sid] g0).
  { intros u Hu. left. left. symmetry. apply Honly, Hu. }
  destruct (astar_loop_unreachable euclid fadd s sid (n_id (node_of s goalRef))
              goalRef (max_weight s) Hg eq_refl Hclosed Hw
              ltac:(rewrite Hlen; exact Hsafe) Hcut
              _ _ [sid] g0 f0 []
              [mkStep (StartingAStar (label_or_id (node_of s startRef))) [sid] [] []
                 (ScoreAux g0 f0)] Hsc Hsid Hset eq_refl eq_refl)
    as (fuel0 & g1 & f1 & acc1 & Hrun & Hfin & Hneg & Hpaths).
  { intros st [<-|[]]. reflexivity. }
  eexists fuel0, _, _. split; [|split; [|split; [|split]]].
  - intros fuel Hfuel. unfold Trace.prepareAStar.
    rewrite Hs. cbn [must bind]. fold sid.
    unfold Trace.astar_init. rewrite Hinit.
    rewrite (Hrun fuel Hfuel). cbn [bind]. reflexivity.
  - reflexivity.
  - reflexivity.
  - intros v. cbn [visited]. rewrite (astar_visited_gfin _ _ Hneg). apply Hfin.
  - exact Hpaths.
Qed.

Lemma cut_off_facts :
  startNode cut_off = Some 0
  /\ goalNode cut_off = Some 2
  /\ In (n_id (node_of cut_off 0)) (node_ids cut_off)
  /\ adj_closed cut_off = true
  /\ positive_weights cut_off = true
  /\ exact_sums cut_off
  /\ List.length (nodes cut_off) < 4.
Proof.
  split; [vm_compute; reflexivity|].
  split; [vm_compute; reflexivity|].
  split; [vm_compute; auto|].
  split; [vm_compute; reflexivity|].
  split; [vm_compute; reflexivity|].
  split; [vm_compute; reflexivity|].
  vm_compute. lia.
Qed.

Lemma dijkstra_closing_step_visits_reachable_witness :
  exact_sums cut_off
  /\ ~ reach cut_off (n_id (node_of cut_off 0)) (n_id (node_of cut_off 2))
  /\ exists trace last,
       Trace.prepareDijkstra 4 cut_off = Done (trace ++ [last])
       /\ desc last = Completed dijkstra
       /\ path last = []
       /\ (forall v, In v (visited last)
                      <-> reach cut_off (n_id (node_of cut_off 0)) v).
Proof.
  destruct cut_off_facts as (Hs & Hg & Hin & Hc & Hp & He & Hlen).
  split; [exact He|]. split; [exact cut_off_unreachable|].
  exact (dijkstra_closing_step_visits_reachable cut_off 0 2 4
           Hs Hg Hin Hc Hp He cut_off_unreachable Hlen).
Defined.

Lemma astar_closing_step_visits_reachable_witness :
  exact_sums cut_off
  /\ ~ reach cut_off (n_id (node_of cut_off 0)) (n_id (node_of cut_off 2))
  /\ exists fuel0 trace last,
       (forall fuel, fuel0 <= fuel ->
          Trace.prepareAStar no_heuristic exact_fadd fuel cut_off
          = Done (trace ++ [last]))
       /\ desc last = Completed astar
       /\ path last = []
       /\ (forall v, In v (visited last)
                      <-> reach cut_off (n_id (node_of cut_off 0)) v)
       /\ (forall st, In st trace -> path st = []).
Proof.
  destruct cut_off_facts as (Hs & Hg & Hin & Hc & Hp & He & Hlen).
  split; [exact He|]. split; [exact cut_off_unreachable|].
  exact (astar_closing_step_visits_reachable no_heuristic exact_fadd cut_off 0 2
           Hs Hg Hin Hc Hp He cut_off_unreachable).
Defined.

(** * Part III: further properties of the operations *)

(** ** The history stack under [saveState], [undo] and [redo] *)

(** The stack holds at most 50 snapshots and the cursor is -1 (nothing
    recorded yet) or the position of a snapshot. *)
Definition cursor_ok (s : State) : Prop :=
  List.length (history s) <= 50
  /\ (-1 <= historyIndex s < Z.of_nat (List.length (history s)))%Z.

(** The history [saveState] leaves: the snapshots up to the cursor, the new
    one, and the oldest dropped beyond 50. *)
Definition pushed (s : State) : list Snapshot :=
  let h1 := firstn (Z.to_nat (historyIndex s + 1)) (history s) ++ [stateCopy s] in
  if (50 <? Z.of_nat (List.length h1))%Z then tl h1 else h1.

Lemma saveState_pushed s :
  (-1 <= historyIndex s < Z.of_nat (List.length (history s)))%Z ->
  history (saveState s) = pushed s
  /\ historyIndex (saveState s) = (Z.of_nat (List.length (pushed s)) - 1)%Z.
Proof.
  intros Hc.
  assert (Hhist :
    (if (historyIndex s <? Z.of_nat (List.length (history s)) - 1)%Z
     then slice0 (historyIndex s + 1) (history s)
     else history s)
    = firstn (Z.to_nat (historyIndex s + 1)) (history s)).
  { destruct (historyIndex s <? Z.of_nat (List.length (history s)) - 1)%Z eqn:E.
    - unfold slice0.
      destruct (historyIndex s + 1 <? 0)%Z eqn:E2; [|reflexivity].
      apply Z.ltb_lt in E2. lia.
    - apply Z.ltb_ge in E. symmetry. apply firstn_all2. lia. }
  unfold saveState, pushed. cbv zeta. rewrite Hhist.
  set (h1 := firstn _ _ ++ _).
  assert (Hne : List.length h1 <> 0) by (unfold h1; rewrite length_app; simpl; lia).
  clearbody h1.
  destruct (50 <? _)%Z; fields; split; try reflexivity.
  destruct h1 as [|x h1]; [simpl in Hne; congruence|].
  cbn [tl List.length]. lia.
Qed.

Lemma pushed_length s :
  cursor_ok s ->
  1 <= List.length (pushed s) <= 50
  /\ List.length (pushed s) <= Z.to_nat (historyIndex s + 2).
Proof.
  intros [Hlen Hc]. unfold pushed. cbv zeta.
  set (h1 := firstn _ _ ++ _).
  assert (Hl : List.length h1 = Z.to_nat (historyIndex s + 2)).
  { unfold h1. rewrite length_app, firstn_length_le; [simpl; lia | lia]. }
  destruct (50 <? Z.of_nat (List.length h1))%Z eqn:E.
  - apply Z.ltb_lt in E. destruct h1 as [|x h1]; simpl in *; lia.
  - apply Z.ltb_ge in E. lia.
Qed.

Lemma alloc_all_spec os : forall h,
  alloc_all h os = (h ++ os, seq (List.length h) (List.length os)).
Proof.
  induction os as [|o os IH]; intros h; simpl.
  - now rewrite app_nil_r.
  - rewrite IH, length_app, <- app_assoc. simpl.
    now rewrite Nat.add_1_r.
Qed.

Lemma deref_fresh os : forall h,
  map (deref (h ++ os)) (seq (List.length h) (List.length os)) = os.
Proof.
  induction os as [|o os IH]; intros h; simpl; [reflexivity|].
  unfold deref at 1. rewrite nth_middle. f_equal.
  specialize (IH (h ++ [o])).
  rewrite <- app_assoc, length_app in IH. simpl in IH.
  now rewrite Nat.add_1_r in IH.
Qed.

(** What [restoreState] leaves when the cursor is on a snapshot: fresh
    copies of the snapshot's nodes, its edges, and the index derived from
    them; the history itself is not touched. *)
Lemma restoreState_spec s snap :
  (0 <= historyIndex s)%Z ->
  nth_error (history s) (Z.to_nat (historyIndex s)) = Some snap ->
  exists s',
    restoreState s = Done s'
    /\ heap s' = heap s ++ h_nodes snap
    /\ nodes s' = seq (List.length (heap s)) (List.length (h_nodes snap))
    /\ map (node_of s') (nodes s') = h_nodes snap
    /\ edges s' = h_edges snap
    /\ adj s' = rebuild_adj (directed s) (map n_id (h_nodes snap)) (h_edges snap)
    /\ history s' = history s
    /\ historyIndex s' = historyIndex s
    /\ steps s' = steps s
    /\ directed s' = directed s
    /\ startNode s' = match h_startNode snap with
                      | Some r => find_node s' (n_id (node_of s' r))
                      | None => None
                      end
    /\ goalNode s' = match h_goalNode snap with
                     | Some r => find_node s' (n_id (node_of s' r))
                     | None => None
                     end.
Proof.
  intros Hpos Hnth. unfold restoreState.
  destruct (historyIndex s <? 0)%Z eqn:E; [apply Z.ltb_lt in E; lia|].
  rewrite Hnth. cbn [must bind]. rewrite alloc_all_spec.
  eexists. split; [reflexivity|].
  unfold updateAdjacencyList. fields.
  assert (Hvals :
    map (deref (heap s ++ h_nodes snap))
      (seq (List.length (heap s)) (List.length (h_nodes snap))) = h_nodes snap)
    by apply deref_fresh.
  split; [reflexivity|]. split; [reflexivity|].
  split; [unfold node_of; fields; exact Hvals|].
  split; [reflexivity|].
  split.
  { unfold node_ids, node_of. fields.
    rewrite <- (map_map (deref (heap s ++ h_nodes snap)) n_id), Hvals.
    reflexivity. }
  repeat split.
Qed.

Lemma nth_error_pushed_last s :
  List.length (pushed s) <> 0 ->
  nth_error (pushed s) (List.length (pushed s) - 1) = Some (stateCopy s).
Proof.
  unfold pushed. cbv zeta. set (pre := firstn _ _).
  intros Hne.
  destruct (50 <? _)%Z.
  - destruct pre as [|x pre]; simpl in *; [congruence|].
    rewrite length_app. simpl.
    replace (List.length pre + 1 - 1) with (List.length pre) by lia.
    now rewrite nth_error_app2, Nat.sub_diag by lia.
  - rewrite length_app. simpl.
    replace (List.length pre + 1 - 1) with (List.length pre) by lia.
    now rewrite nth_error_app2, Nat.sub_diag by lia.
Qed.

Lemma nth_error_before_last (A : Type) (pre : list A) a b :
  nth_error (pre ++ [a; b]) (List.length (pre ++ [a; b]) - 2) = Some a.
Proof.
  rewrite length_app. simpl.
  replace (List.length pre + 2 - 2) with (List.length pre) by lia.
  now rewrite nth_error_app2, Nat.sub_diag by lia.
Qed.

Lemma firstn_snoc (A : Type) (l : list A) : forall n x,
  nth_error l n = Some x -> firstn (S n) l = firstn n l ++ [x].
Proof.
  induction l as [|y l IH]; intros [|n] x H; simpl in *; try discriminate.
  - injection H as ->. reflexivity.
  - f_equal. apply IH, H.
Qed.

Lemma nth_error_pushed_before s snap :
  (0 <= historyIndex s)%Z ->
  nth_error (history s) (Z.to_nat (historyIndex s)) = Some snap ->
  2 <= List.length (pushed s)
  /\ nth_error (pushed s) (List.length (pushed s) - 2) = Some snap.
Proof.
  intros Hpos Hnth. unfold pushed. cbv zeta.
  replace (Z.to_nat (historyIndex s + 1)) with (S (Z.to_nat (historyIndex s)))
    by lia.
  rewrite (firstn_snoc _ _ _ _ Hnth), <- app_assoc. simpl.
  set (pre := firstn _ _).
  destruct (50 <? _)%Z eqn:E.
  - apply Z.ltb_lt in E. rewrite length_app in E. simpl in E.
    destruct pre as [|x pre]; [simpl in E; lia|].
    cbn [app tl]. split; [rewrite length_app; simpl; simpl in E; lia|].
    apply nth_error_before_last.
  - split; [rewrite length_app; simpl; lia|].
    apply nth_error_before_last.
Qed.

Ltac cursor_here :=
  unfold cursor_ok; vm_compute; repeat split; try lia; try discriminate.

Lemma saveState_cursor s :
  cursor_ok s ->
  cursor_ok (saveState s)
  /\ historyIndex (saveState s)
     = (Z.of_nat (List.length (history (saveState s))) - 1)%Z.
Proof.
  intros Hok. pose proof Hok as [Hlen Hc].
  destruct (saveState_pushed s Hc) as [Hh Hi].
  destruct (pushed_length s Hok) as [Hl _].
  split; [|rewrite Hi, Hh; reflexivity].
  unfold cursor_ok. rewrite Hh, Hi. lia.
Qed.

(** X3.  From any state whose cursor is -1 or on a snapshot of a stack of at
    most 50, [saveState], [undo] and [redo] lead to such a state again, and
    [undo] and [redo] return: [history[historyIndex]] is never read out of
    range. *)
Theorem history_cursor_stays_valid s :
  cursor_ok s ->
  cursor_ok (saveState s)
  /\ (exists s', undo s = Done s' /\ cursor_ok s')
  /\ (exists s', redo s = Done s' /\ cursor_ok s').
Proof.
  intros Hok. split; [apply saveState_cursor, Hok|].
  destruct Hok as [Hlen Hc]. split.
  - unfold undo. destruct (0 <? historyIndex s)%Z eqn:E.
    + apply Z.ltb_lt in E.
      destruct (restoreState_keeps_history (with_historyIndex (historyIndex s - 1) s))
        as [s' [Hr [Hh Hi]]]; [fields; lia|].
      exists s'. split; [exact Hr|]. unfold cursor_ok. rewrite Hh, Hi. fields. lia.
    + exists s. split; [reflexivity | split; assumption].
  - unfold redo.
    destruct (historyIndex s <? Z.of_nat (List.length (history s)) - 1)%Z eqn:E.
    + apply Z.ltb_lt in E.
      destruct (restoreState_keeps_history (with_historyIndex (historyIndex s + 1) s))
        as [s' [Hr [Hh Hi]]]; [fields; lia|].
      exists s'. split; [exact Hr|]. unfold cursor_ok. rewrite Hh, Hi. fields. lia.
    + exists s. split; [reflexivity | split; assumption].
Qed.

Lemma history_cursor_stays_valid_witness :
  cursor_ok three_nodes
  /\ cursor_ok (saveState three_nodes)
  /\ (exists s', undo three_nodes = Done s' /\ cursor_ok s')
  /\ (exists s', redo three_nodes = Done s' /\ cursor_ok s').
Proof.
  assert (H : cursor_ok three_nodes) by cursor_here.
  split; [exact H|]. exact (history_cursor_stays_valid three_nodes H).
Defined.

(** X4.  After [saveState] there is nothing to redo: the snapshots beyond
    the cursor are dropped, the new snapshot is the last one, and [redo]
    returns the state as it is. *)
Theorem redo_after_edit_is_noop s :
  cursor_ok s ->
  redo (saveState s) = Done (saveState s)
  /\ List.length (history (saveState s)) <= Z.to_nat (historyIndex s + 2)
  /\ nth_error (history (saveState s)) (Z.to_nat (historyIndex (saveState s)))
     = Some (stateCopy s).
Proof.
  intros Hok. destruct (saveState_cursor s Hok) as [_ Hi].
  pose proof Hok as [_ Hc].
  destruct (saveState_pushed s Hc) as [Hh Hi'].
  destruct (pushed_length s Hok) as [Hl Hl2].
  split; [|split].
  - unfold redo. rewrite Hi, Z.ltb_irrefl. reflexivity.
  - rewrite Hh. exact Hl2.
  - rewrite Hh, Hi'.
    replace (Z.to_nat (Z.of_nat (List.length (pushed s)) - 1))
      with (List.length (pushed s) - 1) by lia.
    apply nth_error_pushed_last. lia.
Qed.

Lemma redo_after_edit_is_noop_witness :
  cursor_ok (result_or three_nodes (undo three_nodes))
  /\ redo (saveState (result_or three_nodes (undo three_nodes)))
     = Done (saveState (result_or three_nodes (undo three_nodes))).
Proof.
  assert (H : cursor_ok (result_or three_nodes (undo three_nodes)))
    by cursor_here.
  split; [exact H|].
  exact (proj1 (redo_after_edit_is_noop _ H)).
Defined.

Lemma undo_after_edit_full s snap :
  cursor_ok s ->
  (0 <= historyIndex s)%Z ->
  nth_error (history s) (Z.to_nat (historyIndex s)) = Some snap ->
  exists s',
    undo (saveState s) = Done s'
    /\ map (node_of s') (nodes s') = h_nodes snap
    /\ edges s' = h_edges snap
    /\ adj s' = rebuild_adj (directed s) (map n_id (h_nodes snap)) (h_edges snap)
    /\ history s' = history (saveState s)
    /\ historyIndex s' = (historyIndex (saveState s) - 1)%Z
    /\ heap s' = heap s ++ h_nodes snap
    /\ directed s' = directed s.
Proof.
  intros Hok Hpos Hnth. pose proof Hok as [_ Hc].
  destruct (saveState_pushed s Hc) as [Hh Hi].
  destruct (nth_error_pushed_before s snap Hpos Hnth) as [H2 Hbefore].
  unfold undo.
  destruct (0 <? historyIndex (saveState s))%Z eqn:E;
    [|apply Z.ltb_ge in E; lia].
  destruct (restoreState_spec
              (with_historyIndex (historyIndex (saveState s) - 1) (saveState s)) snap)
    as (s' & Hr & Hheap & _ & Hv & He & Ha & Hhist & Hidx & _ & Hdir & _).
  - fields. lia.
  - fields. rewrite Hh, Hi.
    replace (Z.to_nat (Z.of_nat (List.length (pushed s)) - 1 - 1))
      with (List.length (pushed s) - 2) by lia.
    exact Hbefore.
  - exists s'. split; [exact Hr|]. split; [exact Hv|]. split; [exact He|].
    fields. destruct (saveState_shape s) as [h [i Hshape]].
    rewrite Hshape in Ha, Hheap, Hdir. fields.
    repeat split; assumption.
Qed.

(** X5.  [undo] right after an edit brings back the snapshot the cursor was
    on before the edit: the node objects of the store are copies of the
    snapshot's nodes, the edges are the snapshot's edges, and the adjacency
    index is derived from them. *)
Theorem undo_after_edit_restores s snap :
  cursor_ok s ->
  (0 <= historyIndex s)%Z ->
  nth_error (history s) (Z.to_nat (historyIndex s)) = Some snap ->
  exists s',
    undo (saveState s) = Done s'
    /\ map (node_of s') (nodes s') = h_nodes snap
    /\ edges s' = h_edges snap
    /\ adj s' = rebuild_adj (directed s) (map n_id (h_nodes snap)) (h_edges snap)
    /\ history s' = history (saveState s)
    /\ historyIndex s' = (historyIndex (saveState s) - 1)%Z.
Proof.
  intros Hok Hpos Hnth.
  destruct (undo_after_edit_full s snap Hok Hpos Hnth)
    as (s' & Hu & Hv & He & Ha & Hh & Hi & _).
  exists s'. repeat split; assumption.
Qed.

Lemma undo_after_edit_restores_witness :
  cursor_ok three_nodes
  /\ (0 <= historyIndex three_nodes)%Z
  /\ exists s',
       undo (addNode 5 5 three_nodes) = Done s'
       /\ map (fun r => n_id (node_of s' r)) (nodes s') = [0; 1; 2].
Proof.
  assert (H : cursor_ok three_nodes) by cursor_here.
  assert (Hp : (0 <= historyIndex three_nodes)%Z) by (vm_compute; discriminate).
  split; [exact H|]. split; [exact Hp|].
  destruct (undo_after_edit_restores
              (with_adj (JsMap.set (adj three_nodes) 3 [])
                 (with_nodes (nodes three_nodes ++ [3])
                    (with_heap (heap three_nodes ++ [mkNode 3 5 5 (String_of_nat 3) None])
                       three_nodes)))
              (stateCopy three_nodes))
    as (s' & Hu & Hv & _).
  - cursor_here.
  - vm_compute. discriminate.
  - vm_compute. reflexivity.
  - exists s'. split; [exact Hu|].
    rewrite <- (map_map (node_of s') n_id), Hv. vm_compute. reflexivity.
Defined.

Lemma find_node_found s k r :
  find_node s k = Some r -> In r (nodes s) /\ n_id (node_of s r) = k.
Proof.
  unfold find_node. intros H. apply find_some in H.
  destruct H as [Hin Hk]. apply Nat.eqb_eq in Hk. auto.
Qed.






(** ** The adjacency index *)

(** The entries an edge contributes to the adjacency list of [k]: one for
    the edge leaving [k] and, in an undirected graph, one for the edge
    arriving at [k]. *)
Definition entries_of_edge (isDirected : bool) (k : nat) (e : Edge) : list AdjEntry :=
  (if Nat.eqb (e_from e) k then [mkAdj (e_to e) (e_weight e)] else [])
  ++ (if negb isDirected && Nat.eqb (e_to e) k
      then [mkAdj (e_from e) (e_weight e)] else []).

Definition expected_neighbors (isDirected : bool) (es : list Edge) (k : nat)
  : list AdjEntry :=
  flat_map (entries_of_edge isDirected k) es.

(** The index is in step with the edge collection: what the algorithms read
    for a node ([state.adj.get(k) || []]) is what the edges give, in the
    order of the edges. *)
Definition adj_reflects (s : State) : Prop :=
  forall k, Trace.neighbors_of s k = expected_neighbors (directed s) (edges s) k.

Definition entries_at (m : JsMap.t (list AdjEntry)) (k : nat) : list AdjEntry :=
  match JsMap.get m k with Some l => l | None => [] end.

Lemma entries_at_push m k e k2 :
  entries_at (adj_push m k e) k2
  = entries_at m k2 ++ (if Nat.eqb k k2 then [e] else []).
Proof.
  unfold entries_at. rewrite adj_push_get.
  destruct (Nat.eqb_spec k k2) as [->|Hk]; [reflexivity|].
  now rewrite app_nil_r.
Qed.

Lemma entries_at_add_edge d m e k :
  entries_at (adj_add_edge d m (e_from e) (e_to e) (e_weight e)) k
  = entries_at m k ++ entries_of_edge d k e.
Proof.
  unfold adj_add_edge, entries_of_edge. destruct d; cbn [negb andb].
  - rewrite entries_at_push, app_nil_r. reflexivity.
  - rewrite !entries_at_push, <- app_assoc. reflexivity.
Qed.

Lemma entries_at_edges d es : forall m k,
  entries_at
    (fold_left (fun m e => adj_add_edge d m (e_from e) (e_to e) (e_weight e)) es m) k
  = entries_at m k ++ expected_neighbors d es k.
Proof.
  induction es as [|e es IH]; intros m k; cbn [fold_left].
  - unfold expected_neighbors. simpl. now rewrite app_nil_r.
  - rewrite IH, entries_at_add_edge, <- app_assoc. reflexivity.
Qed.

Lemma entries_at_nodes ids : forall (m : JsMap.t (list AdjEntry)) k,
  entries_at m k = [] ->
  entries_at (fold_left (fun m k => JsMap.set m k []) ids m) k = [].
Proof.
  induction ids as [|i ids IH]; intros m k Hm; cbn [fold_left]; [exact Hm|].
  apply IH. unfold entries_at. rewrite map_get_set.
  destruct (Nat.eqb i k); [reflexivity | exact Hm].
Qed.

Lemma keys_push (m : JsMap.t (list AdjEntry)) k e x :
  In x (JsMap.keys (adj_push m k e)) <-> x = k \/ In x (JsMap.keys m).
Proof.
  unfold adj_push. destruct (JsMap.get m k); apply map_keys_set.
Qed.

Lemma keys_nodes ids : forall (m : JsMap.t (list AdjEntry)) x,
  In x (JsMap.keys (fold_left (fun m k => JsMap.set m k []) ids m))
  <-> In x ids \/ In x (JsMap.keys m).
Proof.
  induction ids as [|i ids IH]; intros m x; cbn [fold_left].
  - simpl. intuition.
  - rewrite IH, map_keys_set. simpl. intuition.
Qed.

(** The keys an edge creates when they are missing. *)
Definition touches (isDirected : bool) (k : nat) (e : Edge) : Prop :=
  e_from e = k \/ (isDirected = false /\ e_to e = k).

Lemma keys_edges d es : forall (m : JsMap.t (list AdjEntry)) x,
  In x (JsMap.keys
          (fold_left (fun m e => adj_add_edge d m (e_from e) (e_to e) (e_weight e)) es m))
  <-> (exists e, In e es /\ touches d x e) \/ In x (JsMap.keys m).
Proof.
  induction es as [|e es IH]; intros m x; cbn [fold_left].
  - simpl. split; [auto | intros [[e [[] _]]|H]; exact H].
  - rewrite IH. unfold adj_add_edge, touches. destruct d.
    + rewrite keys_push. split.
      * intros [[e' [Hin Ht]]|[->|H]]; eauto.
        -- left. exists e'. simpl. auto.
        -- left. exists e. simpl. auto.
      * intros [[e' [[<-|Hin] Ht]]|H]; eauto.
        destruct Ht as [<-|[Hd _]]; [auto | discriminate].
    + rewrite !keys_push. split.
      * intros [[e' [Hin Ht]]|[->|[->|H]]]; eauto.
        -- left. exists e'. simpl. auto.
        -- left. exists e. simpl. auto.
        -- left. exists e. simpl. auto.
      * intros [[e' [[<-|Hin] Ht]]|H]; eauto.
        destruct Ht as [<-|[_ <-]]; auto.
Qed.

Lemma entries_at_rebuild d ids es k :
  entries_at (rebuild_adj d ids es) k = expected_neighbors d es k.
Proof.
  unfold rebuild_adj. rewrite entries_at_edges, entries_at_nodes; reflexivity.
Qed.

Lemma adj_reflects_update s : adj_reflects (updateAdjacencyList s).
Proof. intros k. apply entries_at_rebuild. Qed.

(** X7.  [updateAdjacencyList] derives the index from the nodes and edges
    alone, whatever it held before: the list read for a node is the list of
    the entries its edges give, in edge order, and the keys are the node ids
    and the end points the edges name. *)
Theorem updateAdjacencyList_reflects_edges s :
  adj_reflects (updateAdjacencyList s)
  /\ forall k, In k (JsMap.keys (adj (updateAdjacencyList s)))
               <-> In k (node_ids s)
                   \/ exists e, In e (edges s) /\ touches (directed s) k e.
Proof.
  split; [apply adj_reflects_update|].
  intros k. unfold updateAdjacencyList. fields. unfold rebuild_adj.
  rewrite keys_edges, keys_nodes. simpl. intuition.
Qed.

Lemma adj_reflects_ext s s' :
  adj s' = adj s -> edges s' = edges s -> directed s' = directed s ->
  adj_reflects s -> adj_reflects s'.
Proof.
  intros Ha He Hd H k. unfold Trace.neighbors_of. rewrite Ha, He, Hd. apply H.
Qed.

Lemma adj_reflects_saveState s : adj_reflects s -> adj_reflects (saveState s).
Proof.
  destruct (saveState_shape s) as [h [i ->]].
  apply adj_reflects_ext; reflexivity.
Qed.

Lemma map_get_delete (V : Type) (m : JsMap.t V) id k :
  JsMap.get (JsMap.delete m id) k = if Nat.eqb id k then None else JsMap.get m k.
Proof.
  induction m as [|[k' v'] m IH]; simpl.
  - now destruct (Nat.eqb id k).
  - destruct (Nat.eqb_spec k' id) as [->|Hk]; simpl.
    + rewrite IH. destruct (Nat.eqb id k); reflexivity.
    + rewrite IH. destruct (Nat.eqb_spec k' k) as [->|Hk2]; [|reflexivity].
      destruct (Nat.eqb_spec id k); [congruence | reflexivity].
Qed.

Lemma map_get_values (V : Type) (f : V -> V) (m : JsMap.t V) k :
  JsMap.get (map (fun kv => (fst kv, f (snd kv))) m) k = option_map f (JsMap.get m k).
Proof.
  induction m as [|[k' v'] m IH]; simpl; [reflexivity|].
  destruct (Nat.eqb k' k); [reflexivity | exact IH].
Qed.

Lemma map_keys_delete (V : Type) (m : JsMap.t V) id x :
  In x (JsMap.keys (JsMap.delete m id)) <-> x <> id /\ In x (JsMap.keys m).
Proof.
  induction m as [|[k' v'] m IH]; simpl.
  - intuition.
  - destruct (Nat.eqb_spec k' id) as [->|Hk]; simpl; rewrite IH.
    + intuition. congruence.
    + intuition. congruence.
Qed.

(** The edges and entries [deleteNode] keeps. *)
Definition edge_avoids (id : nat) (e : Edge) : bool :=
  negb (Nat.eqb (e_from e) id) && negb (Nat.eqb (e_to e) id).

Definition entry_avoids (id : nat) (n : AdjEntry) : bool :=
  negb (Nat.eqb (a_node n) id).

Lemma expected_neighbors_without d id k es :
  id <> k ->
  filter (entry_avoids id) (expected_neighbors d es k)
  = expected_neighbors d (filter (edge_avoids id) es) k.
Proof.
  intros Hk. unfold expected_neighbors.
  induction es as [|e es IH]; [reflexivity|].
  cbn [flat_map filter]. rewrite filter_app, IH.
  unfold edge_avoids at 2, entries_of_edge, entry_avoids.
  destruct (Nat.eqb_spec (e_from e) id) as [Hf|Hf];
    destruct (Nat.eqb_spec (e_to e) id) as [Ht|Ht];
    destruct (Nat.eqb_spec (e_from e) k) as [Hfk|Hfk];
    destruct (Nat.eqb_spec (e_to e) k) as [Htk|Htk];
    destruct d; cbn [negb andb app filter a_node flat_map];
    try congruence;
    repeat match goal with
      | |- context [Nat.eqb ?a ?b] =>
          destruct (Nat.eqb_spec a b); try congruence; cbn [negb andb app filter]
      end;
    try reflexivity.
Qed.

Lemma expected_neighbors_deleted d id es :
  expected_neighbors d (filter (edge_avoids id) es) id = [].
Proof.
  unfold expected_neighbors.
  induction es as [|e es IH]; [reflexivity|].
  cbn [filter]. unfold edge_avoids at 1.
  destruct (Nat.eqb_spec (e_from e) id) as [Hf|Hf];
    destruct (Nat.eqb_spec (e_to e) id) as [Ht|Ht]; cbn [negb andb]; try exact IH.
  cbn [flat_map]. rewrite IH. unfold entries_of_edge.
  destruct (Nat.eqb_spec (e_from e) id); [congruence|].
  destruct (Nat.eqb_spec (e_to e) id); [congruence|].
  now rewrite andb_false_r.
Qed.

(** What [deleteNode] leaves of the graph. *)
Lemma deleteNode_graph node s :
  let id := n_id (node_of s node) in
  nodes (deleteNode node s)
  = filter (fun r => negb (Nat.eqb (n_id (node_of s r)) id)) (nodes s)
  /\ heap (deleteNode node s) = heap s
  /\ edges (deleteNode node s) = filter (edge_avoids id) (edges s)
  /\ adj (deleteNode node s)
     = map (fun kv => (fst kv, filter (entry_avoids id) (snd kv)))
         (JsMap.delete (adj s) id)
  /\ directed (deleteNode node s) = directed s.
Proof.
  unfold deleteNode. cbv zeta. save_shape. fields.
  repeat match goal with
    | |- context [if ?c then _ else _] => destruct c
    end; fields; repeat split; reflexivity.
Qed.

Lemma entries_at_deleteNode node s k :
  Trace.neighbors_of (deleteNode node s) k
  = if Nat.eqb (n_id (node_of s node)) k then []
    else filter (entry_avoids (n_id (node_of s node))) (Trace.neighbors_of s k).
Proof.
  destruct (deleteNode_graph node s) as (_ & _ & _ & Ha & _).
  unfold Trace.neighbors_of. rewrite Ha, map_get_values, map_get_delete.
  destruct (Nat.eqb _ k); [reflexivity|].
  destruct (JsMap.get (adj s) k); reflexivity.
Qed.

(** X8.  [deleteNode] removes every trace of the deleted id from the graph:
    no node keeps the id, no edge starts or ends there, the index has no key
    and no entry for it; the nodes of other ids and the edges between them
    stay as they were. *)
Theorem deleteNode_removes_every_trace node s :
  let id := n_id (node_of s node) in
  let s' := deleteNode node s in
  node_ids s' = filter (fun k => negb (Nat.eqb k id)) (node_ids s)
  /\ ~ In id (node_ids s')
  /\ (forall e, In e (edges s')
                <-> In e (edges s) /\ e_from e <> id /\ e_to e <> id)
  /\ ~ In id (JsMap.keys (adj s'))
  /\ (forall k n, In n (Trace.neighbors_of s' k) -> a_node n <> id)
  /\ (forall k, k <> id ->
        Trace.neighbors_of s' k
        = filter (entry_avoids id) (Trace.neighbors_of s k)).
Proof.
  intros id s'. subst s'.
  destruct (deleteNode_graph node s) as (Hn & Hh & He & Ha & Hd). fold id in Hn, He, Ha.
  assert (Hids : node_ids (deleteNode node s)
                 = filter (fun k => negb (Nat.eqb k id)) (node_ids s)).
  { unfold node_ids, node_of. rewrite Hn, Hh.
    generalize (nodes s) as l. induction l as [|r l IH]; [reflexivity|].
    cbn [filter map]. unfold node_of at 1.
    destruct (negb (Nat.eqb (n_id (deref (heap s) r)) id)); cbn [map]; now rewrite IH. }
  split; [exact Hids|].
  split.
  { rewrite Hids, filter_In. intros [_ H]. now rewrite Nat.eqb_refl in H. }
  split.
  { intros e. rewrite He, filter_In. unfold edge_avoids.
    rewrite andb_true_iff, !negb_true_iff, !Nat.eqb_neq. reflexivity. }
  split.
  { rewrite Ha. unfold JsMap.keys. rewrite map_map. cbn [fst].
    change (~ In id (JsMap.keys (JsMap.delete (adj s) id))).
    rewrite map_keys_delete. intros [H _]. now apply H. }
  split.
  { intros k n. rewrite entries_at_deleteNode. fold id.
    destruct (Nat.eqb id k); [intros []|].
    rewrite filter_In. unfold entry_avoids.
    rewrite negb_true_iff, Nat.eqb_neq. tauto. }
  intros k Hk. rewrite entries_at_deleteNode. fold id.
  destruct (Nat.eqb_spec id k); [congruence | reflexivity].
Qed.

Lemma adj_reflects_deleteNode node s :
  adj_reflects s -> adj_reflects (deleteNode node s).
Proof.
  intros H k. rewrite entries_at_deleteNode.
  destruct (deleteNode_graph node s) as (_ & _ & He & _ & Hd). rewrite He, Hd.
  destruct (Nat.eqb_spec (n_id (node_of s node)) k) as [<-|Hk].
  - symmetry. apply expected_neighbors_deleted.
  - rewrite H. now apply expected_neighbors_without.
Qed.

Lemma adj_reflects_addEdge a b src s :
  adj_reflects s -> adj_reflects (fst (addEdge a b src s)).
Proof.
  intros H. unfold addEdge.
  destruct (read_weight src) as [w|r]; [|exact H].
  destruct (edgeExists s _ _); [exact H|].
  cbn [fst].
  apply adj_reflects_saveState. intros k.
  unfold Trace.neighbors_of. fields.
  set (e := mkEdge (n_id (node_of s a)) (n_id (node_of s b)) w None).
  change (entries_at (adj_add_edge (directed s) (adj s) (e_from e) (e_to e) (e_weight e)) k
          = expected_neighbors (directed s) (edges s ++ [e]) k).
  rewrite entries_at_add_edge. unfold expected_neighbors.
  rewrite flat_map_app. cbn [flat_map]. rewrite app_nil_r.
  f_equal. apply H.
Qed.

(** X9.  The edits keep the index in step with the edges: when the lists
    read from the index are the ones the edges give, they still are after
    [addEdge] (whatever branch it takes), [deleteNode], [deleteEdge], a
    weight edit, a rename, [setStartNode], [setGoalNode] and [clearCanvas]. *)
Theorem edits_keep_index_in_step s :
  adj_reflects s ->
  (forall a b src, adj_reflects (fst (addEdge a b src s)))
  /\ (forall node, adj_reflects (deleteNode node s))
  /\ (forall i, adj_reflects (deleteEdge i s))
  /\ (forall i w, adj_reflects (fst (editWeight i w s)))
  /\ (forall r l, adj_reflects (renameNode r l s))
  /\ (forall r, adj_reflects (setStartNode r s))
  /\ (forall r, adj_reflects (setGoalNode r s))
  /\ adj_reflects (clearCanvas s).
Proof.
  intros H.
  split; [intros; now apply adj_reflects_addEdge|].
  split; [intros; now apply adj_reflects_deleteNode|].
  split.
  { intros i. unfold deleteEdge. apply adj_reflects_saveState, adj_reflects_update. }
  split.
  { intros i w. unfold editWeight. destruct w as [input|]; [|exact H].
    destruct (parseInt input) as [num|]; [|exact H].
    destruct (0 <? num)%Z; [|exact H].
    cbn [fst]. apply adj_reflects_saveState, adj_reflects_update. }
  split.
  { intros r l. unfold renameNode. apply adj_reflects_saveState.
    revert H. apply adj_reflects_ext; reflexivity. }
  split.
  { intros r. unfold setStartNode. apply adj_reflects_saveState.
    revert H. apply adj_reflects_ext; destruct (startNode s); reflexivity. }
  split.
  { intros r. unfold setGoalNode. apply adj_reflects_saveState.
    revert H. apply adj_reflects_ext; destruct (goalNode s); reflexivity. }
  unfold clearCanvas. apply adj_reflects_saveState.
  intros k. unfold Trace.neighbors_of.
  destruct (intervalId _); reflexivity.
Qed.

Lemma edits_keep_index_in_step_witness :
  adj_reflects one_edge
  /\ adj_reflects (fst (addEdge 1 2 (ask "3") one_edge))
  /\ adj_reflects (deleteNode 0 one_edge).
Proof.
  assert (H : adj_reflects one_edge).
  { intros k. unfold Trace.neighbors_of, expected_neighbors.
    destruct k as [|[|[|k]]]; vm_compute; reflexivity. }
  split; [exact H|].
  destruct (edits_keep_index_in_step one_edge H) as (Ha & Hd & _).
  split; [apply Ha | apply Hd].
Defined.

Lemma expected_neighbors_untouched d es k :
  (forall e, In e es -> e_from e <> k /\ e_to e <> k) ->
  expected_neighbors d es k = [].
Proof.
  unfold expected_neighbors. induction es as [|e es IH]; intros H; [reflexivity|].
  cbn [flat_map]. rewrite IH by (intros e' He'; apply H; now right).
  destruct (H e (or_introl eq_refl)) as [Hf Ht].
  unfold entries_of_edge.
  destruct (Nat.eqb_spec (e_from e) k); [congruence|].
  destruct (Nat.eqb_spec (e_to e) k); [congruence|].
  now rewrite andb_false_r.
Qed.

(** X10.  [addNode] keeps the index in step with the edges when no edge
    names the id the new node gets, which is the number of stored nodes. *)
Theorem addNode_keeps_index_for_unused_id px py s :
  adj_reflects s ->
  (forall e, In e (edges s) ->
     e_from e <> List.length (nodes s) /\ e_to e <> List.length (nodes s)) ->
  adj_reflects (addNode px py s)
  /\ edges (addNode px py s) = edges s
  /\ In (List.length (nodes s)) (JsMap.keys (adj (addNode px py s))).
Proof.
  intros H Hfree. split; [|split].
  - unfold addNode. cbn [alloc]. apply adj_reflects_saveState. intros k.
    unfold Trace.neighbors_of. fields. rewrite map_get_set.
    destruct (Nat.eqb_spec (List.length (nodes s)) k) as [<-|Hk].
    + symmetry. now apply expected_neighbors_untouched.
    + apply H.
  - unfold addNode. cbn [alloc]. save_shape. reflexivity.
  - unfold addNode. cbn [alloc]. save_shape. fields.
    apply map_keys_set. now left.
Qed.

Lemma addNode_keeps_index_for_unused_id_witness :
  adj_reflects one_edge /\ adj_reflects (addNode 7 7 one_edge).
Proof.
  assert (H : adj_reflects one_edge).
  { intros k. unfold Trace.neighbors_of, expected_neighbors.
    destruct k as [|[|[|k]]]; vm_compute; reflexivity. }
  assert (Hfree : forall e, In e (edges one_edge) ->
            e_from e <> List.length (nodes one_edge)
            /\ e_to e <> List.length (nodes one_edge)).
  { vm_compute. intros e [<-|[]]. split; discriminate. }
  split; [exact H|].
  exact (proj1 (addNode_keeps_index_for_unused_id 7 7 one_edge H Hfree)).
Defined.

(** ** Playback and the graph *)

(** [s'] holds the graph of [s]: the node references, the adjacency index,
    the selectors, the history, the selections and the toggle are the same,
    and the node and edge objects are the same up to their colours. *)
Definition same_graph (s s' : State) : Prop :=
  map strip_node (heap s') = map strip_node (heap s)
  /\ map strip_edge (edges s') = map strip_edge (edges s)
  /\ nodes s' = nodes s
  /\ adj s' = adj s
  /\ startNode s' = startNode s
  /\ goalNode s' = goalNode s
  /\ history s' = history s
  /\ historyIndex s' = historyIndex s
  /\ selectedNodes s' = selectedNodes s
  /\ searchResults s' = searchResults s
  /\ directed s' = directed s
  /\ currentAlgo s' = currentAlgo s.

Lemma same_graph_refl s : same_graph s s.
Proof. repeat split. Qed.

Lemma same_graph_trans s1 s2 s3 :
  same_graph s1 s2 -> same_graph s2 s3 -> same_graph s1 s3.
Proof.
  intros (A1 & A2 & A3 & A4 & A5 & A6 & A7 & A8 & A9 & A10 & A11 & A12)
         (B1 & B2 & B3 & B4 & B5 & B6 & B7 & B8 & B9 & B10 & B11 & B12).
  repeat split; congruence.
Qed.

Lemma nth_error_update_at (A : Type) (f : A -> A) : forall (h : list A) r p,
  nth_error (update_at r f h) p
  = if Nat.eqb p r then option_map f (nth_error h p) else nth_error h p.
Proof.
  induction h as [|x h IH]; intros r p.
  - destruct r, p; simpl; try reflexivity; now destruct (Nat.eqb _ _).
  - destruct r as [|r], p as [|p]; simpl; try reflexivity. apply IH.
Qed.

Lemma strip_update_node (h : Heap) r c :
  map strip_node (mutate h r (set_n_color c)) = map strip_node h.
Proof.
  apply nth_error_ext. intros p. unfold mutate.
  rewrite !nth_error_map, nth_error_update_at.
  destruct (Nat.eqb p r); [|reflexivity].
  destruct (nth_error h p) as [[? ? ? ? ?]|]; reflexivity.
Qed.

Lemma strip_update_edge (es : list Edge) i c :
  map strip_edge (update_at i (set_e_color c) es) = map strip_edge es.
Proof.
  apply nth_error_ext. intros p.
  rewrite !nth_error_map, nth_error_update_at.
  destruct (Nat.eqb p i); [|reflexivity].
  destruct (nth_error es p) as [[? ? ? ?]|]; reflexivity.
Qed.

Lemma strip_reset_edges (es : list Edge) :
  map strip_edge (map (set_e_color None) es) = map strip_edge es.
Proof. rewrite map_map. apply map_ext. intros [? ? ? ?]. reflexivity. Qed.

Lemma strip_color_path_from p : forall from es,
  map strip_edge (color_path_edges (from :: p) es) = map strip_edge es.
Proof.
  induction p as [|to p IH]; intros from es; [reflexivity|].
  change (color_path_edges (from :: to :: p) es)
    with (color_path_edges (to :: p)
            (match find_index
                     (fun e => (Nat.eqb (e_from e) from && Nat.eqb (e_to e) to)
                               || (Nat.eqb (e_from e) to && Nat.eqb (e_to e) from)) es with
             | Some i => update_at i (set_e_color (Some ACTIVE_EDGE)) es
             | None => es
             end)).
  rewrite IH. destruct (find_index _ es); [apply strip_update_edge | reflexivity].
Qed.

Lemma strip_color_path_edges p es :
  map strip_edge (color_path_edges p es) = map strip_edge es.
Proof. destruct p; [reflexivity | apply strip_color_path_from]. Qed.

(** The heap after the colour reset, whatever colours it starts from. *)
Lemma strip_reset_heap (c : ref -> option Color) rs : forall h : Heap,
  map strip_node (fold_left (fun h r => mutate h r (set_n_color (c r))) rs h)
  = map strip_node h.
Proof.
  induction rs as [|r rs IH]; intros h; [reflexivity|].
  cbn [fold_left]. rewrite IH. apply strip_update_node.
Qed.

(** The colour the reset gives the node object [r]. *)
Definition reset_color (s : State) (r : ref) : option Color :=
  if same_ref (startNode s) r then Some START
  else if same_ref (goalNode s) r then Some GOAL
  else None.

Lemma reset_colors_heap s :
  heap (reset_colors s)
  = fold_left (fun h r => mutate h r (set_n_color (reset_color s r)))
      (nodes s) (heap s).
Proof.
  unfold reset_colors. fields.
  generalize (heap s). induction (nodes s) as [|r rs IH]; intros h; [reflexivity|].
  cbn [fold_left]. rewrite IH. f_equal. unfold reset_color.
  destruct (same_ref (startNode s) r); [reflexivity|].
  destruct (same_ref (goalNode s) r); reflexivity.
Qed.

Lemma reset_colors_same_graph s : same_graph s (reset_colors s).
Proof.
  unfold same_graph. split.
  { rewrite reset_colors_heap. apply strip_reset_heap. }
  unfold reset_colors. fields.
  split; [apply strip_reset_edges|]. repeat split.
Qed.

Lemma color_nodes_same_graph c ids : forall s, same_graph s (color_nodes c ids s).
Proof.
  unfold color_nodes.
  induction ids as [|k ids IH]; intros s; [apply same_graph_refl|].
  cbn [fold_left].
  destruct (find_node s k) as [r|]; [|apply IH].
  destruct (negb _ && negb _); [|apply IH].
  eapply same_graph_trans; [|apply IH].
  unfold same_graph. fields.
  split; [apply strip_update_node|]. repeat split.
Qed.

Lemma showStep_same_graph index s : same_graph s (showStep index s).
Proof.
  unfold showStep. destruct (nth_error (steps s) index) as [step|];
    [|apply same_graph_refl].
  assert (H4 : same_graph s
                 (color_nodes VISITING (ds step)
                    (color_nodes VISITED (visited step)
                       (reset_colors (with_stepIndex index s))))).
  { eapply same_graph_trans; [|apply color_nodes_same_graph].
    eapply same_graph_trans; [|apply color_nodes_same_graph].
    eapply same_graph_trans; [|apply reset_colors_same_graph].
    repeat split. }
  destruct (path step) as [|p ps]; [exact H4|].
  eapply same_graph_trans; [exact H4|].
  eapply same_graph_trans; [apply (color_nodes_same_graph PATH (p :: ps))|].
  unfold same_graph. fields.
  split; [reflexivity|]. split; [apply strip_color_path_edges|]. repeat split.
Qed.

Lemma prepareAlgo_same_graph euclid fadd fuel s s' r :
  prepareAlgo euclid fadd fuel s = Done (s', r) -> same_graph s s'.
Proof.
  unfold prepareAlgo. intros H.
  destruct (startNode s); [|injection H as <- _; apply same_graph_refl].
  destruct (needs_goal (currentAlgo s) && _);
    [injection H as <- _; apply same_graph_refl|].
  destruct (generate euclid fadd fuel s) as [trace| |]; cbn [bind] in H;
    try discriminate.
  injection H as <- _.
  destruct trace as [|st trace]; cbn [steps with_steps with_stepIndex].
  - repeat split.
  - eapply same_graph_trans; [|apply showStep_same_graph]. repeat split.
Qed.

Lemma prepare_if_empty_same_graph euclid fadd fuel s s' :
  prepare_if_empty euclid fadd fuel s = Done s' -> same_graph s s'.
Proof.
  unfold prepare_if_empty. intros H.
  destruct (steps s); [|injection H as <-; apply same_graph_refl].
  destruct (prepareAlgo euclid fadd fuel s) as [[s1 r]| |] eqn:Hp;
    cbn [bind] in H; try discriminate.
  injection H as <-. apply (prepareAlgo_same_graph _ _ _ _ _ _ Hp).
Qed.

(** X11.  Playback never changes the graph: generating a trace, stepping
    forward and backward, playing, the timer's callback, pausing and the
    reset of the visualization leave the nodes, the edges, the adjacency
    index, the start and goal selectors, the history and the selections as
    they are; only colours of node and edge objects are written. *)
Theorem playback_keeps_the_graph euclid fadd fuel s :
  (forall i, same_graph s (showStep i s))
  /\ same_graph s (prevStep s)
  /\ same_graph s (tick s)
  /\ same_graph s (pause s)
  /\ same_graph s (resetVisualization s)
  /\ (forall s' r, prepareAlgo euclid fadd fuel s = Done (s', r) -> same_graph s s')
  /\ (forall s', nextStep euclid fadd fuel s = Done s' -> same_graph s s')
  /\ (forall s', play euclid fadd fuel s = Done s' -> same_graph s s')
  /\ (forall s', togglePlayPause euclid fadd fuel s = Done s' -> same_graph s s')
  /\ (forall s', speedChanged euclid fadd fuel s = Done s' -> same_graph s s').
Proof.
  assert (Hpause : same_graph s (pause s)).
  { rewrite pause_clears. repeat split. }
  assert (Hplay : forall s0 s', play euclid fadd fuel s0 = Done s' -> same_graph s0 s').
  { intros s0 s' H. unfold play in H.
    destruct (prepare_if_empty euclid fadd fuel s0) as [s1| |] eqn:Hp;
      cbn [bind] in H; try discriminate.
    injection H as <-.
    eapply same_graph_trans; [apply (prepare_if_empty_same_graph _ _ _ _ _ Hp)|].
    repeat split. }
  split; [intros i; apply showStep_same_graph|].
  split.
  { unfold prevStep. destruct (_ && _);
      [apply showStep_same_graph | apply same_graph_refl]. }
  split.
  { unfold tick. destruct (intervalId s); [|apply same_graph_refl].
    destruct (_ <? _); [apply showStep_same_graph | repeat split]. }
  split; [exact Hpause|].
  split.
  { unfold resetVisualization.
    eapply same_graph_trans; [|apply reset_colors_same_graph].
    destruct (intervalId _); repeat split. }
  split; [intros s' r H; apply (prepareAlgo_same_graph _ _ _ _ _ _ H)|].
  split.
  { intros s' H. unfold nextStep in H.
    destruct (prepare_if_empty euclid fadd fuel s) as [s1| |] eqn:Hp;
      cbn [bind] in H; try discriminate.
    injection H as <-.
    eapply same_graph_trans; [apply (prepare_if_empty_same_graph _ _ _ _ _ Hp)|].
    unfold advance. destruct (_ <? _);
      [apply showStep_same_graph | apply same_graph_refl]. }
  split; [exact (Hplay s)|].
  split.
  { intros s' H. unfold togglePlayPause in H.
    destruct (intervalId s); [injection H as <-; exact Hpause | exact (Hplay s s' H)]. }
  intros s' H. unfold speedChanged in H.
  destruct (intervalId s); [|injection H as <-; apply same_graph_refl].
  eapply same_graph_trans; [exact Hpause | exact (Hplay _ _ H)].
Qed.

(** *** What a step shows *)

(** [h'] is [h] with other colours on objects of [rs]. *)
Definition recoloured (rs : list ref) (h h' : Heap) : Prop :=
  forall p,
    (In p rs -> option_map strip_node (nth_error h' p)
                = option_map strip_node (nth_error h p))
    /\ (~ In p rs -> nth_error h' p = nth_error h p).

Lemma recoloured_refl rs h : recoloured rs h h.
Proof. intros p. split; reflexivity. Qed.

Lemma recoloured_trans rs h1 h2 h3 :
  recoloured rs h1 h2 -> recoloured rs h2 h3 -> recoloured rs h1 h3.
Proof.
  intros H12 H23 p. destruct (H12 p) as [A B], (H23 p) as [C D].
  split; intros Hp; [rewrite (C Hp); auto | rewrite (D Hp); auto].
Qed.

Lemma recoloured_mutate rs h r c :
  In r rs -> recoloured rs h (mutate h r (set_n_color c)).
Proof.
  intros Hr p. unfold mutate. rewrite nth_error_update_at.
  destruct (Nat.eqb_spec p r) as [->|Hne]; [|split; reflexivity].
  split; [|contradiction]. intros _.
  destruct (nth_error h r) as [[? ? ? ? ?]|]; reflexivity.
Qed.

Lemma set_n_color_twice c c' n : set_n_color c (set_n_color c' n) = set_n_color c n.
Proof. destruct n; reflexivity. Qed.

Lemma set_n_color_strip c n n' :
  strip_node n = strip_node n' -> set_n_color c n = set_n_color c n'.
Proof.
  destruct n, n'. unfold strip_node, set_n_color. simpl.
  intros H. injection H as -> -> -> ->. reflexivity.
Qed.

(** The object at [p] after the reset loop over [rs]. *)
Lemma nth_error_reset (c : ref -> option Color) (rs : list ref) : forall (h : Heap) p,
  nth_error (fold_left (fun h r => mutate h r (set_n_color (c r))) rs h) p
  = if in_dec Nat.eq_dec p rs
    then option_map (set_n_color (c p)) (nth_error h p)
    else nth_error h p.
Proof.
  induction rs as [|r rs IH]; intros h p; [reflexivity|].
  cbn [fold_left]. rewrite IH. unfold mutate. rewrite nth_error_update_at.
  destruct (in_dec Nat.eq_dec p rs) as [Hin|Hnin];
    destruct (in_dec Nat.eq_dec p (r :: rs)) as [Hin'|Hnin'];
    destruct (Nat.eqb_spec p r) as [->|Hne]; simpl in *;
    try reflexivity; try tauto.
  - destruct (nth_error h r); simpl; [|reflexivity].
    now rewrite set_n_color_twice.
  - exfalso. destruct Hin' as [E|E]; [congruence | contradiction].
Qed.

(** The reset gives the same heap from heaps that differ in the colours of
    the stored nodes only. *)
Lemma reset_recoloured (c : ref -> option Color) rs (h h' : Heap) :
  recoloured rs h h' ->
  fold_left (fun h r => mutate h r (set_n_color (c r))) rs h'
  = fold_left (fun h r => mutate h r (set_n_color (c r))) rs h.
Proof.
  intros Hrec. apply nth_error_ext. intros p. rewrite !nth_error_reset.
  destruct (Hrec p) as [A B].
  destruct (in_dec Nat.eq_dec p rs) as [Hin|Hnin]; [|auto].
  specialize (A Hin).
  destruct (nth_error h' p) as [n'|], (nth_error h p) as [n|]; simpl in *;
    try discriminate; [|reflexivity].
  f_equal. apply set_n_color_strip. congruence.
Qed.

Lemma fold_reset_recoloured (c : ref -> option Color) rs : forall rs' (h : Heap),
  (forall r, In r rs' -> In r rs) ->
  recoloured rs h (fold_left (fun h r => mutate h r (set_n_color (c r))) rs' h).
Proof.
  induction rs' as [|r rs' IH]; intros h Hsub; [apply recoloured_refl|].
  cbn [fold_left].
  eapply recoloured_trans; [apply recoloured_mutate; apply Hsub; now left|].
  apply IH. intros r' Hr'. apply Hsub. now right.
Qed.

Lemma color_nodes_recoloured c ids : forall s,
  exists h, color_nodes c ids s = with_heap h s
            /\ recoloured (nodes s) (heap s) h.
Proof.
  unfold color_nodes.
  induction ids as [|k ids IH]; intros s; cbn [fold_left].
  - exists (heap s). split; [symmetry; apply with_heap_same | apply recoloured_refl].
  - destruct (find_node s k) as [r|] eqn:Hf; [|apply IH].
    destruct (negb _ && negb _); [|apply IH].
    destruct (IH (with_heap (mutate (heap s) r (set_n_color (Some c))) s))
      as [h [-> Hrec]].
    exists h. split; [reflexivity|]. fields.
    eapply recoloured_trans; [|exact Hrec].
    apply recoloured_mutate. apply (find_node_found _ _ _ Hf).
Qed.

Lemma reset_colors_eq s :
  reset_colors s
  = with_edges (map (set_e_color None) (edges s))
      (with_heap
         (fold_left (fun h r => mutate h r (set_n_color (reset_color s r)))
            (nodes s) (heap s)) s).
Proof. rewrite <- reset_colors_heap. reflexivity. Qed.

(** What [showStep] writes: the cursor, colours of stored node objects and
    colours of edges. *)
Lemma showStep_recoloured index s step :
  nth_error (steps s) index = Some step ->
  exists h e,
    showStep index s = with_edges e (with_heap h (with_stepIndex index s))
    /\ recoloured (nodes s) (heap s) h
    /\ map strip_edge e = map strip_edge (edges s).
Proof.
  intros Hnth. unfold showStep. rewrite Hnth.
  set (s1 := with_stepIndex index s).
  assert (H2 : recoloured (nodes s) (heap s) (heap (reset_colors s1))).
  { rewrite reset_colors_heap. apply fold_reset_recoloured. auto. }
  assert (E2 : reset_colors s1
               = with_edges (map (set_e_color None) (edges s))
                   (with_heap (heap (reset_colors s1)) s1)).
  { rewrite reset_colors_heap. unfold reset_colors.
    rewrite <- reset_colors_heap. unfold reset_colors. reflexivity. }
  set (s2 := reset_colors s1) in *.
  destruct (color_nodes_recoloured VISITED (visited step) s2) as [h3 [E3 R3]].
  rewrite E3.
  destruct (color_nodes_recoloured VISITING (ds step) (with_heap h3 s2))
    as [h4 [E4 R4]].
  rewrite E4. fields.
  assert (Hn2 : nodes s2 = nodes s) by (rewrite E2; reflexivity).
  rewrite Hn2 in R3, R4.
  assert (H4 : recoloured (nodes s) (heap s) h4).
  { eapply recoloured_trans; [exact H2|].
    eapply recoloured_trans; [exact R3 | exact R4]. }
  destruct (path step) as [|p ps].
  - exists h4, (map (set_e_color None) (edges s)).
    split; [rewrite E2; reflexivity|]. split; [exact H4|].
    apply strip_reset_edges.
  - destruct (color_nodes_recoloured PATH (p :: ps) (with_heap h4 (with_heap h3 s2)))
      as [h5 [E5 R5]].
    rewrite E5. fields. rewrite Hn2 in R5.
    exists h5, (color_path_edges (p :: ps) (map (set_e_color None) (edges s))).
    split; [rewrite E2; reflexivity|].
    split; [eapply recoloured_trans; [exact H4 | exact R5]|].
    rewrite strip_color_path_edges. apply strip_reset_edges.
Qed.

Lemma showStep_after_showStep i j s :
  i < List.length (steps s) ->
  showStep i (showStep j s) = showStep i s.
Proof.
  intros Hi.
  destruct (nth_error (steps s) j) as [stepj|] eqn:Hj;
    [|unfold showStep at 2; rewrite Hj; reflexivity].
  destruct (showStep_recoloured j s stepj Hj) as (h & e & -> & Hrec & He).
  destruct (nth_error (steps s) i) as [step|] eqn:Hnth;
    [|apply nth_error_None in Hnth; lia].
  unfold showStep. fields. rewrite Hnth.
  assert (Hreset :
    reset_colors (with_stepIndex i (with_edges e (with_heap h (with_stepIndex j s))))
    = reset_colors (with_stepIndex i s)).
  { rewrite !reset_colors_eq. fields.
    change (reset_color (with_stepIndex i
                           (with_edges e (with_heap h (with_stepIndex j s)))))
      with (reset_color s).
    change (reset_color (with_stepIndex i s)) with (reset_color s).
    rewrite (reset_recoloured (reset_color s) (nodes s) (heap s) h Hrec).
    change (map (set_e_color None) e = map (set_e_color None) (edges s)) in He.
    rewrite He. destruct s; reflexivity. }
  rewrite Hreset. reflexivity.
Qed.

(** X12.  What a step shows depends on the step alone, not on the steps
    shown before: showing step [i] after any other step gives the very
    state that showing it directly gives, colours included. *)
Theorem showStep_forgets_the_previous_step i j s :
  i < List.length (steps s) ->
  showStep i (showStep j s) = showStep i s.
Proof. apply showStep_after_showStep. Qed.

Lemma showStep_forgets_the_previous_step_witness :
  1 < List.length (steps highlighted)
  /\ showStep 1 (showStep 3 highlighted) = showStep 1 highlighted.
Proof.
  assert (H : 1 < List.length (steps highlighted)) by (vm_compute; lia).
  split; [exact H|].
  exact (showStep_forgets_the_previous_step 1 3 highlighted H).
Defined.

Lemma showStep_cursor index s :
  index < List.length (steps s) ->
  stepIndex (showStep index s) = index /\ steps (showStep index s) = steps s.
Proof.
  intros Hi.
  destruct (nth_error (steps s) index) as [step|] eqn:Hnth;
    [|apply nth_error_None in Hnth; lia].
  destruct (showStep_shape _ _ Hnth) as [h [e ->]]. split; reflexivity.
Qed.

(** X13.  Stepping forward and back.  From the display of step [i], with a
    later step in the trace, "next" shows step [i + 1] and generates
    nothing, and "previous" then gives back the display of step [i] as it
    was, colours included.  At the last step "next" changes nothing, and at
    step 0 "previous" changes nothing. *)
Theorem next_then_prev_shows_the_same_step euclid fadd fuel i s :
  S i < List.length (steps s) ->
  nextStep euclid fadd fuel (showStep i s) = Done (showStep (S i) s)
  /\ prevStep (showStep (S i) s) = showStep i s
  /\ nextStep euclid fadd fuel (showStep (List.length (steps s) - 1) s)
     = Done (showStep (List.length (steps s) - 1) s)
  /\ prevStep (showStep 0 s) = showStep 0 s.
Proof.
  intros Hi.
  assert (Hloaded : forall k, k < List.length (steps s) ->
            nextStep euclid fadd fuel (showStep k s) = Done (advance (showStep k s))).
  { intros k Hk. destruct (showStep_cursor k s Hk) as [_ Hs].
    unfold nextStep. rewrite prepare_if_empty_loaded; [reflexivity|].
    rewrite Hs. destruct (steps s); [simpl in Hk; lia | discriminate]. }
  split.
  { rewrite Hloaded by lia. f_equal.
    destruct (showStep_cursor i s ltac:(lia)) as [Hc Hs].
    unfold advance. rewrite Hc, Hs.
    destruct (Nat.ltb_spec (S i) (List.length (steps s))) as [_|H]; [|lia].
    replace (i + 1) with (S i) by lia.
    apply showStep_after_showStep. exact Hi. }
  split.
  { destruct (showStep_cursor (S i) s Hi) as [Hc Hs].
    unfold prevStep. rewrite Hc, Hs.
    destruct (Nat.ltb_spec 0 (List.length (steps s))) as [_|H]; [|lia].
    cbn [andb Nat.ltb Nat.leb]. replace (S i - 1) with i by lia.
    apply showStep_after_showStep. lia. }
  split.
  { rewrite Hloaded by lia. f_equal.
    destruct (showStep_cursor (List.length (steps s) - 1) s ltac:(lia)) as [Hc Hs].
    unfold advance. rewrite Hc, Hs.
    destruct (Nat.ltb_spec (S (List.length (steps s) - 1)) (List.length (steps s)))
      as [H|_]; [lia | reflexivity]. }
  destruct (showStep_cursor 0 s ltac:(lia)) as [Hc Hs].
  unfold prevStep. rewrite Hc, Hs.
  destruct (0 <? List.length (steps s)); reflexivity.
Qed.

Lemma next_then_prev_shows_the_same_step_witness :
  2 < List.length (steps highlighted)
  /\ nextStep no_heuristic exact_fadd 5 (showStep 1 highlighted)
     = Done (showStep 2 highlighted)
  /\ prevStep (showStep 2 highlighted) = showStep 1 highlighted.
Proof.
  assert (H : 2 < List.length (steps highlighted)) by (vm_compute; lia).
  split; [exact H|].
  destruct (next_then_prev_shows_the_same_step no_heuristic exact_fadd 5 1
              highlighted H) as (A & B & _).
  split; [exact A | exact B].
Defined.

(** ** The traversals *)

(** The loop of [prepareBFS] over the neighbours of a node: the unvisited
    ones are appended to the queue and to the visited set, once each. *)
Lemma bfs_neighbors_spec : forall nbrs queue visitedSet acc queue2 visited2 acc2,
  Trace.bfs_neighbors nbrs queue visitedSet acc = (queue2, visited2, acc2) ->
  NoDup visitedSet ->
  exists new,
    queue2 = queue ++ new
    /\ visited2 = visitedSet ++ new
    /\ NoDup visited2
    /\ (forall x, In x new -> exists e, In e nbrs /\ a_node e = x)
    /\ (forall e, In e nbrs -> In (a_node e) visited2)
    /\ ((forall st, In st acc -> path st = []) ->
        forall st, In st acc2 -> path st = []).
Proof.
  induction nbrs as [|e0 rest IH]; intros queue visitedSet acc queue2 visited2 acc2 H Hnd.
  - simpl in H. injection H as <- <- <-. exists [].
    rewrite !app_nil_r. repeat split; auto.
    + intros x [].
    + intros e [].
  - simpl in H. destruct (includes visitedSet (a_node e0)) eqn:Hinc.
    + destruct (IH _ _ _ _ _ _ H Hnd) as (new & Hq & Hv & Hnd2 & Hnew & Hall & Hp).
      exists new. repeat split; auto.
      * intros x Hx. destruct (Hnew x Hx) as [e [He Hx']]. exists e. split; auto.
        now right.
      * intros e [<-|He]; [|auto]. rewrite Hv. apply in_or_app. left.
        now apply includes_In.
    + assert (Hnin : ~ In (a_node e0) visitedSet).
      { intros Hc. apply includes_In in Hc. congruence. }
      assert (Hnd1 : NoDup (visitedSet ++ [a_node e0])).
      { apply NoDup_app; [exact Hnd | repeat constructor; intros [] |].
        intros x Hx [<-|[]]. contradiction. }
      destruct (IH _ _ _ _ _ _ H Hnd1) as (new & Hq & Hv & Hnd2 & Hnew & Hall & Hp).
      exists (a_node e0 :: new).
      split; [rewrite Hq, <- app_assoc; reflexivity|].
      split; [rewrite Hv, <- app_assoc; reflexivity|].
      split; [exact Hnd2|].
      split.
      { intros x [<-|Hx]; [exists e0; split; [now left | reflexivity]|].
        destruct (Hnew x Hx) as [e [He Hx']]. exists e. split; auto. now right. }
      split.
      { intros e [<-|He]; [|auto]. rewrite Hv. apply in_or_app. left.
        apply in_or_app. right. now left. }
      intros Hacc. apply Hp. intros st Hst. apply in_app_or in Hst.
      destruct Hst as [Hst|[<-|[]]]; [auto | reflexivity].
Qed.

Section BFS.

Variables (s : State) (sid : nat).
Hypothesis Hclosed : adj_closed s = true.

(** The invariant of the main loop: the visited set has no repeats and
    holds reachable stored nodes only, the queue lies within it, and a
    visited node that left the queue has all its neighbours visited. *)
Definition bfs_inv (queue visitedSet : list nat) : Prop :=
  NoDup visitedSet
  /\ (forall v, In v visitedSet -> In v (node_ids s))
  /\ (forall v, In v queue -> In v visitedSet)
  /\ (forall v, In v visitedSet -> reach s sid v)
  /\ In sid visitedSet
  /\ (forall u, In u visitedSet -> ~ In u queue ->
        forall e, In e (Trace.neighbors_of s u) -> In (a_node e) visitedSet).

Lemma bfs_loop_total : forall fuel queue visitedSet acc,
  bfs_inv queue visitedSet ->
  List.length queue + (List.length (node_ids s) - List.length visitedSet) <= fuel ->
  (forall st, In st acc -> path st = []) ->
  exists trace last,
    Trace.bfs_loop fuel s queue visitedSet acc = Done (trace ++ [last])
    /\ desc last = Completed bfs
    /\ NoDup (visited last)
    /\ (forall v, In v (visited last) <-> reach s sid v)
    /\ (forall st, In st (trace ++ [last]) -> path st = []).
Proof.
  induction fuel as [|fuel IH]; intros queue visitedSet acc Hinv Hfuel Hacc.
  - destruct queue as [|c q]; [|simpl in Hfuel; lia].
    destruct Hinv as (I1 & I2 & I3 & I4 & I5 & I6).
    simpl. eexists _, _. split; [reflexivity|]. cbn [desc visited].
    split; [reflexivity|]. split; [exact I1|].
    split; [exact (closed_is_component s sid (fun v => In v visitedSet) I4 I5
                     (fun u Hu => I6 u Hu (fun H => H)))|].
    intros st Hst. apply in_app_or in Hst.
    destruct Hst as [Hst|[<-|[]]]; [auto | reflexivity].
  - destruct queue as [|c q].
    + destruct Hinv as (I1 & I2 & I3 & I4 & I5 & I6).
      simpl. eexists _, _. split; [reflexivity|]. cbn [desc visited].
      split; [reflexivity|]. split; [exact I1|].
      split; [exact (closed_is_component s sid (fun v => In v visitedSet) I4 I5
                     (fun u Hu => I6 u Hu (fun H => H)))|].
      intros st Hst. apply in_app_or in Hst.
      destruct Hst as [Hst|[<-|[]]]; [auto | reflexivity].
    + pose proof Hinv as (I1 & I2 & I3 & I4 & I5 & I6).
      cbn [Trace.bfs_loop].
      assert (Hc : In c (node_ids s)) by (apply I2, I3; now left).
      destruct (find_node_some s c Hc) as [r Hr]. rewrite Hr. cbn [must bind].
      destruct (Trace.bfs_neighbors (Trace.neighbors_of s c) q visitedSet _)
        as [[queue2 visited2] acc3] eqn:Hnb.
      destruct (bfs_neighbors_spec _ _ _ _ _ _ _ Hnb I1)
        as (new & -> & -> & Hnd2 & Hnew & Hall & Hp).
      assert (Hnewids : forall x, In x new -> In x (node_ids s)).
      { intros x Hx. destruct (Hnew x Hx) as [e [He <-]].
        eapply neighbors_closed; eauto. }
      assert (Hsub2 : forall v, In v (visitedSet ++ new) -> In v (node_ids s)).
      { intros v Hv. apply in_app_or in Hv. destruct Hv; auto. }
      apply IH.
      * unfold bfs_inv. split; [exact Hnd2|]. split; [exact Hsub2|].
        split.
        { intros v Hv. apply in_or_app. apply in_app_or in Hv.
          destruct Hv as [Hv|Hv]; [left; apply I3; now right | now right]. }
        split.
        { intros v Hv. apply in_app_or in Hv. destruct Hv as [Hv|Hv]; [auto|].
          destruct (Hnew v Hv) as [e [He <-]].
          eapply reach_next; [apply I4, I3; now left | exact He]. }
        split; [apply in_or_app; now left|].
        intros u Hu Hnq e He.
        destruct (Nat.eq_dec u c) as [->|Hne]; [apply Hall, He|].
        apply in_app_or in Hu. destruct Hu as [Hu|Hu].
        -- apply in_or_app. left. apply (I6 u Hu); [|exact He].
           intros [E|Hq]; [congruence|]. apply Hnq. apply in_or_app. now left.
        -- exfalso. apply Hnq. apply in_or_app. now right.
      * pose proof (NoDup_incl_length Hnd2 Hsub2) as Hle.
        rewrite !length_app in *. simpl in Hfuel. lia.
      * apply Hp. intros st Hst. apply in_app_or in Hst.
        destruct Hst as [Hst|[<-|[]]]; [|reflexivity].
        apply in_app_or in Hst. destruct Hst as [Hst|[<-|[]]]; [auto | reflexivity].
Qed.

End BFS.

(** X14.  Breadth-first search from a stored start, on an index whose
    entries name stored nodes: with fuel for one round per node the
    generator returns a trace and does not throw; the closing step lists
    every node that can be reached from the start, once each, and no step of
    the trace carries a path. *)
Theorem bfs_visits_the_reachable_nodes s startRef fuel :
  startNode s = Some startRef ->
  In (n_id (node_of s startRef)) (node_ids s) ->
  adj_closed s = true ->
  List.length (nodes s) <= fuel ->
  exists trace last,
    Trace.prepareBFS fuel s = Done (trace ++ [last])
    /\ desc last = Completed bfs
    /\ NoDup (visited last)
    /\ (forall v, In v (visited last) <-> reach s (n_id (node_of s startRef)) v)
    /\ (forall st, In st (trace ++ [last]) -> path st = []).
Proof.
  intros Hs Hin Hclosed Hfuel.
  unfold Trace.prepareBFS. rewrite Hs. cbn [must bind].
  set (sid := n_id (node_of s startRef)) in *.
  apply (bfs_loop_total s sid Hclosed).
  - unfold bfs_inv. split; [repeat constructor; intros []|].
    split; [intros v [<-|[]]; exact Hin|].
    split; [auto|].
    split; [intros v [<-|[]]; apply reach_here|].
    split; [now left|].
    intros u [<-|[]] Hnq. exfalso. apply Hnq. now left.
  - assert (List.length (node_ids s) = List.length (nodes s))
      by (unfold node_ids; apply length_map).
    assert (1 <= List.length (node_ids s)).
    { destruct (node_ids s); [contradiction | simpl; lia]. }
    simpl. lia.
  - intros st [<-|[]]. reflexivity.
Qed.

Lemma bfs_visits_the_reachable_nodes_witness :
  startNode cut_off = Some 0
  /\ adj_closed cut_off = true
  /\ exists trace last,
       Trace.prepareBFS 3 cut_off = Done (trace ++ [last])
       /\ desc last = Completed bfs
       /\ NoDup (visited last)
       /\ (forall v, In v (visited last)
                     <-> reach cut_off (n_id (node_of cut_off 0)) v)
       /\ (forall st, In st (trace ++ [last]) -> path st = []).
Proof.
  destruct cut_off_facts as (Hs & _ & Hin & Hc & _).
  assert (Hlen : List.length (nodes cut_off) <= 3) by (vm_compute; lia).
  split; [exact Hs|]. split; [exact Hc|].
  exact (bfs_visits_the_reachable_nodes cut_off 0 3 Hs Hin Hc Hlen).
Defined.

Lemma pop_spec stack :
  match Trace.pop stack with
  | Some (top, below) => stack = below ++ [top]
  | None => stack = []
  end.
Proof.
  unfold Trace.pop. destruct (rev stack) as [|top below] eqn:E.
  - apply (f_equal (@rev nat)) in E. now rewrite rev_involutive in E.
  - apply (f_equal (@rev nat)) in E. rewrite rev_involutive in E. exact E.
Qed.

Section DFS.

Variables (s : State) (sid : nat).
Hypothesis Hclosed : adj_closed s = true.

(** The invariant of the main loop: the visited set has no repeats, the
    visited and the stacked nodes are stored and reachable, and every
    neighbour of a visited node is visited or on the stack. *)
Definition dfs_inv (stack visitedSet : list nat) : Prop :=
  NoDup visitedSet
  /\ (forall v, In v visitedSet \/ In v stack -> In v (node_ids s))
  /\ (forall v, In v visitedSet \/ In v stack -> reach s sid v)
  /\ (In sid visitedSet \/ In sid stack)
  /\ (forall u, In u visitedSet ->
        forall e, In e (Trace.neighbors_of s u) ->
                  In (a_node e) visitedSet \/ In (a_node e) stack).

Lemma dfs_loop_eq fuel stack visitedSet acc :
  Trace.dfs_loop (S fuel) s stack visitedSet acc =
  match Trace.pop stack with
  | None => Done (acc ++ [mkStep (Completed dfs) [] visitedSet [] NoAux])
  | Some (current, stack1) =>
      if includes visitedSet current
      then Trace.dfs_loop fuel s stack1 visitedSet
             (acc ++ [mkStep (Skipping current) stack1 visitedSet [] NoAux])
      else
        let visited1 := visitedSet ++ [current] in
        currentRef <- must (find_node s current) ;;
        let shown := label_or_id (node_of s currentRef) in
        let acc1 := acc ++ [mkStep (Visiting shown) stack1 visited1 [] NoAux] in
        let unvisitedNeighbors :=
          filter (fun n => negb (includes visited1 (a_node n)))
            (Trace.neighbors_of s current) in
        match unvisitedNeighbors with
        | [] => Trace.dfs_loop fuel s stack1 visited1 acc1
        | _ :: _ =>
            let neighborIds := map a_node unvisitedNeighbors in
            let acc2 :=
              acc1 ++ [mkStep (AddingUnvisited neighborIds) stack1 visited1 [] NoAux] in
            Trace.dfs_loop fuel s (stack1 ++ rev neighborIds) visited1 acc2
        end
  end.
Proof. reflexivity. Qed.

(** The loop ends once it has enough fuel: a round visits a node or makes
    the stack shorter.  The visited set is then the set of reachable
    nodes. *)
Lemma dfs_loop_total : forall a b stack visitedSet acc,
  dfs_inv stack visitedSet ->
  List.length (node_ids s) - List.length visitedSet = a ->
  List.length stack = b ->
  (forall st, In st acc -> path st = []) ->
  exists fuel0 trace last,
    (forall fuel, fuel0 <= fuel ->
       Trace.dfs_loop fuel s stack visitedSet acc = Done (trace ++ [last]))
    /\ desc last = Completed dfs
    /\ NoDup (visited last)
    /\ (forall v, In v (visited last) <-> reach s sid v)
    /\ (forall st, In st (trace ++ [last]) -> path st = []).
Proof.
  induction a as [a IHa] using lt_wf_ind.
  induction b as [b IHb] using lt_wf_ind.
  intros stack visitedSet acc Hinv Ha Hb Hacc.
  pose proof Hinv as (I1 & I2 & I3 & I4 & I5).
  pose proof (pop_spec stack) as Hpop.
  destruct (Trace.pop stack) as [[current stack1]|] eqn:Epop.
  - subst stack.
    assert (Hcur : In current (node_ids s)).
    { apply I2. right. apply in_or_app. right. now left. }
    destruct (includes visitedSet current) eqn:Hinc.
    + (* already visited: skipped *)
      apply includes_In in Hinc.
      destruct (IHb (List.length stack1)
                  ltac:(rewrite length_app in Hb; simpl in Hb; lia)
                  stack1 visitedSet
                  (acc ++ [mkStep (Skipping current) stack1 visitedSet [] NoAux]))
        as (fuel0 & trace & last & Hrun & Hrest); auto.
      * unfold dfs_inv. split; [exact I1|].
        split.
        { intros v [Hv|Hv]; apply I2; [now left|]. right. apply in_or_app. now left. }
        split.
        { intros v [Hv|Hv]; apply I3; [now left|]. right. apply in_or_app. now left. }
        split.
        { destruct I4 as [H|H]; [now left|]. apply in_app_or in H.
          destruct H as [H|[<-|[]]]; [now right | now left]. }
        intros u Hu e He. destruct (I5 u Hu e He) as [H|H]; [now left|].
        apply in_app_or in H. destruct H as [H|[<-|[]]]; [now right | now left].
      * intros st Hst. apply in_app_or in Hst.
        destruct Hst as [Hst|[<-|[]]]; [auto | reflexivity].
      * exists (S fuel0), trace, last. split; [|exact Hrest].
        intros [|fuel] Hfuel; [lia|].
        rewrite dfs_loop_eq, Epop, (proj2 (includes_In _ _) Hinc).
        apply Hrun. lia.
    + (* visited now *)
      assert (Hnin : ~ In current visitedSet).
      { intros Hc. apply includes_In in Hc. congruence. }
      set (visited1 := visitedSet ++ [current]).
      assert (Hnd1 : NoDup visited1).
      { apply NoDup_app; [exact I1 | repeat constructor; intros [] |].
        intros x Hx [<-|[]]. contradiction. }
      assert (Hsub1 : forall v, In v visited1 -> In v (node_ids s)).
      { intros v Hv. apply in_app_or in Hv. destruct Hv as [Hv|[<-|[]]]; [|exact Hcur].
        apply I2. now left. }
      pose proof (NoDup_incl_length Hnd1 Hsub1) as Hle.
      unfold visited1 in Hle. rewrite length_app in Hle. simpl in Hle.
      destruct (find_node_some s current Hcur) as [r Hr].
      set (unvisited := filter (fun n => negb (includes visited1 (a_node n)))
                          (Trace.neighbors_of s current)).
      set (acc1 := acc ++ [mkStep (Visiting (label_or_id (node_of s r)))
                             stack1 visited1 [] NoAux]).
      assert (Hacc1 : forall st, In st acc1 -> path st = []).
      { intros st Hst. apply in_app_or in Hst.
        destruct Hst as [Hst|[<-|[]]]; [auto | reflexivity]. }
      set (stack2 := match unvisited with
                     | [] => stack1
                     | _ :: _ => stack1 ++ rev (map a_node unvisited)
                     end).
      assert (Hstack2 : forall v, In v stack2 <->
                                  In v stack1 \/ In v (map a_node unvisited)).
      { intros v. unfold stack2. destruct unvisited as [|u0 us].
        - simpl. tauto.
        - rewrite in_app_iff, <- in_rev. tauto. }
      assert (Hunv : forall v, In v (map a_node unvisited) ->
                exists e, In e (Trace.neighbors_of s current) /\ a_node e = v).
      { intros v Hv. apply in_map_iff in Hv. destruct Hv as [e [<- He]].
        apply filter_In in He. exists e. tauto. }
      assert (Hinv2 : dfs_inv stack2 visited1).
      { unfold dfs_inv. split; [exact Hnd1|].
        split.
        { intros v [Hv|Hv]; [now apply Hsub1|].
          apply Hstack2 in Hv. destruct Hv as [Hv|Hv].
          - apply I2. right. apply in_or_app. now left.
          - destruct (Hunv v Hv) as [e [He <-]]. eapply neighbors_closed; eauto. }
        assert (Hrc : reach s sid current).
        { apply I3. right. apply in_or_app. right. now left. }
        split.
        { intros v [Hv|Hv].
          - apply in_app_or in Hv. destruct Hv as [Hv|[<-|[]]]; [|exact Hrc].
            apply I3. now left.
          - apply Hstack2 in Hv. destruct Hv as [Hv|Hv].
            + apply I3. right. apply in_or_app. now left.
            + destruct (Hunv v Hv) as [e [He <-]]. eapply reach_next; eauto. }
        split.
        { destruct I4 as [H|H]; [left; apply in_or_app; now left|].
          apply in_app_or in H. destruct H as [H|[<-|[]]].
          - right. apply Hstack2. now left.
          - left. apply in_or_app. right. now left. }
        intros u Hu e He. apply in_app_or in Hu. destruct Hu as [Hu|[<-|[]]].
        - destruct (I5 u Hu e He) as [H|H]; [left; apply in_or_app; now left|].
          apply in_app_or in H. destruct H as [H|[<-|[]]].
          + right. apply Hstack2. now left.
          + left. apply in_or_app. right. now left.
        - destruct (includes visited1 (a_node e)) eqn:Hv1.
          + left. now apply includes_In.
          + right. apply Hstack2. right. apply in_map. apply filter_In.
            split; [exact He | now rewrite Hv1]. }
      assert (Hnext : forall acc2, (forall st, In st acc2 -> path st = []) ->
                exists fuel0 trace last,
                  (forall fuel, fuel0 <= fuel ->
                     Trace.dfs_loop fuel s stack2 visited1 acc2
                     = Done (trace ++ [last]))
                  /\ desc last = Completed dfs
                  /\ NoDup (visited last)
                  /\ (forall v, In v (visited last) <-> reach s sid v)
                  /\ (forall st, In st (trace ++ [last]) -> path st = [])).
      { intros acc2 Hacc2.
        apply (IHa (List.length (node_ids s) - List.length visited1))
          with (b := List.length stack2); auto.
        unfold visited1. rewrite length_app. simpl. lia. }
      destruct unvisited as [|u0 us] eqn:Eunv.
      * destruct (Hnext acc1 Hacc1) as (fuel0 & trace & last & Hrun & Hrest).
        exists (S fuel0), trace, last. split; [|exact Hrest].
        intros [|fuel] Hfuel; [lia|].
        rewrite dfs_loop_eq, Epop, Hinc, Hr. cbn [must bind]. cbv zeta.
        fold visited1. unfold unvisited in Eunv. rewrite Eunv.
        apply Hrun. lia.
      * destruct (Hnext (acc1 ++ [mkStep (AddingUnvisited (map a_node (u0 :: us)))
                                    stack1 visited1 [] NoAux]))
          as (fuel0 & trace & last & Hrun & Hrest).
        { intros st Hst. apply in_app_or in Hst.
          destruct Hst as [Hst|[<-|[]]]; [auto | reflexivity]. }
        exists (S fuel0), trace, last. split; [|exact Hrest].
        intros [|fuel] Hfuel; [lia|].
        rewrite dfs_loop_eq, Epop, Hinc, Hr. cbn [must bind]. cbv zeta.
        fold visited1. unfold unvisited in Eunv. rewrite Eunv.
        apply Hrun. lia.
  - subst stack.
    exists 0. eexists _, _. split.
    { intros [|fuel] _; simpl; reflexivity. }
    cbn [desc visited].
    split; [reflexivity|]. split; [exact I1|].
    split.
    + apply (closed_is_component s sid (fun v => In v visitedSet)).
      * intros k Hk. apply I3. now left.
      * destruct I4 as [H|[]]. exact H.
      * intros u Hu e He. destruct (I5 u Hu e He) as [H|[]]. exact H.
    + intros st Hst. apply in_app_or in Hst.
      destruct Hst as [Hst|[<-|[]]]; [auto | reflexivity].
Qed.

End DFS.

(** X15.  Depth-first search from a stored start, on an index whose entries
    name stored nodes: with enough fuel the generator returns a trace and
    does not throw; the closing step lists every node that can be reached
    from the start, once each, and no step of the trace carries a path. *)
Theorem dfs_visits_the_reachable_nodes s startRef :
  startNode s = Some startRef ->
  In (n_id (node_of s startRef)) (node_ids s) ->
  adj_closed s = true ->
  exists fuel0 trace last,
    (forall fuel, fuel0 <= fuel ->
       Trace.prepareDFS fuel s = Done (trace ++ [last]))
    /\ desc last = Completed dfs
    /\ NoDup (visited last)
    /\ (forall v, In v (visited last) <-> reach s (n_id (node_of s startRef)) v)
    /\ (forall st, In st (trace ++ [last]) -> path st = []).
Proof.
  intros Hs Hin Hclosed.
  set (sid := n_id (node_of s startRef)) in *.
  assert (Hinv : dfs_inv s sid [sid] []).
  { unfold dfs_inv. split; [constructor|].
    split; [intros v [[]|[<-|[]]]; exact Hin|].
    split; [intros v [[]|[<-|[]]]; apply reach_here|].
    split; [right; now left|].
    intros u []. }
  destruct (dfs_loop_total s sid Hclosed
              (List.length (node_ids s) - List.length (@nil nat))
              (List.length [sid]) [sid] []
              [mkStep (StartingDFS (label_or_id (node_of s startRef))) [sid] [] [] NoAux]
              Hinv eq_refl eq_refl)
    as (fuel0 & trace & last & Hrun & Hrest).
  - intros st [<-|[]]. reflexivity.
  - exists fuel0, trace, last. split; [|exact Hrest].
    intros fuel Hfuel. unfold Trace.prepareDFS. rewrite Hs. cbn [must bind].
    apply Hrun, Hfuel.
Qed.

Lemma dfs_visits_the_reachable_nodes_witness :
  startNode cut_off = Some 0
  /\ adj_closed cut_off = true
  /\ exists fuel0 trace last,
       (forall fuel, fuel0 <= fuel ->
          Trace.prepareDFS fuel cut_off = Done (trace ++ [last]))
       /\ desc last = Completed dfs
       /\ NoDup (visited last)
       /\ (forall v, In v (visited last)
                     <-> reach cut_off (n_id (node_of cut_off 0)) v)
       /\ (forall st, In st (trace ++ [last]) -> path st = []).
Proof.
  destruct cut_off_facts as (Hs & _ & Hin & Hc & _).
  split; [exact Hs|]. split; [exact Hc|].
  exact (dfs_visits_the_reachable_nodes cut_off 0 Hs Hin Hc).
Defined.

(** ** Connected components *)

(** A set of node ids that holds the neighbours of its members. *)
Definition closed_set (s : State) (l : list nat) : Prop :=
  forall u, In u l -> forall e, In e (Trace.neighbors_of s u) -> In (a_node e) l.

Lemma cc_neighbors_spec : forall nbrs visitedSet queue visited2 queue2,
  cc_neighbors nbrs visitedSet queue = (visited2, queue2) ->
  NoDup visitedSet ->
  exists new,
    visited2 = visitedSet ++ new
    /\ queue2 = queue ++ new
    /\ NoDup visited2
    /\ (forall x, In x new -> exists e, In e nbrs /\ a_node e = x)
    /\ (forall e, In e nbrs -> In (a_node e) visited2).
Proof.
  induction nbrs as [|e0 rest IH]; intros visitedSet queue visited2 queue2 H Hnd.
  - simpl in H. injection H as <- <-. exists [].
    rewrite !app_nil_r. repeat split; auto.
    + intros x [].
    + intros e [].
  - simpl in H. destruct (includes visitedSet (a_node e0)) eqn:Hinc.
    + destruct (IH _ _ _ _ H Hnd) as (new & Hv & Hq & Hnd2 & Hnew & Hall).
      exists new. repeat split; auto.
      * intros x Hx. destruct (Hnew x Hx) as [e [He Hx']]. exists e. split; auto.
        now right.
      * intros e [<-|He]; [|auto]. rewrite Hv. apply in_or_app. left.
        now apply includes_In.
    + assert (Hnin : ~ In (a_node e0) visitedSet).
      { intros Hc. apply includes_In in Hc. congruence. }
      assert (Hnd1 : NoDup (visitedSet ++ [a_node e0])).
      { apply NoDup_app; [exact Hnd | repeat constructor; intros [] |].
        intros x Hx [<-|[]]. contradiction. }
      destruct (IH _ _ _ _ H Hnd1) as (new & Hv & Hq & Hnd2 & Hnew & Hall).
      exists (a_node e0 :: new).
      split; [rewrite Hv, <- app_assoc; reflexivity|].
      split; [rewrite Hq, <- app_assoc; reflexivity|].
      split; [exact Hnd2|].
      split.
      { intros x [<-|Hx]; [exists e0; split; [now left | reflexivity]|].
        destruct (Hnew x Hx) as [e [He Hx']]. exists e. split; auto. now right. }
      intros e [<-|He]; [|auto]. rewrite Hv. apply in_or_app. left.
      apply in_or_app. right. now left.
Qed.

Section Components.

Variable s : State.
Hypothesis Hclosed : adj_closed s = true.

(** The [while] loop from the node [seed], [before] being what the earlier
    components hold: [visited] is [before], the component so far and the
    queue, in this order. *)
Lemma cc_component_spec seed before : forall fuel queue visitedSet component,
  visitedSet = before ++ component ++ queue ->
  NoDup visitedSet ->
  (forall v, In v visitedSet -> In v (node_ids s)) ->
  (forall v, In v (component ++ queue) -> reach s seed v) ->
  (forall u, In u (before ++ component) ->
     forall e, In e (Trace.neighbors_of s u) -> In (a_node e) visitedSet) ->
  List.length queue + (List.length (node_ids s) - List.length visitedSet) <= fuel ->
  exists rest,
    cc_component fuel s queue visitedSet component
    = Done (before ++ component ++ rest, component ++ rest)
    /\ hd_error rest = hd_error queue
    /\ NoDup (before ++ component ++ rest)
    /\ (forall v, In v (before ++ component ++ rest) -> In v (node_ids s))
    /\ (forall v, In v (component ++ rest) -> reach s seed v)
    /\ closed_set s (before ++ component ++ rest).
Proof.
  induction fuel as [|fuel IH];
    intros queue visitedSet component Hv Hnd Hsub Hreach Hcl Hfuel.
  - destruct queue as [|c q]; [|simpl in Hfuel; lia].
    exists []. simpl. rewrite app_nil_r in *. subst visitedSet.
    repeat split; auto.
  - destruct queue as [|c q].
    + exists []. simpl. rewrite app_nil_r in *. subst visitedSet.
      repeat split; auto.
    + cbn [cc_component].
      destruct (cc_neighbors (Trace.neighbors_of s c) visitedSet q)
        as [visited1 queue2] eqn:Hnb.
      destruct (cc_neighbors_spec _ _ _ _ _ Hnb Hnd)
        as (new & -> & -> & Hnd2 & Hnew & Hall).
      assert (Hnewids : forall x, In x new -> In x (node_ids s)).
      { intros x Hx. destruct (Hnew x Hx) as [e [He <-]].
        eapply neighbors_closed; eauto. }
      assert (Hsub2 : forall v, In v (visitedSet ++ new) -> In v (node_ids s)).
      { intros v Hin. apply in_app_or in Hin. destruct Hin; auto. }
      assert (Hrc : reach s seed c).
      { apply Hreach. apply in_or_app. right. now left. }
      destruct (IH (q ++ new) (visitedSet ++ new) (component ++ [c]))
        as (rest & Hrun & _ & Hnd3 & Hsub3 & Hreach3 & Hcl3).
      * rewrite Hv, <- !app_assoc. reflexivity.
      * exact Hnd2.
      * exact Hsub2.
      * intros v Hin. rewrite <- app_assoc in Hin. cbn [app] in Hin.
        apply in_app_or in Hin. destruct Hin as [Hin|Hin].
        { apply Hreach. apply in_or_app. now left. }
        destruct Hin as [<-|Hin]; [exact Hrc|].
        apply in_app_or in Hin. destruct Hin as [Hin|Hin].
        { apply Hreach. apply in_or_app. right. now right. }
        destruct (Hnew v Hin) as [e [He <-]]. eapply reach_next; eauto.
      * intros u Hu e He. rewrite app_assoc in Hu. apply in_app_or in Hu.
        destruct Hu as [Hu|[<-|[]]].
        { apply in_or_app. left. eapply Hcl; eauto. }
        apply Hall, He.
      * pose proof (NoDup_incl_length Hnd2 Hsub2) as Hle.
        rewrite !length_app in *. simpl in Hfuel. lia.
      * exists (c :: rest). rewrite Hrun, <- !app_assoc. cbn [app].
        split; [reflexivity|]. split; [reflexivity|].
        rewrite <- !app_assoc in Hnd3, Hsub3, Hreach3, Hcl3. cbn [app] in *.
        repeat split; assumption.
Qed.

(** What holds of the components collected so far. *)
Definition cc_inv (components : list (list nat)) : Prop :=
  NoDup (List.concat components)
  /\ (forall v, In v (List.concat components) -> In v (node_ids s))
  /\ (forall pre post, components = pre ++ post -> closed_set s (List.concat pre))
  /\ (forall c, In c components ->
        exists seed rest, c = seed :: rest /\ forall v, In v c -> reach s seed v).

Lemma cc_nodes_spec fuel : forall ids components,
  (forall v, In v ids -> In v (node_ids s)) ->
  cc_inv components ->
  List.length (node_ids s) <= fuel ->
  exists components',
    cc_nodes fuel s ids (List.concat components) components = Done components'
    /\ cc_inv components'
    /\ (forall v, In v (List.concat components) -> In v (List.concat components'))
    /\ (forall v, In v ids -> In v (List.concat components')).
Proof.
  induction ids as [|id ids IH]; intros components Hids Hinv Hfuel.
  - exists components. repeat split; auto; try apply Hinv. intros v [].
  - assert (Hrest : forall v, In v ids -> In v (node_ids s))
      by (intros v Hv; apply Hids; now right).
    cbn [cc_nodes]. destruct (includes (List.concat components) id) eqn:Hinc.
    + destruct (IH components Hrest Hinv Hfuel) as (comps' & Hrun & Hinv' & Hmono & Hcov).
      exists comps'. split; [exact Hrun|]. split; [exact Hinv'|].
      split; [exact Hmono|].
      intros v [<-|Hv]; [|auto]. apply Hmono. now apply includes_In.
    + pose proof Hinv as (J1 & J2 & J3 & J4).
      assert (Hnin : ~ In id (List.concat components)).
      { intros Hc. apply includes_In in Hc. congruence. }
      assert (Hnd1 : NoDup (List.concat components ++ [id])).
      { apply NoDup_app; [exact J1 | repeat constructor; intros [] |].
        intros x Hx [<-|[]]. contradiction. }
      assert (Hsub1 : forall v, In v (List.concat components ++ [id]) -> In v (node_ids s)).
      { intros v Hv. apply in_app_or in Hv. destruct Hv as [Hv|[<-|[]]]; auto.
        apply Hids. now left. }
      pose proof (NoDup_incl_length Hnd1 Hsub1) as Hle.
      rewrite length_app in Hle. simpl in Hle.
      destruct (cc_component_spec id (List.concat components) fuel [id]
                  (List.concat components ++ [id]) [])
        as (rest & Hrun & Hhd & Hnd3 & Hsub3 & Hreach3 & Hcl3).
      * reflexivity.
      * exact Hnd1.
      * exact Hsub1.
      * intros v [<-|[]]. apply reach_here.
      * intros u Hu e He. rewrite app_nil_r in Hu. apply in_or_app. left.
        apply (J3 components [] ltac:(now rewrite app_nil_r) u Hu e He).
      * rewrite length_app. simpl. lia.
      * rewrite Hrun. cbn [bind app] in *.
        destruct rest as [|seed rest']; [discriminate|].
        injection Hhd as ->.
        assert (Hcat : List.concat (components ++ [id :: rest'])
                       = List.concat components ++ id :: rest').
        { rewrite concat_app. simpl. now rewrite app_nil_r. }
        rewrite <- Hcat in *.
        destruct (IH (components ++ [id :: rest']) Hrest) as
          (comps' & Hrun' & Hinv' & Hmono & Hcov); [|exact Hfuel|].
        { unfold cc_inv. split; [exact Hnd3|]. split; [exact Hsub3|].
          split.
          { intros pre post E. destruct post as [|p post] using rev_ind.
            - rewrite app_nil_r in E. subst pre. exact Hcl3.
            - rewrite app_assoc in E. apply app_inj_tail in E. destruct E as [E _].
              apply (J3 pre post E). }
          intros c Hc. apply in_app_or in Hc. destruct Hc as [Hc|[<-|[]]]; [auto|].
          exists id, rest'. split; [reflexivity | exact Hreach3]. }
        exists comps'. split; [exact Hrun'|]. split; [exact Hinv'|].
        split.
        { intros v Hv. apply Hmono. rewrite Hcat. apply in_or_app. now left. }
        intros v [<-|Hv]; [|auto]. apply Hmono. rewrite Hcat.
        apply in_or_app. right. now left.
Qed.

End Components.

(** X16.  [findConnectedComponents] on an index whose entries name stored
    nodes, with fuel for one round per node: it returns a list of
    components in which every stored node id occurs exactly once; a
    component starts with the node that seeded it and holds only nodes that
    can be reached from it; and the nodes of the components up to any point
    of the list hold all their neighbours, so that a component holds every
    node reachable from one of its members that no earlier component
    holds. *)
Theorem components_partition_the_nodes s fuel :
  adj_closed s = true ->
  List.length (nodes s) <= fuel ->
  exists components,
    findConnectedComponents fuel s = Done components
    /\ NoDup (List.concat components)
    /\ (forall v, In v (List.concat components) <-> In v (node_ids s))
    /\ (forall c, In c components ->
          exists seed rest, c = seed :: rest /\ forall v, In v c -> reach s seed v)
    /\ (forall pre post, components = pre ++ post ->
          forall u v, In u (List.concat pre) -> reach s u v -> In v (List.concat pre)).
Proof.
  intros Hclosed Hfuel. unfold findConnectedComponents.
  destruct (cc_nodes_spec s Hclosed fuel (node_ids s) [])
    as (comps & Hrun & (J1 & J2 & J3 & J4) & _ & Hcov).
  - auto.
  - unfold cc_inv. split; [constructor|]. split; [intros v []|].
    split; [|intros c []].
    intros pre post E. symmetry in E. apply app_eq_nil in E. destruct E as [-> _].
    intros u [].
  - unfold node_ids. rewrite length_map. exact Hfuel.
  - exists comps. split; [exact Hrun|]. split; [exact J1|].
    split; [intros v; split; [apply J2 | apply Hcov]|].
    split; [exact J4|].
    intros pre post E u v Hu Hr.
    induction Hr as [|v e Hr IH He]; [exact Hu|].
    exact (J3 pre post E v IH e He).
Qed.

Lemma components_partition_the_nodes_witness :
  adj_closed cut_off = true
  /\ List.length (nodes cut_off) <= 3
  /\ findConnectedComponents 3 cut_off = Done [[0; 1]; [2]]
  /\ exists components,
       findConnectedComponents 3 cut_off = Done components
       /\ NoDup (List.concat components)
       /\ (forall v, In v (List.concat components) <-> In v (node_ids cut_off)).
Proof.
  destruct cut_off_facts as (_ & _ & _ & Hc & _).
  assert (Hlen : List.length (nodes cut_off) <= 3) by (vm_compute; lia).
  split; [exact Hc|]. split; [exact Hlen|].
  split; [vm_compute; reflexivity|].
  destruct (components_partition_the_nodes cut_off 3 Hc Hlen)
    as (comps & Hrun & Hnd & Hcov & _).
  exists comps. split; [exact Hrun|]. split; [exact Hnd | exact Hcov].
Defined.

(** ** Export and import *)

(** The node and edge objects [importGraph] creates from a document. *)
Definition doc_node (n : nat * string * Z * Z) : NodeObj :=
  let '(id, label, x, y) := n in mkNode id x y label None.

Definition doc_edge (ed : nat * nat * Z) : Edge :=
  let '(from, to, w) := ed in mkEdge from to w None.

Lemma node_entry_strip n : node_entry (strip_node n) = node_entry n.
Proof. destruct n; reflexivity. Qed.

Lemma node_entry_doc n : node_entry (doc_node n) = n.
Proof. destruct n as [[[id label] x] y]. reflexivity. Qed.

(** The bodies of the two loops of [importGraph]. *)
Definition import_node (st : State) (n : nat * string * Z * Z) : State :=
  let '(id, label, x, y) := n in
  let '(h1, r) := alloc (heap st) (mkNode id x y label None) in
  with_adj (JsMap.set (adj st) id [])
    (with_nodes (nodes st ++ [r]) (with_heap h1 st)).

Definition import_edge (d : bool) (st : State) (ed : nat * nat * Z) : State :=
  let '(from, to, w) := ed in
  with_adj (adj_add_edge d (adj st) from to w)
    (with_edges (edges st ++ [mkEdge from to w None]) st).

Lemma import_node_graph st n :
  heap (import_node st n) = heap st ++ [doc_node n]
  /\ nodes (import_node st n) = nodes st ++ [List.length (heap st)]
  /\ adj (import_node st n) = JsMap.set (adj st) (n_id (doc_node n)) []
  /\ edges (import_node st n) = edges st
  /\ directed (import_node st n) = directed st
  /\ startNode (import_node st n) = startNode st
  /\ goalNode (import_node st n) = goalNode st.
Proof. destruct n as [[[id label] x] y]. repeat split. Qed.

Lemma import_edge_graph d st ed :
  heap (import_edge d st ed) = heap st
  /\ nodes (import_edge d st ed) = nodes st
  /\ adj (import_edge d st ed)
     = adj_add_edge d (adj st) (e_from (doc_edge ed)) (e_to (doc_edge ed))
         (e_weight (doc_edge ed))
  /\ edges (import_edge d st ed) = edges st ++ [doc_edge ed]
  /\ directed (import_edge d st ed) = directed st
  /\ startNode (import_edge d st ed) = startNode st
  /\ goalNode (import_edge d st ed) = goalNode st.
Proof. destruct ed as [[from to] w]. repeat split. Qed.

(** The loop of [importGraph] over the nodes of the document. *)
Lemma import_nodes_fold (l : list (nat * string * Z * Z)) : forall st,
  heap (fold_left import_node l st) = heap st ++ map doc_node l
  /\ nodes (fold_left import_node l st)
     = nodes st ++ seq (List.length (heap st)) (List.length l)
  /\ adj (fold_left import_node l st)
     = fold_left (fun m k => JsMap.set m k [])
         (map (fun n => n_id (doc_node n)) l) (adj st)
  /\ edges (fold_left import_node l st) = edges st
  /\ directed (fold_left import_node l st) = directed st
  /\ startNode (fold_left import_node l st) = startNode st
  /\ goalNode (fold_left import_node l st) = goalNode st.
Proof.
  induction l as [|n l IH]; intros st.
  - simpl. rewrite !app_nil_r. repeat split.
  - cbn [fold_left map List.length seq].
    destruct (IH (import_node st n)) as (A & B & C & D & E & F & G).
    destruct (import_node_graph st n) as (A0 & B0 & C0 & D0 & E0 & F0 & G0).
    rewrite A, B, C, D, E, F, G, A0, B0, C0, D0, E0, F0, G0.
    rewrite <- !app_assoc, length_app. simpl.
    replace (List.length (heap st) + 1) with (S (List.length (heap st))) by lia.
    repeat split.
Qed.

(** The loop of [importGraph] over the edges of the document. *)
Lemma import_edges_fold d (l : list (nat * nat * Z)) : forall st,
  heap (fold_left (import_edge d) l st) = heap st
  /\ nodes (fold_left (import_edge d) l st) = nodes st
  /\ adj (fold_left (import_edge d) l st)
     = fold_left (fun m e => adj_add_edge d m (e_from e) (e_to e) (e_weight e))
         (map doc_edge l) (adj st)
  /\ edges (fold_left (import_edge d) l st) = edges st ++ map doc_edge l
  /\ directed (fold_left (import_edge d) l st) = directed st
  /\ startNode (fold_left (import_edge d) l st) = startNode st
  /\ goalNode (fold_left (import_edge d) l st) = goalNode st.
Proof.
  induction l as [|ed l IH]; intros st.
  - simpl. rewrite app_nil_r. repeat split.
  - cbn [fold_left map].
    destruct (IH (import_edge d st ed)) as (A & B & C & D & E & F & G).
    destruct (import_edge_graph d st ed) as (A0 & B0 & C0 & D0 & E0 & F0 & G0).
    rewrite A, B, C, D, E, F, G, A0, B0, C0, D0, E0, F0, G0.
    rewrite <- app_assoc. repeat split.
Qed.

(** [importGraph], with its loop bodies named. *)
Lemma importGraph_eq data s :
  importGraph data s =
  let s2 :=
    with_searchResults [] (with_selectedNodes []
      (with_adj [] (with_edges [] (with_nodes [] s)))) in
  let s3 := fold_left import_node (d_nodes data) s2 in
  let s4 := fold_left (import_edge (d_directed data)) (d_edges data) s3 in
  let s5 := with_directed (d_directed data) s4 in
  let s6 :=
    match d_start data with
    | Some k => match find_node s5 k with
                | Some r => setStartNode r s5
                | None => s5
                end
    | None => s5
    end in
  let s7 :=
    match d_goal data with
    | Some k => match find_node s6 k with
                | Some r => setGoalNode r s6
                | None => s6
                end
    | None => s6
    end in
  saveState s7.
Proof. reflexivity. Qed.

(** What [setStartNode] and [setGoalNode] leave of the graph. *)
Lemma setStartNode_graph r s :
  map strip_node (heap (setStartNode r s)) = map strip_node (heap s)
  /\ nodes (setStartNode r s) = nodes s
  /\ edges (setStartNode r s) = edges s
  /\ adj (setStartNode r s) = adj s
  /\ directed (setStartNode r s) = directed s
  /\ startNode (setStartNode r s) = Some r
  /\ goalNode (setStartNode r s) = goalNode s.
Proof.
  unfold setStartNode. save_shape. fields.
  destruct (startNode s); fields; rewrite ?strip_update_node; repeat split.
Qed.

Lemma setGoalNode_graph r s :
  map strip_node (heap (setGoalNode r s)) = map strip_node (heap s)
  /\ nodes (setGoalNode r s) = nodes s
  /\ edges (setGoalNode r s) = edges s
  /\ adj (setGoalNode r s) = adj s
  /\ directed (setGoalNode r s) = directed s
  /\ startNode (setGoalNode r s) = startNode s
  /\ goalNode (setGoalNode r s) = Some r.
Proof.
  unfold setGoalNode. save_shape. fields.
  destruct (goalNode s); fields; rewrite ?strip_update_node; repeat split.
Qed.

(** The selector an import leaves: the first created node of the id the
    document names, or the selector of before when it names none. *)
Definition imported_selector (s' : State) (old : option ref) (k : option nat)
  : option ref :=
  match k with
  | Some k => match find_node s' k with
              | Some r => Some r
              | None => old
              end
  | None => old
  end.

(** The graph [importGraph] leaves, before the colours. *)
Lemma importGraph_graph data s :
  let s' := importGraph data s in
  map strip_node (heap s')
  = map strip_node (heap s ++ map doc_node (d_nodes data))
  /\ nodes s' = seq (List.length (heap s)) (List.length (d_nodes data))
  /\ edges s' = map doc_edge (d_edges data)
  /\ adj s' = rebuild_adj (d_directed data)
                (map (fun n => n_id (doc_node n)) (d_nodes data))
                (map doc_edge (d_edges data))
  /\ directed s' = d_directed data
  /\ startNode s' = imported_selector s' (startNode s) (d_start data)
  /\ goalNode s' = imported_selector s' (goalNode s) (d_goal data).
Proof.
  cbv zeta. rewrite importGraph_eq. cbv zeta.
  set (s2 := with_searchResults [] (with_selectedNodes []
               (with_adj [] (with_edges [] (with_nodes [] s))))).
  set (s3 := fold_left import_node (d_nodes data) s2).
  set (s4 := fold_left (import_edge (d_directed data)) (d_edges data) s3).
  set (s5 := with_directed (d_directed data) s4).
  destruct (import_nodes_fold (d_nodes data) s2) as (A3 & B3 & C3 & D3 & E3 & F3 & G3).
  destruct (import_edges_fold (d_directed data) (d_edges data) s3)
    as (A4 & B4 & C4 & D4 & E4 & F4 & G4).
  fold s3 in A3, B3, C3, D3, E3, F3, G3. fold s4 in A4, B4, C4, D4, E4, F4, G4.
  assert (H5 : map strip_node (heap s5)
               = map strip_node (heap s ++ map doc_node (d_nodes data))
               /\ nodes s5 = seq (List.length (heap s)) (List.length (d_nodes data))
               /\ edges s5 = map doc_edge (d_edges data)
               /\ adj s5 = rebuild_adj (d_directed data)
                             (map (fun n => n_id (doc_node n)) (d_nodes data))
                             (map doc_edge (d_edges data))
               /\ directed s5 = d_directed data
               /\ startNode s5 = startNode s
               /\ goalNode s5 = goalNode s).
  { unfold s5. fields. rewrite A4, B4, C4, D4, F4, G4, A3, B3, C3, D3, F3, G3.
    unfold s2. fields. repeat split. }
  clearbody s5. clear A3 B3 C3 D3 E3 F3 G3 A4 B4 C4 D4 E4 F4 G4 s4 s3 s2.
  destruct H5 as (A5 & B5 & C5 & D5 & E5 & F5 & G5).
  set (s6 := match d_start data with
             | Some k => match find_node s5 k with
                         | Some r => setStartNode r s5
                         | None => s5
                         end
             | None => s5
             end).
  assert (H6 : map strip_node (heap s6) = map strip_node (heap s5)
               /\ nodes s6 = nodes s5 /\ edges s6 = edges s5 /\ adj s6 = adj s5
               /\ directed s6 = directed s5
               /\ startNode s6 = imported_selector s5 (startNode s) (d_start data)
               /\ goalNode s6 = goalNode s5).
  { unfold s6, imported_selector. destruct (d_start data) as [k|];
      [|repeat split; exact F5].
    destruct (find_node s5 k) as [r|]; [|repeat split; exact F5].
    destruct (setStartNode_graph r s5) as (A & B & C & D & E & F & G).
    repeat split; assumption. }
  clearbody s6. destruct H6 as (A6 & B6 & C6 & D6 & E6 & F6 & G6).
  set (s7 := match d_goal data with
             | Some k => match find_node s6 k with
                         | Some r => setGoalNode r s6
                         | None => s6
                         end
             | None => s6
             end).
  assert (H7 : map strip_node (heap s7) = map strip_node (heap s6)
               /\ nodes s7 = nodes s6 /\ edges s7 = edges s6 /\ adj s7 = adj s6
               /\ directed s7 = directed s6
               /\ startNode s7 = startNode s6
               /\ goalNode s7 = imported_selector s6 (goalNode s) (d_goal data)).
  { unfold s7, imported_selector. destruct (d_goal data) as [k|];
      [|repeat split; congruence].
    destruct (find_node s6 k) as [r|]; [|repeat split; congruence].
    destruct (setGoalNode_graph r s6) as (A & B & C & D & E & F & G).
    repeat split; assumption. }
  clearbody s7. destruct H7 as (A7 & B7 & C7 & D7 & E7 & F7 & G7).
  destruct (saveState_shape s7) as [h [i ->]]. fields.
  assert (Hsel : forall (sa sb : State) old k,
             map strip_node (heap sa) = map strip_node (heap sb) ->
             nodes sa = nodes sb ->
             imported_selector sa old k = imported_selector sb old k).
  { intros sa sb old [k|] Hh Hn; [|reflexivity]. unfold imported_selector.
    now rewrite (find_node_colorblind sa sb k Hh Hn). }
  split; [congruence|]. split; [congruence|]. split; [congruence|].
  split; [congruence|]. split; [congruence|].
  split.
  - rewrite F7, F6. apply Hsel; fields; congruence.
  - rewrite G7. apply Hsel; fields; congruence.
Qed.

(** What [importGraph] leaves, read back through the node objects. *)
Lemma importGraph_document data s :
  let s' := importGraph data s in
  map (fun r => node_entry (node_of s' r)) (nodes s') = d_nodes data
  /\ edges s' = map doc_edge (d_edges data)
  /\ directed s' = d_directed data
  /\ adj s' = rebuild_adj (directed s') (node_ids s') (edges s')
  /\ adj_reflects s'
  /\ startNode s' = imported_selector s' (startNode s) (d_start data)
  /\ goalNode s' = imported_selector s' (goalNode s) (d_goal data).
Proof.
  cbv zeta.
  destruct (importGraph_graph data s) as (A & B & C & D & E & F & G).
  cbv zeta in *. set (s' := importGraph data s) in *.
  assert (Hobj : map (fun r => strip_node (node_of s' r)) (nodes s')
                 = map strip_node (map doc_node (d_nodes data))).
  { rewrite B. unfold node_of.
    rewrite (map_ext _ (fun r => strip_node
                                   (deref (heap s ++ map doc_node (d_nodes data)) r)))
      by (intros r; apply strip_deref; exact A).
    rewrite <- (map_map (deref (heap s ++ map doc_node (d_nodes data))) strip_node).
    rewrite <- (length_map doc_node (d_nodes data)).
    now rewrite deref_fresh. }
  assert (Hent : map (fun r => node_entry (node_of s' r)) (nodes s') = d_nodes data).
  { rewrite (map_ext _ (fun r => node_entry (strip_node (node_of s' r))))
      by (intros r; now rewrite node_entry_strip).
    rewrite <- (map_map (fun r => strip_node (node_of s' r)) node_entry), Hobj.
    rewrite !map_map. rewrite (map_ext _ (fun n => n)); [apply map_id|].
    intros n. now rewrite node_entry_strip, node_entry_doc. }
  assert (Hids : node_ids s' = map (fun n => n_id (doc_node n)) (d_nodes data)).
  { unfold node_ids.
    rewrite (map_ext _ (fun r => fst (fst (fst (node_entry (node_of s' r))))))
      by reflexivity.
    rewrite <- (map_map (fun r => node_entry (node_of s' r))
                  (fun n => fst (fst (fst n)))), Hent.
    apply map_ext. intros [[[id label] x] y]. reflexivity. }
  split; [exact Hent|]. split; [exact C|]. split; [exact E|].
  assert (Hadj : adj s' = rebuild_adj (directed s') (node_ids s') (edges s'))
    by (rewrite E, Hids, C; exact D).
  split; [exact Hadj|].
  split; [|split; assumption].
  intros k. unfold Trace.neighbors_of. rewrite Hadj.
  apply entries_at_rebuild.
Qed.

(** X17.  [importGraph] loads the document whatever the state before: the
    node objects carry the ids, labels and positions of the document in its
    order, the edges are the document's, the directed toggle is the
    document's, and the adjacency index is the one [updateAdjacencyList]
    derives from them.  The start (goal) selector refers to the first node
    of the id the document names; when the document names none, or an id
    none of its nodes has, the selector of before is kept. *)
Theorem importGraph_loads_the_document data s :
  let s' := importGraph data s in
  map (fun r => node_entry (node_of s' r)) (nodes s') = d_nodes data
  /\ edges s' = map doc_edge (d_edges data)
  /\ directed s' = d_directed data
  /\ adj s' = rebuild_adj (directed s') (node_ids s') (edges s')
  /\ adj_reflects s'
  /\ startNode s' = imported_selector s' (startNode s) (d_start data)
  /\ goalNode s' = imported_selector s' (goalNode s) (d_goal data).
Proof. exact (importGraph_document data s). Qed.






